(** * dandd: an 8x8 dungeon puzzle solver and generator (src/dandd.c)

    Shallow embedding of the bitboard helpers, the puzzle record, the seven
    constraint predicates, [solve], [generate] and the two printing
    functions, followed by the properties proved about them.

    Conventions of the embedding:
    - [u64] values are [Z] in [0, 2^64); the operations that can leave that
      range in C ([~], [<<], [++]) have their truncation written out;
    - [i32] values (slots, rows, columns, counts) are [Z]; they stay within
      a few hundred in absolute value, so no wrap-around can occur;
    - a C value used as a condition is tested with [truthy];
    - arrays are lists read with [nth] and written with [store];
    - a [while] loop is iterated by [run], a doubling iterator that stops as
      soon as the loop condition fails;
    - what a function writes to standard output is returned as a list of
      characters ([solve_io] is [solve] together with its output). *)

From Stdlib Require Import Ascii String ZArith List Bool Lia Znumtheory Sorted.
From Stdlib Require Import DecimalString DecimalN DecimalPos.
Import ListNotations.
Local Open Scope Z_scope.

(** ** Machine integers *)

Definition u64_mask : Z := Z.ones 64.

Definition in_u64 (x : Z) : Prop := 0 <= x < 2 ^ 64.

(** [~x] on a [u64]. *)
Definition u64_not (x : Z) : Z := Z.land (Z.lnot x) u64_mask.

(** [x << n] on a [u64]. *)
Definition u64_shl (x n : Z) : Z := Z.land (Z.shiftl x n) u64_mask.

(** [x + 1] on a [u64] (the [++] of the counters). *)
Definition u64_succ (x : Z) : Z := (x + 1) mod 2 ^ 64.

(** A scalar used as a C condition. *)
Definition truthy (x : Z) : bool := negb (x =? 0).

(** ** Slots and positions *)

Record Pos : Type := mkPos { row : Z; col : Z }.

(** C division truncates toward zero: [Z.quot] and [Z.rem]. *)
Definition pos_from_slot (slot : Z) : Pos :=
  {| row := Z.quot slot 8; col := Z.rem slot 8 |}.

Definition slot_out_of_range (slot : Z) : bool := (slot <? 0) || (slot >=? 64).

Definition pos_out_of_range (pos : Pos) : bool :=
  (row pos <? 0) || (row pos >=? 8) || (col pos <? 0) || (col pos >=? 8).

Definition slot_set (m slot : Z) : Z :=
  if slot_out_of_range slot then m
  else Z.lor m (u64_shl 1 (63 - slot)).

Definition slot_unset (m slot : Z) : Z :=
  if slot_out_of_range slot then m
  else Z.land m (u64_not (u64_shl 1 (63 - slot))).

Definition slot_is_set (m slot : Z) : Z :=
  if slot_out_of_range slot then 0
  else Z.land m (u64_shl 1 (63 - slot)).

Definition pos_set (m : Z) (pos : Pos) : Z :=
  if pos_out_of_range pos then m
  else Z.lor m (u64_shl 1 (63 - (row pos * 8 + col pos))).

Definition pos_unset (m : Z) (pos : Pos) : Z :=
  if pos_out_of_range pos then m
  else Z.land m (u64_not (u64_shl 1 (63 - (row pos * 8 + col pos)))).

Definition pos_is_set (m : Z) (pos : Pos) : Z :=
  if pos_out_of_range pos then 0
  else Z.land m (u64_shl 1 (63 - (row pos * 8 + col pos))).

(** [while (n) { n &= (n - 1); count++; }].  Every iteration clears one set
    bit, so 64 iterations exhaust any [u64] ([count_set_bits_loop_exhausts]
    below). *)
Fixpoint count_set_bits_loop (fuel : nat) (n count : Z) : Z :=
  match fuel with
  | O => count
  | S fuel' =>
      if truthy n then count_set_bits_loop fuel' (Z.land n (n - 1)) (count + 1)
      else count
  end.

Definition count_set_bits (n : Z) : Z := count_set_bits_loop 64 n 0.

(** ** Puzzles *)

Record PuzzleArgs : Type := mkPuzzleArgs {
  args_row_wall_counts : list Z;
  args_col_wall_counts : list Z;
  args_monsters : list Pos;
  args_monsters_count : Z;
  args_treasures : list Pos;
  args_treasures_count : Z
}.

Record Puzzle : Type := mkPuzzle {
  row_wall_counts : list Z;
  col_wall_counts : list Z;
  monsters : Z;
  treasures : Z
}.

(** Reading [a[i]] for an array of [u8]. *)
Definition array_get (a : list Z) (i : Z) : Z := nth (Z.to_nat i) a 0.

Definition range8 : list Z := [0; 1; 2; 3; 4; 5; 6; 7].

(** [for (i = 0; i < count; i++) m = pos_set(m, positions[i]);] *)
Definition set_positions (positions : list Pos) (count : Z) : Z :=
  fold_left pos_set (firstn (Z.to_nat count) positions) 0.

(** The two [assert]s abort the program: [None]. *)
Definition puzzle (args : PuzzleArgs) : option Puzzle :=
  if (args_monsters_count args <=? 64) && (args_treasures_count args <=? 64) then
    Some {| row_wall_counts := map (array_get (args_row_wall_counts args)) range8;
            col_wall_counts := map (array_get (args_col_wall_counts args)) range8;
            monsters := set_positions (args_monsters args) (args_monsters_count args);
            treasures := set_positions (args_treasures args) (args_treasures_count args) |}
  else None.

(** ** Constraints *)

Definition check_doesnt_overlap (puzzle : Puzzle) (solution : Z) : bool :=
  negb (truthy (Z.land solution (treasures puzzle))
        || truthy (Z.land solution (monsters puzzle))).

Definition count_walls_in_row (solution r : Z) : Z :=
  let row_mask := Z.shiftr 0xff00000000000000 (r * 8) in
  count_set_bits (Z.land row_mask solution).

Definition count_walls_in_col (solution c : Z) : Z :=
  let col_mask := Z.shiftr 0x8080808080808080 c in
  count_set_bits (Z.land col_mask solution).

Definition check_row_count (puzzle : Puzzle) (solution slot : Z) : bool :=
  let pos := pos_from_slot slot in
  let walls_in_row := count_walls_in_row solution (row pos) in
  if walls_in_row >? array_get (row_wall_counts puzzle) (row pos) then false
  else if (col pos =? 7)
          && negb (walls_in_row =? array_get (row_wall_counts puzzle) (row pos))
  then false
  else true.

Definition check_col_count (puzzle : Puzzle) (solution slot : Z) : bool :=
  let pos := pos_from_slot slot in
  let walls_in_col := count_walls_in_col solution (col pos) in
  if walls_in_col >? array_get (col_wall_counts puzzle) (col pos) then false
  else if (row pos =? 7)
          && negb (walls_in_col =? array_get (col_wall_counts puzzle) (col pos))
  then false
  else true.

(** The mask of the (up to four) orthogonal neighbours of [p]. *)
Definition neighbours_mask (p : Pos) : Z :=
  let border_mask := 0 in
  let border_mask := pos_set border_mask (mkPos (row p - 1) (col p)) in
  let border_mask := pos_set border_mask (mkPos (row p + 1) (col p)) in
  let border_mask := pos_set border_mask (mkPos (row p) (col p - 1)) in
  let border_mask := pos_set border_mask (mkPos (row p) (col p + 1)) in
  border_mask.

Definition is_dead_end (puzzle : Puzzle) (solution : Z) (p : Pos) : bool :=
  if pos_out_of_range p then false
  else
    let slot_mask := pos_set 0 p in
    if truthy (Z.land slot_mask solution) then false
    else if truthy (Z.land slot_mask (treasures puzzle))
            || truthy (Z.land slot_mask (monsters puzzle)) then false
    else
      let border_mask := neighbours_mask p in
      let border_walls := Z.land border_mask solution in
      count_set_bits border_walls >=? count_set_bits border_mask - 1.

Definition check_dead_ends (puzzle : Puzzle) (solution slot : Z) : bool :=
  let p := pos_from_slot slot in
  let above := mkPos (row p - 1) (col p) in
  let left := mkPos (row p) (col p - 1) in
  if is_dead_end puzzle solution above || is_dead_end puzzle solution left
     || is_dead_end puzzle solution p
  then false
  else true.

Definition is_invalid_monster (puzzle : Puzzle) (solution : Z) (p : Pos) : bool :=
  if pos_out_of_range p then false
  else
    let slot_mask := pos_set 0 p in
    if negb (truthy (Z.land slot_mask (monsters puzzle))) then false
    else
      let border_mask := neighbours_mask p in
      let border_walls := Z.land border_mask solution in
      if truthy (Z.land border_mask (monsters puzzle))
         || truthy (Z.land border_mask (treasures puzzle)) then true
      else negb (count_set_bits border_walls =? count_set_bits border_mask - 1).

Definition check_monsters (puzzle : Puzzle) (solution slot : Z) : bool :=
  let p := pos_from_slot slot in
  let above := mkPos (row p - 1) (col p) in
  if is_invalid_monster puzzle solution above then false
  else if row p =? 7 then
    let left := mkPos (row p) (col p - 1) in
    if is_invalid_monster puzzle solution left then false
    else if col p =? 7 then
      if is_invalid_monster puzzle solution p then false else true
    else true
  else true.

(** The 2x2 block whose bottom-right corner is [p]. *)
Definition space_mask (p : Pos) : Z :=
  let m := pos_set 0 p in
  let m := pos_set m (mkPos (row p) (col p - 1)) in
  let m := pos_set m (mkPos (row p - 1) (col p)) in
  let m := pos_set m (mkPos (row p - 1) (col p - 1)) in
  m.

(** The twelve cells around that block. *)
Definition space_neighbours (p : Pos) : Z :=
  let n := pos_set 0 (mkPos (row p - 2) (col p - 2)) in
  let n := pos_set n (mkPos (row p - 2) (col p - 1)) in
  let n := pos_set n (mkPos (row p - 2) (col p)) in
  let n := pos_set n (mkPos (row p - 2) (col p + 1)) in
  let n := pos_set n (mkPos (row p - 1) (col p - 2)) in
  let n := pos_set n (mkPos (row p - 1) (col p + 1)) in
  let n := pos_set n (mkPos (row p) (col p - 2)) in
  let n := pos_set n (mkPos (row p) (col p + 1)) in
  let n := pos_set n (mkPos (row p + 1) (col p - 2)) in
  let n := pos_set n (mkPos (row p + 1) (col p - 1)) in
  let n := pos_set n (mkPos (row p + 1) (col p)) in
  let n := pos_set n (mkPos (row p + 1) (col p + 1)) in
  n.

Definition check_wide_space (puzzle : Puzzle) (solution slot : Z) : bool :=
  let p := pos_from_slot slot in
  let space := space_mask p in
  if (count_set_bits space =? 4)
     && negb (truthy (Z.land space solution))
     && negb (truthy (Z.land space (monsters puzzle)))
     && negb (truthy (Z.land space (treasures puzzle)))
  then
    if truthy (Z.land (space_neighbours p) (treasures puzzle)) then true else false
  else true.

(** The 3x3 room centred at [center]. *)
Definition room_mask (center : Pos) : Z :=
  let m := pos_set 0 (mkPos (row center - 1) (col center - 1)) in
  let m := pos_set m (mkPos (row center - 1) (col center)) in
  let m := pos_set m (mkPos (row center - 1) (col center + 1)) in
  let m := pos_set m (mkPos (row center) (col center - 1)) in
  let m := pos_set m (mkPos (row center) (col center)) in
  let m := pos_set m (mkPos (row center) (col center + 1)) in
  let m := pos_set m (mkPos (row center + 1) (col center - 1)) in
  let m := pos_set m (mkPos (row center + 1) (col center)) in
  let m := pos_set m (mkPos (row center + 1) (col center + 1)) in
  m.

(** The border around that room, in the order the source lists it. *)
Definition walls_cells (center : Pos) : list Pos :=
  [ mkPos (row center - 2) (col center - 1);
    mkPos (row center - 2) (col center);
    mkPos (row center - 2) (col center + 1);
    mkPos (row center + 2) (col center - 1);
    mkPos (row center + 2) (col center);
    mkPos (row center + 2) (col center + 1);
    mkPos (row center - 1) (col center - 2);
    mkPos (row center) (col center - 2);
    mkPos (row center + 1) (col center - 2);
    mkPos (row center - 1) (col center + 2);
    mkPos (row center) (col center + 2);
    mkPos (row center + 1) (col center + 2) ].

Definition walls_mask (center : Pos) : Z := fold_left pos_set (walls_cells center) 0.

(** The condition under which the room must already be closed. *)
Definition strict_room_check (center : Pos) (slot : Z) : bool :=
  let checked_pos := pos_from_slot slot in
  ((row checked_pos >=? row center + 2) && (col checked_pos >=? col center + 2))
  || ((row checked_pos =? 7) && (col checked_pos =? 7)).

Definition is_invalid_treasure_room
    (puzzle : Puzzle) (solution : Z) (treasure center : Pos) (slot : Z) : bool :=
  let room := room_mask center in
  if negb (count_set_bits room =? 9) then true
  else
    let other_treasures := pos_unset (treasures puzzle) treasure in
    if truthy (Z.land room (monsters puzzle)) || truthy (Z.land room other_treasures)
    then true
    else if truthy (Z.land room solution) then true
    else
      let walls := walls_mask center in
      if truthy (Z.land walls (monsters puzzle)) || truthy (Z.land walls (treasures puzzle))
      then true
      else if strict_room_check center slot then
        if negb (count_set_bits (Z.land walls solution) =? count_set_bits walls - 1)
        then true else false
      else
        if count_set_bits (Z.land walls solution) =? count_set_bits walls
        then true else false.

(** The nine candidate centres, in the order of the two nested [for] loops. *)
Definition room_centers (treasure : Pos) : list Pos :=
  flat_map (fun r => map (fun c => mkPos r c)
                         [col treasure - 1; col treasure; col treasure + 1])
           [row treasure - 1; row treasure; row treasure + 1].

Definition is_invalid_treasure
    (puzzle : Puzzle) (solution : Z) (treasure : Pos) (slot : Z) : bool :=
  fold_left
    (fun result center =>
       result && is_invalid_treasure_room puzzle solution treasure center slot)
    (room_centers treasure) true.

(** All 64 positions, in the order of the two nested [for] loops. *)
Definition all_positions : list Pos :=
  flat_map (fun r => map (fun c => mkPos r c) range8) range8.

(** The scan over the positions, with its early [return false]. *)
Fixpoint treasure_scan (puzzle : Puzzle) (solution slot : Z) (ps : list Pos) : bool :=
  match ps with
  | [] => true
  | treasure_pos :: ps' =>
      if truthy (pos_is_set (treasures puzzle) treasure_pos) then
        if is_invalid_treasure puzzle solution treasure_pos slot then false
        else treasure_scan puzzle solution slot ps'
      else treasure_scan puzzle solution slot ps'
  end.

Definition check_treasure_rooms (puzzle : Puzzle) (solution slot : Z) : bool :=
  if treasures puzzle =? 0 then true
  else treasure_scan puzzle solution slot all_positions.

(** The condition of the [if] in [solve]. *)
Definition check_constraints (puzzle : Puzzle) (solution slot : Z) : bool :=
  check_doesnt_overlap puzzle solution && check_row_count puzzle solution slot
  && check_col_count puzzle solution slot && check_dead_ends puzzle solution slot
  && check_monsters puzzle solution slot && check_wide_space puzzle solution slot
  && check_treasure_rooms puzzle solution slot.

(** ** Loops and arrays *)

Section While.
Context {St : Type} (cond : St -> bool) (body : St -> St).

  (** One turn of [while (cond) body]; a finished loop stays where it is. *)
Definition iter (st : St) : St := if cond st then body st else st.

  (** Up to [2 ^ d] turns, stopping at the first state where [cond] fails. *)
Fixpoint run (d : nat) (st : St) : St :=
    match d with
    | O => iter st
    | S d' => let st' := run d' st in if cond st' then run d' st' else st'
    end.
End While.

(** [a[i] = v]; the callers guard the index. *)
Fixpoint store {A : Type} (a : list A) (i : nat) (v : A) : list A :=
  match a, i with
  | [], _ => []
  | _ :: a', O => v :: a'
  | x :: a', S i' => x :: store a' i' v
  end.

(** ** The solver *)

Record SolveState : Type := mkSolveState {
  s_solution : Z;
  s_slot : Z;
  s_solution_i : Z;
  s_solutions : list Z
}.

(** [while (slot >= 0 && !slot_is_set(solution, slot)) slot--;] *)
Fixpoint solve_backtrack (fuel : nat) (solution slot : Z) : Z :=
  match fuel with
  | O => slot
  | S fuel' =>
      if (slot >=? 0) && negb (truthy (slot_is_set solution slot))
      then solve_backtrack fuel' solution (slot - 1)
      else slot
  end.

Definition solve_cond (st : SolveState) : bool :=
  (0 <=? s_slot st) && (s_slot st <? 64).

Definition solve_body (puzzle : Puzzle) (max_solutions : Z) (st : SolveState)
  : SolveState :=
  let slot := s_slot st in
  let solution :=
    if negb (truthy (slot_is_set (s_solution st) slot))
    then slot_set (s_solution st) slot
    else slot_unset (s_solution st) slot in
  if check_constraints puzzle solution slot then
    if slot <? 63 then
      mkSolveState solution (slot + 1) (s_solution_i st) (s_solutions st)
    else
      let solutions :=
        if s_solution_i st >=? max_solutions then s_solutions st
        else store (s_solutions st) (Z.to_nat (s_solution_i st)) solution in
      let solution_i := u64_succ (s_solution_i st) in
      mkSolveState solution
                   (solve_backtrack (Z.to_nat (slot + 1)) solution slot)
                   solution_i solutions
  else
    mkSolveState solution
                 (solve_backtrack (Z.to_nat (slot + 1)) solution slot)
                 (s_solution_i st) (s_solutions st).

Definition solve_init (solutions : list Z) : SolveState :=
  mkSolveState 0 0 0 solutions.

(** The search tree has fewer than [2 ^ 65] nodes ([solve_terminates]). *)
Definition solve_depth : nat := 65.

(** [solve(puzzle, solutions, max_solutions)]: the returned count and the
    contents of the output array. *)
Definition solve (puzzle : Puzzle) (solutions : list Z) (max_solutions : Z)
  : Z * list Z :=
  let st := run solve_cond (solve_body puzzle max_solutions) solve_depth
                (solve_init solutions) in
  (s_solution_i st, s_solutions st).

(** ** The generator *)

Inductive Tile : Type := EMPTY | WALL | MONSTER | TREASURE.

Definition Tile_eqb (a b : Tile) : bool :=
  match a, b with
  | EMPTY, EMPTY | WALL, WALL | MONSTER, MONSTER | TREASURE, TREASURE => true
  | _, _ => false
  end.

Record GeneratedPuzzle : Type := mkGeneratedPuzzle {
  gp_puzzle : Puzzle;
  num_solutions : Z
}.

Record GenState : Type := mkGenState {
  g_tiles : list Tile;
  g_monsters : Z;
  g_treasures : Z;
  g_solution : Z;
  g_slot : Z;
  g_puzzle_i : Z;
  g_puzzles : list GeneratedPuzzle;
  g_returned : bool
}.

Definition zero_counts : list Z := [0; 0; 0; 0; 0; 0; 0; 0].

(** The local [puzzle] of [generate]: its counts stay zero. *)
Definition g_puzzle (st : GenState) : Puzzle :=
  mkPuzzle zero_counts zero_counts (g_monsters st) (g_treasures st).

Definition tile_at (tiles : list Tile) (slot : Z) : Tile :=
  nth (Z.to_nat slot) tiles EMPTY.

(** The [switch]: undo the previous tile and choose the next option. *)
Definition gen_cycle (st : GenState) : GenState :=
  let slot := g_slot st in
  let set_tile t := store (g_tiles st) (Z.to_nat slot) t in
  match tile_at (g_tiles st) slot with
  | TREASURE =>
      mkGenState (set_tile MONSTER)
                 (slot_set (g_monsters st) slot)
                 (slot_unset (g_treasures st) slot)
                 (g_solution st) slot (g_puzzle_i st) (g_puzzles st) (g_returned st)
  | MONSTER =>
      mkGenState (set_tile WALL)
                 (slot_unset (g_monsters st) slot)
                 (g_treasures st)
                 (slot_set (g_solution st) slot) slot
                 (g_puzzle_i st) (g_puzzles st) (g_returned st)
  | WALL =>
      mkGenState (set_tile EMPTY) (g_monsters st) (g_treasures st)
                 (slot_unset (g_solution st) slot) slot
                 (g_puzzle_i st) (g_puzzles st) (g_returned st)
  | EMPTY =>
      mkGenState (set_tile TREASURE) (g_monsters st)
                 (slot_set (g_treasures st) slot)
                 (g_solution st) slot (g_puzzle_i st) (g_puzzles st) (g_returned st)
  end.

(** The six booleans computed after the [switch], and their conjunction. *)
Definition gen_checks (puzzle : Puzzle) (solution slot : Z) : bool :=
  let invalid_monster := negb (is_invalid_monster puzzle solution (pos_from_slot slot)) in
  let overlap := check_doesnt_overlap puzzle solution in
  let dead_ends := check_dead_ends puzzle solution slot in
  let monsters := check_monsters puzzle solution slot in
  let wide_space := check_wide_space puzzle solution slot in
  let treasure := check_treasure_rooms puzzle solution slot in
  invalid_monster && overlap && dead_ends && monsters && wide_space && treasure.

(** [while (slot >= 0 && puzzle_tiles[slot] == 0) slot--;] *)
Fixpoint gen_backtrack (fuel : nat) (tiles : list Tile) (slot : Z) : Z :=
  match fuel with
  | O => slot
  | S fuel' =>
      if (slot >=? 0) && Tile_eqb (tile_at tiles slot) EMPTY
      then gen_backtrack fuel' tiles (slot - 1)
      else slot
  end.

(** [(u8)x] *)
Definition u8_cast (x : Z) : Z := x mod 256.

(** The puzzle recorded for a complete grid. *)
Definition valid_puzzle (monsters treasures solution : Z) : Puzzle :=
  mkPuzzle (map (fun i => u8_cast (count_walls_in_row solution i)) range8)
           (map (fun i => u8_cast (count_walls_in_col solution i)) range8)
           monsters treasures.

(** The local array [valid_puzzle_solutions[128]] is not initialised; only
    the count returned by [solve] is used, and it does not depend on the
    array ([solve_count_any_buffer]). *)
Definition valid_puzzle_solutions : list Z := repeat 0 128%nat.

Definition gen_cond (st : GenState) : bool :=
  negb (g_returned st) && (0 <=? g_slot st) && (g_slot st <? 64).

Definition gen_body (max_puzzles : Z) (st0 : GenState) : GenState :=
  let st := gen_cycle st0 in
  let slot := g_slot st in
  let back := gen_backtrack (Z.to_nat (slot + 1)) (g_tiles st) slot in
  if gen_checks (g_puzzle st) (g_solution st) slot then
    if slot <? 63 then
      mkGenState (g_tiles st) (g_monsters st) (g_treasures st) (g_solution st)
                 (slot + 1) (g_puzzle_i st) (g_puzzles st) false
    else
      let valid := valid_puzzle (g_monsters st) (g_treasures st) (g_solution st) in
      let num_valid_puzzle_solutions := fst (solve valid valid_puzzle_solutions 128) in
      let gen_puzzle := mkGeneratedPuzzle valid num_valid_puzzle_solutions in
      if g_puzzle_i st <? max_puzzles then
        mkGenState (g_tiles st) (g_monsters st) (g_treasures st) (g_solution st)
                   back (u64_succ (g_puzzle_i st))
                   (store (g_puzzles st) (Z.to_nat (g_puzzle_i st)) gen_puzzle)
                   false
      else
        mkGenState (g_tiles st) (g_monsters st) (g_treasures st) (g_solution st)
                   slot (g_puzzle_i st) (g_puzzles st) true
  else
    mkGenState (g_tiles st) (g_monsters st) (g_treasures st) (g_solution st)
               back (g_puzzle_i st) (g_puzzles st) false.

Definition gen_init (puzzles : list GeneratedPuzzle) : GenState :=
  mkGenState (repeat EMPTY 64%nat) 0 0 0 0 0 puzzles false.

(** The tile tree has fewer than [5 ^ 64 < 2 ^ 149] nodes
    ([generate_terminates]). *)
Definition gen_depth : nat := 149.

(** [generate(puzzles, max_puzzles)]: the returned count and the contents of
    the output array. *)
Definition generate (puzzles : list GeneratedPuzzle) (max_puzzles : Z)
  : Z * list GeneratedPuzzle :=
  let st := run gen_cond (gen_body max_puzzles) gen_depth (gen_init puzzles) in
  (g_puzzle_i st, g_puzzles st).

(** ** Printing *)

(** What a function writes to the standard output is returned as the list
    of its characters. *)
Definition newline : ascii := "010"%char.

Definition chars (s : string) : list ascii := list_ascii_of_string s.

(** [printf("%llu", x)]: the decimal digits of a [u64]. *)
Definition decimal (x : Z) : list ascii :=
  chars (NilZero.string_of_uint (N.to_uint (Z.to_N x))).

(** [(x >> (63 - i)) & 1] *)
Definition bit_at (x i : Z) : Z := Z.land (Z.shiftr x (63 - i)) 1.

(** The values of [i] in [for (u64 i = 0; i < 64; i++)]. *)
Definition print_range : list Z := map Z.of_nat (seq 0 64).

Definition print_grid (result : Z) : list ascii :=
  chars "grid: " ++ decimal result ++ [newline]
  ++ flat_map (fun i =>
       decimal (bit_at result i)
       ++ (if i mod 8 =? 7 then [newline] else [])) print_range.

Definition print_puzzle (puzzle : Puzzle) (solution : Z) : list ascii :=
  flat_map (fun i =>
    let monster := bit_at (monsters puzzle) i in
    let treasure := bit_at (treasures puzzle) i in
    let wall := bit_at solution i in
    (if (truthy monster && truthy treasure) || (truthy monster && truthy wall)
        || (truthy treasure && truthy wall) then chars "?"
     else if truthy monster then chars "M"
     else if truthy treasure then chars "T"
     else if truthy wall then chars "X"
     else chars ".")
    ++ (if i mod 8 =? 7 then [newline] else [])) print_range.
(** [solve] together with what it prints.  The loop body of [solve] on the
    state of the search and the output written so far: the only [printf]
    is the one of the branch that finds the array full. *)
Definition hit_max_message : list ascii :=
  chars "Hit max solutions, no longer recording them." ++ [newline].

Definition solve_body_io (puzzle : Puzzle) (max_solutions : Z)
    (sto : SolveState * list ascii) : SolveState * list ascii :=
  let st := fst sto in
  let out := snd sto in
  let slot := s_slot st in
  let solution :=
    if negb (truthy (slot_is_set (s_solution st) slot))
    then slot_set (s_solution st) slot
    else slot_unset (s_solution st) slot in
  if check_constraints puzzle solution slot then
    if slot <? 63 then
      (mkSolveState solution (slot + 1) (s_solution_i st) (s_solutions st), out)
    else
      let solutions :=
        if s_solution_i st >=? max_solutions then s_solutions st
        else store (s_solutions st) (Z.to_nat (s_solution_i st)) solution in
      let out :=
        if s_solution_i st >=? max_solutions then
          if s_solution_i st =? max_solutions then out ++ hit_max_message else out
        else out in
      let solution_i := u64_succ (s_solution_i st) in
      (mkSolveState solution
                    (solve_backtrack (Z.to_nat (slot + 1)) solution slot)
                    solution_i solutions, out)
  else
    (mkSolveState solution
                  (solve_backtrack (Z.to_nat (slot + 1)) solution slot)
                  (s_solution_i st) (s_solutions st), out).

(** The returned count, the contents of the array and the text printed. *)
Definition solve_io (puzzle : Puzzle) (solutions : list Z) (max_solutions : Z)
  : Z * list Z * list ascii :=
  let sto := run (fun sto => solve_cond (fst sto))
                 (solve_body_io puzzle max_solutions) solve_depth
                 (solve_init solutions, []) in
  (s_solution_i (fst sto), s_solutions (fst sto), snd sto).

(** ** Specification vocabulary *)

(** Number of set bits of a non-negative integer, by its binary digits. *)
Fixpoint pos_popcount (p : positive) : Z :=
  match p with
  | xH => 1
  | xO q => pos_popcount q
  | xI q => 1 + pos_popcount q
  end.

Definition popcount (n : Z) : Z :=
  match n with
  | Zpos p => pos_popcount p
  | _ => 0
  end.

(** The bit index of a slot and of a position. *)
Definition slot_bit (slot : Z) : Z := 63 - slot.
Definition pos_bit (pos : Pos) : Z := 63 - (row pos * 8 + col pos).

Definition slot_in_range (slot : Z) : Prop := 0 <= slot < 64.
Definition pos_in_range (pos : Pos) : Prop :=
  0 <= row pos < 8 /\ 0 <= col pos < 8.

(** The cells of slots [0 .. s], and a grid cut down to them. *)
Definition prefix_mask (s : Z) : Z := Z.shiftl (Z.ones (s + 1)) (63 - s).
Definition prefix (g s : Z) : Z := Z.land g (prefix_mask s).

(** All 64 slots in order. *)
Definition all_slots : list Z := map Z.of_nat (seq 0 64).

(** Arguments that put a monster and a treasure on the same cell. *)
Definition overlapping_args : PuzzleArgs :=
  mkPuzzleArgs zero_counts zero_counts [mkPos 0 0] 1 [mkPos 0 0] 1.

(** Arguments with a monster and a treasure on different cells. *)
Definition example_args : PuzzleArgs :=
  mkPuzzleArgs [1; 4; 3; 2; 4; 5; 3; 3] [1; 3; 6; 2; 4; 2; 3; 4]
               [mkPos 7 5] 1 [mkPos 0 0] 1.

(** ** The search of [solve] as a recursive enumeration *)

(** What one visit of a cell value contributes: nothing when a constraint
    fails, the grid itself at the last slot, the enumeration below it
    otherwise. *)
Definition visit (below : Z -> Z -> list Z) (puzzle : Puzzle) (solution slot : Z)
  : list Z :=
  if check_constraints puzzle solution slot then
    if slot <? 63 then below solution (slot + 1) else [solution]
  else [].

(** The grids found below a partial grid whose slots [slot ..] are open,
    with [n] slots left: first with a wall at [slot], then without. *)
Fixpoint dfs (n : nat) (puzzle : Puzzle) (solution slot : Z) : list Z :=
  match n with
  | O => []
  | S n' =>
      visit (dfs n' puzzle) puzzle (slot_set solution slot) slot
      ++ visit (dfs n' puzzle) puzzle solution slot
  end.

(** The grids [solve] finds, in the order it finds them. *)
Definition all_solutions (puzzle : Puzzle) : list Z := dfs 64 puzzle 0 0.

(** Writing a sequence of found grids from index [i] on, as [solve] does. *)
Fixpoint store_all (buf : list Z) (i max_solutions : Z) (gs : list Z) : list Z :=
  match gs with
  | [] => buf
  | g :: gs' =>
      store_all (if i >=? max_solutions then buf else store buf (Z.to_nat i) g)
                (i + 1) max_solutions gs'
  end.

(** Slots [s ..] of the grid are open. *)
Definition clear_from (solution s : Z) : Prop :=
  forall j, s <= j < 64 -> Z.testbit solution (slot_bit j) = false.

(** A grid every prefix of which passes the constraints at its last slot:
    what the search checks on the way to a complete grid. *)
Definition prefix_valid (puzzle : Puzzle) (g : Z) : Prop :=
  forall s, 0 <= s < 64 -> check_constraints puzzle (prefix g s) s = true.

(** Geometry of the slot order: where rows and columns end, and which slots
    a mask lies within. *)
Definition pos_eqb (p q : Pos) : bool := (row p =? row q) && (col p =? col q).

(** The slot at which the search has decided the whole row of [s]. *)
Definition row_end (s : Z) : Z := row (pos_from_slot s) * 8 + 7.

(** The slot at which the search has decided the whole column of [s]. *)
Definition col_end (s : Z) : Z := 56 + col (pos_from_slot s).

(** The slot at which the search checks cell [t] with all its neighbours
    decided: the cell below it, else the cell to its right, else itself. *)
Definition settle_slot (t : Z) : Z :=
  let q := pos_from_slot t in
  if row q <? 7 then t + 8 else if col q <? 7 then t + 1 else t.

Definition covers (M s : Z) : bool := Z.land M (prefix_mask s) =? M.

Definition geom_row (s : Z) : bool :=
  let e := row_end s in
  (0 <=? e) && (e <? 64)
  && (row (pos_from_slot e) =? row (pos_from_slot s)) && (col (pos_from_slot e) =? 7)
  && covers (Z.shiftr 0xff00000000000000 (row (pos_from_slot s) * 8)) e.

Definition geom_col (s : Z) : bool :=
  let e := col_end s in
  (0 <=? e) && (e <? 64)
  && (col (pos_from_slot e) =? col (pos_from_slot s)) && (row (pos_from_slot e) =? 7)
  && covers (Z.shiftr 0x8080808080808080 (col (pos_from_slot s))) e.

Definition geom_settle (t : Z) : bool :=
  let q := pos_from_slot t in
  let s := settle_slot t in
  let p := pos_from_slot s in
  (0 <=? s) && (s <? 64)
  && (pos_eqb q (mkPos (row p - 1) (col p))
      || ((row p =? 7) && pos_eqb q (mkPos (row p) (col p - 1)))
      || ((row p =? 7) && (col p =? 7) && pos_eqb q p))
  && covers (pos_set 0 q) s && covers (neighbours_mask q) s.

Definition geom_wide (s : Z) : bool := covers (space_mask (pos_from_slot s)) s.

(** The puzzle of [main]. *)
Definition main_args : PuzzleArgs :=
  mkPuzzleArgs [1; 4; 3; 2; 4; 5; 3; 3] [1; 3; 6; 2; 4; 2; 3; 4]
               [mkPos 7 5] 1 [] 0.

(** The record [puzzle] builds from [main_args]. *)
Definition main_puzzle : Puzzle :=
  mkPuzzle [1; 4; 3; 2; 4; 5; 3; 3] [1; 3; 6; 2; 4; 2; 3; 4] 4 0.

(** The puzzle with all targets 0 and neither monsters nor treasures. *)
Definition empty_puzzle : Puzzle := mkPuzzle zero_counts zero_counts 0 0.

(** The tile tags and the three grids tell the same story. *)
Definition boards_agree (st : GenState) : Prop :=
  forall i, 0 <= i < 64 ->
    truthy (slot_is_set (g_solution st) i) = Tile_eqb (tile_at (g_tiles st) i) WALL
    /\ truthy (slot_is_set (g_monsters st) i) = Tile_eqb (tile_at (g_tiles st) i) MONSTER
    /\ truthy (slot_is_set (g_treasures st) i)
       = Tile_eqb (tile_at (g_tiles st) i) TREASURE.

Definition boards_disjoint (st : GenState) : Prop :=
  Z.land (g_solution st) (g_monsters st) = 0
  /\ Z.land (g_solution st) (g_treasures st) = 0
  /\ Z.land (g_monsters st) (g_treasures st) = 0.

(** The three grids are 64-bit values that agree with the 64 tiles. *)
Definition boards_ok (st : GenState) : Prop :=
  length (g_tiles st) = 64%nat
  /\ in_u64 (g_solution st) /\ in_u64 (g_monsters st) /\ in_u64 (g_treasures st)
  /\ boards_agree st.

(** The rank of a tile in the order the [switch] visits them. *)
Definition digit (t : Tile) : Z :=
  match t with TREASURE => 1 | MONSTER => 2 | WALL => 3 | EMPTY => 4 end.

(** The rank of the tile the [switch] turns [t] into. *)
Definition next_digit (t : Tile) : Z :=
  match t with EMPTY => 1 | TREASURE => 2 | MONSTER => 3 | WALL => 4 end.

(** The first [n] tiles read as a number in base 5. *)
Fixpoint tiles_key (tiles : list Tile) (n : nat) : Z :=
  match n with
  | O => 0
  | S m => tiles_key tiles m + digit (nth m tiles EMPTY) * 5 ^ (63 - Z.of_nat m)
  end.

(** The position, in the traversal, of the node the next turn visits. *)
Definition gen_key (st : GenState) : Z :=
  tiles_key (g_tiles st) (Z.to_nat (g_slot st))
  + next_digit (tile_at (g_tiles st) (g_slot st)) * 5 ^ (63 - g_slot st).

(** The number of turns the loop can still take is bounded by this. *)
Definition gen_measure (st : GenState) : Z :=
  if gen_cond st then 5 ^ 64 - gen_key st else 0.

(** One past the last node below the node held in slots [0 .. s]. *)
Definition subtree_end (tiles : list Tile) (s : Z) : Z :=
  tiles_key tiles (Z.to_nat (s + 1)) + 5 ^ (63 - s).

(** A complete grid the generator accepts: the outer ring open, the inner
    6x6 block walls.  [ring_state] is the state in which the last slot is
    about to be turned from wall to empty. *)
Definition ring_grid : Z := 0x007e7e7e7e7e7e00.

Definition ring_tiles : list Tile :=
  let open_row := repeat EMPTY 8 in
  let wall_row := EMPTY :: repeat WALL 6 ++ [EMPTY] in
  open_row ++ wall_row ++ wall_row ++ wall_row ++ wall_row ++ wall_row ++ wall_row
  ++ repeat EMPTY 7 ++ [WALL].

Definition ring_state (puzzles : list GeneratedPuzzle) (puzzle_i : Z) : GenState :=
  mkGenState ring_tiles 0 0 (ring_grid + 1) 63 puzzle_i puzzles false.

Definition cell_in_range (q : Pos) : bool := negb (pos_out_of_range q).

(** The bits of the cells of a list that lie on the grid. *)
Definition in_range_bits (cells : list Pos) : list Z :=
  map pos_bit (filter cell_in_range cells).

(** A border cell that is on the grid and not a wall. *)
Definition cell_open (solution : Z) (q : Pos) : bool :=
  cell_in_range q && negb (truthy (pos_is_set solution q)).

Definition cell_wall (solution : Z) (q : Pos) : bool :=
  cell_in_range q && truthy (pos_is_set solution q).

(** The number of openings in the border of the room centred at [center]. *)
Definition border_openings (center : Pos) (solution : Z) : Z :=
  Z.of_nat (length (filter (cell_open solution) (walls_cells center))).

Fixpoint nodupb (l : list Z) : bool :=
  match l with
  | [] => true
  | x :: l' => negb (existsb (Z.eqb x) l') && nodupb l'
  end.

(** The 36 centres whose room lies on the grid. *)
Definition inner_centers : list Pos :=
  flat_map (fun r => map (fun c => mkPos r c) [1; 2; 3; 4; 5; 6]) [1; 2; 3; 4; 5; 6].

Definition room_cells (center : Pos) : list Pos :=
  [ mkPos (row center - 1) (col center - 1); mkPos (row center - 1) (col center);
    mkPos (row center - 1) (col center + 1); mkPos (row center) (col center - 1);
    mkPos (row center) (col center); mkPos (row center) (col center + 1);
    mkPos (row center + 1) (col center - 1); mkPos (row center + 1) (col center);
    mkPos (row center + 1) (col center + 1) ].

(** A record with one treasure, on the cell of row 1 and column 1. *)
Definition treasure_at_1_1 : Puzzle :=
  mkPuzzle zero_counts zero_counts 0 (pos_set 0 (mkPos 1 1)).

(** The local record of [generate] while it works on slot [s]: the
    monsters and treasures placed on slots [0 .. s], all counts zero. *)
Definition gen_puzzle_at (M T s : Z) : Puzzle :=
  mkPuzzle zero_counts zero_counts (prefix M s) (prefix T s).

(** A complete assignment every prefix of which passed the generator's six
    checks at its last slot. *)
Definition gen_prefix_valid (M T g : Z) : Prop :=
  forall s, 0 <= s < 64 -> gen_checks (gen_puzzle_at M T s) (prefix g s) s = true.

(** Facts of the slot order used by the generator's checks, as decidable
    statements about one slot. *)
Definition geom_counts (s : Z) : bool :=
  let p := pos_from_slot s in
  (0 <=? row p) && (row p <? 8) && (0 <=? col p) && (col p <? 8)
  && (popcount (Z.shiftr 0xff00000000000000 (row p * 8)) <=? 8)
  && (popcount (Z.shiftr 0x8080808080808080 (col p)) <=? 8)
  && implb (col p =? 7) (row_end s =? s)
  && implb (row p =? 7) (col_end s =? s).

Definition geom_cells (s : Z) : bool :=
  let p := pos_from_slot s in
  let above := mkPos (row p - 1) (col p) in
  let left := mkPos (row p) (col p - 1) in
  covers (pos_set 0 above) s && covers (pos_set 0 left) s && covers (pos_set 0 p) s
  && covers (neighbours_mask above) s
  && implb (row p =? 7) (covers (neighbours_mask left) s)
  && implb ((row p =? 7) && (col p =? 7)) (covers (neighbours_mask p) s).

Definition geom_rooms : bool :=
  forallb (fun c =>
             forallb (fun s => implb (strict_room_check c s) (covers (walls_mask c) s))
                     all_slots)
          inner_centers.

(** What [generate] records is derived from a grid it accepted slot after
    slot, with the count of the solver's enumeration. *)
Definition generated_ok (gp : GeneratedPuzzle) : Prop :=
  exists M T g,
    in_u64 M /\ in_u64 T /\ in_u64 g
    /\ gp_puzzle gp = valid_puzzle M T g
    /\ gen_prefix_valid M T g
    /\ num_solutions gp = Z.of_nat (length (all_solutions (gp_puzzle gp))).

(** The boards of [st] are consistent, open from [slot + 1] on, and have
    passed the six checks on every slot before [slot]. *)
Definition search_ok (st : GenState) (slot : Z) : Prop :=
  boards_ok st
  /\ -1 <= slot <= 63
  /\ clear_from (g_solution st) (slot + 1)
  /\ clear_from (g_monsters st) (slot + 1)
  /\ clear_from (g_treasures st) (slot + 1)
  /\ forall s, 0 <= s < slot ->
       gen_checks (gen_puzzle_at (g_monsters st) (g_treasures st) s)
                  (prefix (g_solution st) s) s = true.

(** A record to fill arrays with. *)
Definition no_puzzle : GeneratedPuzzle := mkGeneratedPuzzle empty_puzzle 0.

(** The records written so far are within the array and come from accepted
    grids. *)
Definition output_ok (max_puzzles : Z) (st : GenState) : Prop :=
  0 <= g_puzzle_i st <= max_puzzles
  /\ length (g_puzzles st) = Z.to_nat max_puzzles
  /\ forall j, 0 <= j < g_puzzle_i st ->
       generated_ok (nth (Z.to_nat j) (g_puzzles st) no_puzzle).

(** The invariant of the loop of [generate]. *)
Definition gen_inv (max_puzzles : Z) (st : GenState) : Prop :=
  search_ok st (g_slot st) /\ output_ok max_puzzles st.

(** One of the three grids before and after the [switch] at slot [s]. *)
Definition touched (s X X1 : Z) : Prop :=
  X1 = X \/ X1 = slot_set X s \/ X1 = slot_unset X s.

(** The record [gp] comes from a grid [g] that the generator accepted on
    each of its 64 slots: its counts are those of [g], its solution count
    is the one [solve] returns for it with any array, that count is at
    least 1, and [g] is one of the solutions [solve] finds, the [k]-th,
    which it stores whenever the array has room for it. *)
Definition solvable_record (gp : GeneratedPuzzle) : Prop :=
  1 <= num_solutions gp
  /\ exists M T g k,
       in_u64 g
       /\ gp_puzzle gp = valid_puzzle M T g
       /\ gen_prefix_valid M T g
       /\ check_constraints (gp_puzzle gp) g 63 = true
       /\ 0 <= k < num_solutions gp
       /\ forall solutions max_solutions,
            Z.of_nat (length solutions) = max_solutions ->
            fst (solve (gp_puzzle gp) solutions max_solutions) = num_solutions gp
            /\ (k < max_solutions ->
                nth (Z.to_nat k)
                    (snd (solve (gp_puzzle gp) solutions max_solutions)) 0 = g).

(** [search_ok st (g_slot st)], decided slot by slot. *)
Definition search_okb (st : GenState) : bool :=
  let clearb X :=
    forallb (fun j => implb (g_slot st + 1 <=? j) (negb (Z.testbit X (slot_bit j))))
            all_slots in
  let u64b X := (0 <=? X) && (X <? 2 ^ 64) in
  (length (g_tiles st) =? 64)%nat
  && u64b (g_solution st) && u64b (g_monsters st) && u64b (g_treasures st)
  && forallb (fun i =>
       Bool.eqb (truthy (slot_is_set (g_solution st) i))
                (Tile_eqb (tile_at (g_tiles st) i) WALL)
       && Bool.eqb (truthy (slot_is_set (g_monsters st) i))
                   (Tile_eqb (tile_at (g_tiles st) i) MONSTER)
       && Bool.eqb (truthy (slot_is_set (g_treasures st) i))
                   (Tile_eqb (tile_at (g_tiles st) i) TREASURE)) all_slots
  && (-1 <=? g_slot st) && (g_slot st <=? 63)
  && clearb (g_solution st) && clearb (g_monsters st) && clearb (g_treasures st)
  && forallb (fun s =>
       implb (s <? g_slot st)
             (gen_checks (gen_puzzle_at (g_monsters st) (g_treasures st) s)
                         (prefix (g_solution st) s) s)) all_slots.

(** ** Further vocabulary *)

(** The bit indices of a [u64]. *)
Definition u64_bits : list Z := map Z.of_nat (seq 0 64).

(** The cells of a row and of a column. *)
Definition row_cells (r : Z) : list Pos := map (fun c => mkPos r c) range8.
Definition col_cells (c : Z) : list Pos := map (fun r => mkPos r c) range8.

Definition sum_list (l : list Z) : Z := fold_right Z.add 0 l.

(** The four orthogonal neighbours of a cell, in the order of the source. *)
Definition neighbour_cells (p : Pos) : list Pos :=
  [ mkPos (row p - 1) (col p); mkPos (row p + 1) (col p);
    mkPos (row p) (col p - 1); mkPos (row p) (col p + 1) ].

(** The 2x2 block whose bottom-right corner is [p], and the twelve cells
    around it, in the order of the source. *)
Definition block_cells (p : Pos) : list Pos :=
  [ p; mkPos (row p) (col p - 1); mkPos (row p - 1) (col p);
    mkPos (row p - 1) (col p - 1) ].

Definition around_block_cells (p : Pos) : list Pos :=
  [ mkPos (row p - 2) (col p - 2); mkPos (row p - 2) (col p - 1);
    mkPos (row p - 2) (col p); mkPos (row p - 2) (col p + 1);
    mkPos (row p - 1) (col p - 2); mkPos (row p - 1) (col p + 1);
    mkPos (row p) (col p - 2); mkPos (row p) (col p + 1);
    mkPos (row p + 1) (col p - 2); mkPos (row p + 1) (col p - 1);
    mkPos (row p + 1) (col p); mkPos (row p + 1) (col p + 1) ].

(** A grid that passes the seven checks at every slot. *)
Definition valid_solution (pz : Puzzle) (g : Z) : Prop :=
  forall s, 0 <= s < 64 -> check_constraints pz g s = true.

(** The entries from the current count on are those of the array passed
    in. *)
Definition rest_untouched (puzzles : list GeneratedPuzzle) (max_puzzles : Z)
    (st : GenState) : Prop :=
  0 <= g_puzzle_i st <= max_puzzles
  /\ length (g_puzzles st) = length puzzles
  /\ forall j d, (Z.to_nat (g_puzzle_i st) <= j)%nat ->
       nth j (g_puzzles st) d = nth j puzzles d.

(** Two states of the generator that differ at most in the entries of the
    output array from the current count on. *)
Definition same_search (max_puzzles : Z) (a b : GenState) : Prop :=
  g_tiles a = g_tiles b /\ g_monsters a = g_monsters b
  /\ g_treasures a = g_treasures b /\ g_solution a = g_solution b
  /\ g_slot a = g_slot b /\ g_puzzle_i a = g_puzzle_i b
  /\ g_returned a = g_returned b
  /\ 0 <= g_puzzle_i a <= max_puzzles
  /\ max_puzzles <= Z.of_nat (length (g_puzzles a))
  /\ length (g_puzzles a) = length (g_puzzles b)
  /\ forall j d, (j < Z.to_nat (g_puzzle_i a))%nat ->
       nth j (g_puzzles a) d = nth j (g_puzzles b) d.

(** Eight lines of eight symbols, one per cell, row after row. *)
Definition grid_picture (symbol : Pos -> ascii) : list ascii :=
  flat_map (fun r => map (fun c => symbol (mkPos r c)) range8 ++ [newline]) range8.

(** The symbol of a cell that holds a monster, a treasure, a wall. *)
Definition cell_symbol (monster treasure wall : bool) : ascii :=
  if (monster && treasure) || (monster && wall) || (treasure && wall) then "?"%char
  else if monster then "M"%char
  else if treasure then "T"%char
  else if wall then "X"%char
  else "."%char.

(** Reading an unsigned decimal numeral. *)
Definition read_decimal (cs : list ascii) : option Z :=
  option_map (fun d => Z.of_N (N.of_uint d))
             (NilZero.uint_of_string (string_of_list_ascii cs)).

(** The tiles and the three grids of the generator. *)
Record Board : Type := mkBoard {
  b_tiles : list Tile;
  b_monsters : Z;
  b_treasures : Z;
  b_solution : Z
}.

Definition board_state (b : Board) (slot puzzle_i : Z)
    (puzzles : list GeneratedPuzzle) (returned : bool) : GenState :=
  mkGenState (b_tiles b) (b_monsters b) (b_treasures b) (b_solution b)
             slot puzzle_i puzzles returned.

(** The board with tile [t] on the open slot [s]. *)
Definition candidate (b : Board) (s : Z) (t : Tile) : Board :=
  match t with
  | TREASURE => mkBoard (store (b_tiles b) (Z.to_nat s) TREASURE) (b_monsters b)
                        (slot_set (b_treasures b) s) (b_solution b)
  | MONSTER => mkBoard (store (b_tiles b) (Z.to_nat s) MONSTER)
                       (slot_set (b_monsters b) s) (b_treasures b) (b_solution b)
  | WALL => mkBoard (store (b_tiles b) (Z.to_nat s) WALL) (b_monsters b)
                    (b_treasures b) (slot_set (b_solution b) s)
  | EMPTY => b
  end.

(** The record [generate] writes for a complete board. *)
Definition board_record (b : Board) : GeneratedPuzzle :=
  let valid := valid_puzzle (b_monsters b) (b_treasures b) (b_solution b) in
  mkGeneratedPuzzle valid (fst (solve valid valid_puzzle_solutions 128)).

Definition board_checks (b : Board) (s : Z) : bool :=
  gen_checks (mkPuzzle zero_counts zero_counts (b_monsters b) (b_treasures b))
             (b_solution b) s.

(** What one candidate contributes: nothing when a check fails, its record
    at the last slot, the enumeration below it otherwise. *)
Definition gen_visit (below : Board -> Z -> list GeneratedPuzzle) (b : Board) (s : Z)
  : list GeneratedPuzzle :=
  if board_checks b s then
    if s <? 63 then below b (s + 1) else [board_record b]
  else [].

(** The records found below a board whose slots [s ..] are open, with [n]
    slots left: treasure, monster, wall, empty, in this order. *)
Fixpoint gen_dfs (n : nat) (b : Board) (s : Z) : list GeneratedPuzzle :=
  match n with
  | O => []
  | S n' =>
      gen_visit (gen_dfs n') (candidate b s TREASURE) s
      ++ gen_visit (gen_dfs n') (candidate b s MONSTER) s
      ++ gen_visit (gen_dfs n') (candidate b s WALL) s
      ++ gen_visit (gen_dfs n') (candidate b s EMPTY) s
  end.

Definition empty_board : Board := mkBoard (repeat EMPTY 64) 0 0 0.

(** All the records [generate] can find, in the order it finds them. *)
Definition all_generated : list GeneratedPuzzle := gen_dfs 64 empty_board 0.

(** Writing a sequence of records from index [i] on. *)
Fixpoint store_from {A : Type} (buf : list A) (i : nat) (rs : list A) : list A :=
  match rs with
  | [] => buf
  | r :: rs' => store_from (store buf i r) (S i) rs'
  end.

(** Slots [s ..] of the board are open. *)
Definition board_ok (b : Board) (s : Z) : Prop :=
  length (b_tiles b) = 64%nat
  /\ in_u64 (b_monsters b) /\ in_u64 (b_treasures b) /\ in_u64 (b_solution b)
  /\ forall j, s <= j < 64 ->
       tile_at (b_tiles b) j = EMPTY
       /\ Z.testbit (b_monsters b) (slot_bit j) = false
       /\ Z.testbit (b_treasures b) (slot_bit j) = false
       /\ Z.testbit (b_solution b) (slot_bit j) = false.

(** The record of a complete assignment of monsters, treasures and walls. *)
Definition record_of (M T g : Z) : GeneratedPuzzle :=
  mkGeneratedPuzzle (valid_puzzle M T g)
                    (fst (solve (valid_puzzle M T g) valid_puzzle_solutions 128)).

(** No cell holds two things. *)
Definition disjoint3 (M T g : Z) : Prop :=
  Z.land M T = 0 /\ Z.land M g = 0 /\ Z.land T g = 0.

(** The tile of a slot, read off the three grids. *)
Definition tile_of (M T g j : Z) : Tile :=
  if Z.testbit T (slot_bit j) then TREASURE
  else if Z.testbit M (slot_bit j) then MONSTER
  else if Z.testbit g (slot_bit j) then WALL
  else EMPTY.

(** The board that holds slots [0 .. s] of an assignment. *)
Definition board_at (M T g s : Z) : Board :=
  mkBoard (map (fun j => if j <=? s then tile_of M T g j else EMPTY) all_slots)
          (prefix M s) (prefix T s) (prefix g s).

(** ** Bit-level facts *)

Lemma u64_shl_1 n : 0 <= n < 64 -> u64_shl 1 n = 2 ^ n.
Proof.
  intros Hn. unfold u64_shl, u64_mask.
  rewrite Z.shiftl_1_l, Z.land_ones by lia.
  apply Z.mod_small. split; [apply Z.pow_nonneg; lia|].
  apply Z.pow_lt_mono_r; lia.
Qed.

Lemma testbit_u64_not x i :
  Z.testbit (u64_not x) i = (0 <=? i) && (i <? 64) && negb (Z.testbit x i).
Proof.
  unfold u64_not, u64_mask. rewrite Z.land_spec.
  destruct (Z.leb_spec 0 i) as [Hi|Hi]; simpl.
  - rewrite Z.lnot_spec by lia. rewrite Z.testbit_ones_nonneg by lia.
    destruct (i <? 64), (Z.testbit x i); reflexivity.
  - rewrite !(Z.testbit_neg_r _ i) by lia. reflexivity.
Qed.

Lemma testbit_in_u64_high m i : in_u64 m -> 64 <= i -> Z.testbit m i = false.
Proof.
  intros [H0 H1] Hi.
  destruct (Z.eq_dec m 0) as [->|Hm]; [apply Z.testbit_0_l|].
  apply Z.bits_above_log2; [lia|].
  assert (Z.log2 m < 64) by (apply Z.log2_lt_pow2; lia). lia.
Qed.

Lemma in_u64_of_bits m :
  0 <= m -> (forall i, 64 <= i -> Z.testbit m i = false) -> in_u64 m.
Proof.
  intros H0 Hb. split; [assumption|].
  destruct (Z.eq_dec m 0) as [->|Hm]; [reflexivity|].
  apply Z.log2_lt_pow2; [lia|].
  destruct (Z.lt_ge_cases (Z.log2 m) 64) as [|Hge]; [assumption|].
  specialize (Hb _ Hge). rewrite Z.bit_log2 in Hb by lia. discriminate.
Qed.

Lemma slot_range_false slot : 0 <= slot < 64 -> slot_out_of_range slot = false.
Proof.
  intros H. unfold slot_out_of_range.
  destruct (Z.ltb_spec slot 0); [lia|]. destruct (Z.geb_spec slot 64); [lia|].
  reflexivity.
Qed.

Lemma slot_range_true slot : slot < 0 \/ 64 <= slot -> slot_out_of_range slot = true.
Proof.
  intros H. unfold slot_out_of_range.
  destruct (Z.ltb_spec slot 0); [reflexivity|].
  destruct (Z.geb_spec slot 64); [reflexivity|lia].
Qed.

Lemma pos_range_false pos : pos_in_range pos -> pos_out_of_range pos = false.
Proof.
  intros [Hr Hc]. unfold pos_out_of_range.
  destruct (Z.ltb_spec (row pos) 0); [lia|]. destruct (Z.geb_spec (row pos) 8); [lia|].
  destruct (Z.ltb_spec (col pos) 0); [lia|]. destruct (Z.geb_spec (col pos) 8); [lia|].
  reflexivity.
Qed.

Lemma pos_range_true pos : ~ pos_in_range pos -> pos_out_of_range pos = true.
Proof.
  intros H. unfold pos_out_of_range, pos_in_range in *.
  destruct (Z.ltb_spec (row pos) 0); [reflexivity|].
  destruct (Z.geb_spec (row pos) 8); [reflexivity|].
  destruct (Z.ltb_spec (col pos) 0); [reflexivity|].
  destruct (Z.geb_spec (col pos) 8); [reflexivity|lia].
Qed.

Lemma pos_range_dec pos : {pos_in_range pos} + {~ pos_in_range pos}.
Proof.
  unfold pos_in_range.
  destruct (Z_le_dec 0 (row pos)), (Z_lt_dec (row pos) 8),
           (Z_le_dec 0 (col pos)), (Z_lt_dec (col pos) 8);
    solve [left; lia | right; lia].
Qed.

Lemma pos_bit_range pos : pos_in_range pos -> 0 <= pos_bit pos < 64.
Proof. unfold pos_in_range, pos_bit. lia. Qed.

(** In range, the six operations are the three operations on one bit. *)
Lemma slot_set_eq m slot : 0 <= slot < 64 -> slot_set m slot = Z.lor m (2 ^ slot_bit slot).
Proof.
  intros H. unfold slot_set, slot_bit.
  rewrite slot_range_false, u64_shl_1 by lia. reflexivity.
Qed.

Lemma slot_unset_eq m slot :
  0 <= slot < 64 -> slot_unset m slot = Z.land m (u64_not (2 ^ slot_bit slot)).
Proof.
  intros H. unfold slot_unset, slot_bit.
  rewrite slot_range_false, u64_shl_1 by lia. reflexivity.
Qed.

Lemma slot_is_set_eq m slot :
  0 <= slot < 64 -> slot_is_set m slot = Z.land m (2 ^ slot_bit slot).
Proof.
  intros H. unfold slot_is_set, slot_bit.
  rewrite slot_range_false, u64_shl_1 by lia. reflexivity.
Qed.

Lemma pos_set_eq m pos : pos_in_range pos -> pos_set m pos = Z.lor m (2 ^ pos_bit pos).
Proof.
  intros H. pose proof (pos_bit_range _ H). unfold pos_set.
  rewrite pos_range_false by assumption. fold (pos_bit pos).
  rewrite u64_shl_1 by lia. reflexivity.
Qed.

Lemma pos_unset_eq m pos :
  pos_in_range pos -> pos_unset m pos = Z.land m (u64_not (2 ^ pos_bit pos)).
Proof.
  intros H. pose proof (pos_bit_range _ H). unfold pos_unset.
  rewrite pos_range_false by assumption. fold (pos_bit pos).
  rewrite u64_shl_1 by lia. reflexivity.
Qed.

Lemma pos_is_set_eq m pos :
  pos_in_range pos -> pos_is_set m pos = Z.land m (2 ^ pos_bit pos).
Proof.
  intros H. pose proof (pos_bit_range _ H). unfold pos_is_set.
  rewrite pos_range_false by assumption. fold (pos_bit pos).
  rewrite u64_shl_1 by lia. reflexivity.
Qed.

Lemma testbit_set_bit m k i :
  0 <= k -> Z.testbit (Z.lor m (2 ^ k)) i = (i =? k) || Z.testbit m i.
Proof.
  intros Hk. rewrite Z.lor_spec, Z.pow2_bits_eqb by lia.
  rewrite (Z.eqb_sym k i). apply orb_comm.
Qed.

Lemma testbit_clear_bit m k i :
  in_u64 m -> 0 <= k < 64 ->
  Z.testbit (Z.land m (u64_not (2 ^ k))) i = negb (i =? k) && Z.testbit m i.
Proof.
  intros Hm Hk. rewrite Z.land_spec, testbit_u64_not, Z.pow2_bits_eqb by lia.
  rewrite (Z.eqb_sym k i).
  destruct (Z.leb_spec 0 i) as [Hi|Hi]; simpl.
  - destruct (Z.ltb_spec i 64) as [Hi'|Hi']; simpl.
    + apply andb_comm.
    + rewrite (testbit_in_u64_high m i) by assumption.
      destruct (i =? k); reflexivity.
  - rewrite Z.testbit_neg_r by lia. destruct (i =? k); reflexivity.
Qed.

Lemma land_bit m k :
  0 <= k -> Z.land m (2 ^ k) = if Z.testbit m k then 2 ^ k else 0.
Proof.
  intros Hk. apply Z.bits_inj'. intros i Hi.
  rewrite Z.land_spec, Z.pow2_bits_eqb by lia.
  destruct (Z.eqb_spec k i) as [->|Hne].
  - destruct (Z.testbit m i); [rewrite Z.pow2_bits_true by lia|rewrite Z.testbit_0_l];
      reflexivity.
  - rewrite andb_false_r.
    destruct (Z.testbit m k); [rewrite Z.pow2_bits_false by lia|rewrite Z.testbit_0_l];
      reflexivity.
Qed.

Lemma truthy_land_bit m k : 0 <= k -> truthy (Z.land m (2 ^ k)) = Z.testbit m k.
Proof.
  intros Hk. rewrite land_bit by assumption. unfold truthy.
  destruct (Z.testbit m k); [|reflexivity].
  assert (0 < 2 ^ k) by (apply Z.pow_pos_nonneg; lia).
  destruct (Z.eqb_spec (2 ^ k) 0); [lia|reflexivity].
Qed.

Lemma in_u64_set_bit m k : in_u64 m -> 0 <= k < 64 -> in_u64 (Z.lor m (2 ^ k)).
Proof.
  intros Hm Hk. apply in_u64_of_bits.
  - apply Z.lor_nonneg. split; [apply Hm|apply Z.pow_nonneg; lia].
  - intros i Hi. rewrite testbit_set_bit by lia.
    rewrite (testbit_in_u64_high m i) by assumption.
    destruct (Z.eqb_spec i k); [lia|reflexivity].
Qed.

Lemma in_u64_clear_bit m k :
  in_u64 m -> 0 <= k < 64 -> in_u64 (Z.land m (u64_not (2 ^ k))).
Proof.
  intros Hm Hk. apply in_u64_of_bits.
  - apply Z.land_nonneg. left. apply Hm.
  - intros i Hi. rewrite testbit_clear_bit by (assumption || lia).
    rewrite (testbit_in_u64_high m i) by assumption. apply andb_false_r.
Qed.

Lemma in_u64_slot_set m slot : in_u64 m -> in_u64 (slot_set m slot).
Proof.
  intros Hm. unfold slot_set. destruct (slot_out_of_range slot) eqn:E; [assumption|].
  unfold slot_out_of_range in E. apply orb_false_iff in E as [E1 E2].
  apply Z.ltb_ge in E1. rewrite Z.geb_leb in E2. apply Z.leb_gt in E2.
  rewrite u64_shl_1 by lia. apply in_u64_set_bit; [assumption|lia].
Qed.

Lemma in_u64_slot_unset m slot : in_u64 m -> in_u64 (slot_unset m slot).
Proof.
  intros Hm. unfold slot_unset. destruct (slot_out_of_range slot) eqn:E; [assumption|].
  unfold slot_out_of_range in E. apply orb_false_iff in E as [E1 E2].
  apply Z.ltb_ge in E1. rewrite Z.geb_leb in E2. apply Z.leb_gt in E2.
  rewrite u64_shl_1 by lia. apply in_u64_clear_bit; [assumption|lia].
Qed.

Lemma in_u64_pos_set m pos : in_u64 m -> in_u64 (pos_set m pos).
Proof.
  intros Hm. destruct (pos_range_dec pos) as [Hr|Hr].
  - rewrite pos_set_eq by assumption.
    apply in_u64_set_bit; [assumption|apply pos_bit_range; assumption].
  - unfold pos_set. rewrite pos_range_true by assumption. assumption.
Qed.

Lemma in_u64_0 : in_u64 0.
Proof. split; [lia|reflexivity]. Qed.

(** ** The grid coordinate model *)

(** C9.  On a 64-bit grid, [slot_set], [slot_unset], [pos_set] and
    [pos_unset] return the grid unchanged, and [slot_is_set], [pos_is_set]
    are false, when the slot is outside 0..63 or the position outside rows
    0..7 x columns 0..7; in range they set, clear and test exactly bit
    [63 - slot], respectively [63 - (row * 8 + col)]. *)
Theorem set_clear_test_one_bit (m : Z) (Hm : in_u64 m) :
  (forall slot, slot < 0 \/ 64 <= slot ->
     slot_set m slot = m /\ slot_unset m slot = m /\ slot_is_set m slot = 0) /\
  (forall pos, row pos < 0 \/ 8 <= row pos \/ col pos < 0 \/ 8 <= col pos ->
     pos_set m pos = m /\ pos_unset m pos = m /\ pos_is_set m pos = 0) /\
  (forall slot, 0 <= slot < 64 ->
     (forall i, Z.testbit (slot_set m slot) i = (i =? 63 - slot) || Z.testbit m i) /\
     (forall i, Z.testbit (slot_unset m slot) i
                = negb (i =? 63 - slot) && Z.testbit m i) /\
     truthy (slot_is_set m slot) = Z.testbit m (63 - slot)) /\
  (forall pos, 0 <= row pos < 8 /\ 0 <= col pos < 8 ->
     let b := 63 - (row pos * 8 + col pos) in
     (forall i, Z.testbit (pos_set m pos) i = (i =? b) || Z.testbit m i) /\
     (forall i, Z.testbit (pos_unset m pos) i = negb (i =? b) && Z.testbit m i) /\
     truthy (pos_is_set m pos) = Z.testbit m b).
Proof.
  repeat split.
  - unfold slot_set. rewrite slot_range_true by assumption. reflexivity.
  - unfold slot_unset. rewrite slot_range_true by assumption. reflexivity.
  - unfold slot_is_set. rewrite slot_range_true by assumption. reflexivity.
  - unfold pos_set. rewrite pos_range_true; [reflexivity|].
    unfold pos_in_range. lia.
  - unfold pos_unset. rewrite pos_range_true; [reflexivity|].
    unfold pos_in_range. lia.
  - unfold pos_is_set. rewrite pos_range_true; [reflexivity|].
    unfold pos_in_range. lia.
  - intros i. rewrite slot_set_eq by assumption.
    apply testbit_set_bit. unfold slot_bit. lia.
  - intros i. rewrite slot_unset_eq by assumption.
    apply testbit_clear_bit; [assumption|unfold slot_bit; lia].
  - rewrite slot_is_set_eq by assumption.
    apply truthy_land_bit. unfold slot_bit. lia.
  - intros i. rewrite pos_set_eq by assumption.
    apply testbit_set_bit. unfold pos_bit. lia.
  - intros i. rewrite pos_unset_eq by assumption.
    apply testbit_clear_bit; [assumption|unfold pos_bit; lia].
  - rewrite pos_is_set_eq by assumption.
    apply truthy_land_bit. unfold pos_bit. lia.
Qed.

Lemma set_clear_test_one_bit_witness :
  in_u64 5 /\ slot_set 5 64 = 5 /\ Z.testbit (slot_unset 5 63) 0 = false.
Proof.
  assert (H5 : in_u64 5) by (unfold in_u64; split; [lia|reflexivity]).
  split; [exact H5|].
  destruct (set_clear_test_one_bit 5 H5) as (Hout & _ & Hin & _).
  split.
  - apply (Hout 64). right. lia.
  - destruct (Hin 63 ltac:(lia)) as (_ & Hclear & _).
    rewrite Hclear. reflexivity.
Defined.

(** ** Puzzle construction *)

Lemma testbit_fold_pos_set (positions : list Pos) (m i : Z) :
  Z.testbit (fold_left pos_set positions m) i
  = Z.testbit m i
    || existsb (fun p => negb (pos_out_of_range p) && (i =? pos_bit p)) positions.
Proof.
  revert m. induction positions as [|p ps IH]; intros m; simpl.
  - rewrite orb_false_r. reflexivity.
  - rewrite IH. destruct (pos_range_dec p) as [Hp|Hp].
    + rewrite pos_set_eq, pos_range_false by assumption.
      rewrite testbit_set_bit by (apply pos_bit_range; assumption).
      simpl. destruct (i =? pos_bit p), (Z.testbit m i); reflexivity.
    + unfold pos_set. rewrite pos_range_true by assumption. reflexivity.
Qed.

Lemma pos_bit_inj p q :
  pos_in_range p -> pos_in_range q -> pos_bit p = pos_bit q -> p = q.
Proof.
  destruct p as [pr pc], q as [qr qc]. unfold pos_in_range, pos_bit.
  cbn [row col]. intros Hp Hq E. assert (pr = qr) by lia. assert (pc = qc) by lia.
  subst. reflexivity.
Qed.

Lemma pos_out_of_range_false_inv p : pos_out_of_range p = false -> pos_in_range p.
Proof.
  intros E. destruct (pos_range_dec p) as [H|H]; [assumption|].
  rewrite pos_range_true in E by assumption. discriminate.
Qed.

(** C6, as stated, fails: the two lists are accumulated independently and
    nothing compares them, so a position given in both lists is set in both
    grids. *)
Lemma puzzle_overlap_counterexample :
  exists p, puzzle overlapping_args = Some p
            /\ Z.land (monsters p) (treasures p) = 2 ^ 63.
Proof. eexists. split; reflexivity. Qed.

(** C6, amended.  When [puzzle] returns a record and no in-range position
    is listed both among the monsters and among the treasures, the monster
    grid and the treasure grid share no set bit. *)
Theorem puzzle_disjoint_positions (args : PuzzleArgs) (p : Puzzle)
    (Hp : puzzle args = Some p)
    (Hdisj : forall pos,
        In pos (firstn (Z.to_nat (args_monsters_count args)) (args_monsters args)) ->
        In pos (firstn (Z.to_nat (args_treasures_count args)) (args_treasures args)) ->
        ~ pos_in_range pos) :
  Z.land (monsters p) (treasures p) = 0.
Proof.
  unfold puzzle in Hp.
  destruct (_ && _) in Hp; [|discriminate].
  injection Hp as <-. simpl. unfold set_positions.
  apply Z.bits_inj'. intros i Hi.
  rewrite Z.land_spec, !testbit_fold_pos_set, Z.testbit_0_l. simpl.
  destruct (existsb _ (firstn (Z.to_nat (args_monsters_count args)) _)) eqn:Em;
    [|reflexivity].
  destruct (existsb _ (firstn (Z.to_nat (args_treasures_count args)) _)) eqn:Et;
    [|reflexivity].
  exfalso.
  apply existsb_exists in Em as (pm & Hinm & Hm).
  apply existsb_exists in Et as (pt & Hint & Ht).
  apply andb_true_iff in Hm as [Hm1 Hm2]. apply andb_true_iff in Ht as [Ht1 Ht2].
  apply negb_true_iff, pos_out_of_range_false_inv in Hm1, Ht1.
  apply Z.eqb_eq in Hm2, Ht2.
  assert (pm = pt) by (apply pos_bit_inj; [assumption..|congruence]).
  subst pt. exact (Hdisj pm Hinm Hint Hm1).
Qed.

Lemma puzzle_disjoint_positions_witness :
  exists p, puzzle example_args = Some p /\ Z.land (monsters p) (treasures p) = 0.
Proof.
  eexists. split; [reflexivity|].
  apply (puzzle_disjoint_positions example_args); [reflexivity|].
  simpl. intros pos [<-|[]] [E|[]]. discriminate E.
Defined.

(** ** Counting bits *)

Lemma pos_popcount_pos p : 1 <= pos_popcount p.
Proof. induction p; cbn [pos_popcount]; lia. Qed.

Lemma popcount_nonneg n : 0 <= popcount n.
Proof. destruct n; simpl; try lia. pose proof (pos_popcount_pos p). lia. Qed.

Lemma popcount_Ndouble n : popcount (Z.of_N (Pos.Ndouble n)) = popcount (Z.of_N n).
Proof. destruct n; reflexivity. Qed.

Lemma popcount_Nsucc_double n :
  popcount (Z.of_N (Pos.Nsucc_double n)) = 1 + popcount (Z.of_N n).
Proof. destruct n; reflexivity. Qed.

Lemma pos_popcount_land_le p q : popcount (Z.of_N (Pos.land p q)) <= pos_popcount p.
Proof.
  revert q. induction p as [p IH|p IH|]; intros [q|q|];
    cbn [Pos.land pos_popcount];
    rewrite ?popcount_Ndouble, ?popcount_Nsucc_double;
    try (specialize (IH q)); try (pose proof (pos_popcount_pos p));
    cbn [Z.of_N popcount pos_popcount]; lia.
Qed.

Lemma popcount_land_le a b : 0 <= a -> 0 <= b -> popcount (Z.land a b) <= popcount a.
Proof.
  intros Ha Hb. destruct a as [|p|p]; [reflexivity| |lia].
  destruct b as [|q|q]; [simpl; pose proof (pos_popcount_pos p); lia| |lia].
  apply pos_popcount_land_le.
Qed.

Lemma pos_popcount_lor_land p q :
  pos_popcount (Pos.lor p q) + popcount (Z.of_N (Pos.land p q))
  = pos_popcount p + pos_popcount q.
Proof.
  revert q. induction p as [p IH|p IH|]; intros [q|q|];
    cbn [Pos.land Pos.lor pos_popcount];
    rewrite ?popcount_Ndouble, ?popcount_Nsucc_double;
    try (specialize (IH q)); cbn [Z.of_N popcount pos_popcount]; lia.
Qed.

Lemma popcount_lor_land a b :
  0 <= a -> 0 <= b ->
  popcount (Z.lor a b) + popcount (Z.land a b) = popcount a + popcount b.
Proof.
  intros Ha Hb. destruct a as [|p|p]; [simpl; lia| |lia].
  destruct b as [|q|q]; [simpl; lia| |lia].
  apply pos_popcount_lor_land.
Qed.

Lemma pos_popcount_bound p k : 0 <= k -> Zpos p < 2 ^ k -> pos_popcount p <= k.
Proof.
  revert k. induction p as [p IH|p IH|]; intros k Hk Hlt.
  - assert (k <> 0) by (intros ->; simpl in Hlt; lia).
    replace k with (Z.succ (k - 1)) in Hlt by lia.
    rewrite Z.pow_succ_r in Hlt by lia.
    specialize (IH (k - 1) ltac:(lia) ltac:(lia)). cbn [pos_popcount]. lia.
  - assert (k <> 0) by (intros ->; simpl in Hlt; lia).
    replace k with (Z.succ (k - 1)) in Hlt by lia.
    rewrite Z.pow_succ_r in Hlt by lia.
    specialize (IH (k - 1) ltac:(lia) ltac:(lia)). cbn [pos_popcount]. lia.
  - assert (k <> 0) by (intros ->; simpl in Hlt; lia). cbn [pos_popcount]. lia.
Qed.

Lemma popcount_u64_bound n : in_u64 n -> 0 <= popcount n <= 64.
Proof.
  intros [H0 H1]. split; [apply popcount_nonneg|].
  destruct n as [|p|p]; [simpl; lia| |lia].
  apply pos_popcount_bound; [lia|assumption].
Qed.

Lemma land_pred_even m : Z.land (2 * m) (2 * m - 1) = 2 * Z.land m (m - 1).
Proof.
  apply Z.bits_inj'. intros i Hi.
  rewrite Z.land_spec.
  destruct (Z.eq_dec i 0) as [->|Hne].
  - rewrite !Z.testbit_even_0. reflexivity.
  - replace i with (Z.succ (i - 1)) by lia.
    replace (2 * m - 1) with (2 * (m - 1) + 1) by lia.
    rewrite !Z.testbit_even_succ, Z.testbit_odd_succ, Z.land_spec by lia.
    reflexivity.
Qed.

Lemma land_pred_odd m : Z.land (2 * m + 1) (2 * m + 1 - 1) = 2 * m.
Proof.
  replace (2 * m + 1 - 1) with (2 * m) by lia.
  apply Z.bits_inj'. intros i Hi.
  rewrite Z.land_spec.
  destruct (Z.eq_dec i 0) as [->|Hne].
  - rewrite Z.testbit_even_0. apply andb_false_r.
  - replace i with (Z.succ (i - 1)) by lia.
    rewrite Z.testbit_odd_succ, Z.testbit_even_succ by lia.
    apply andb_diag.
Qed.

Lemma popcount_double m : popcount (2 * m) = popcount m.
Proof. destruct m; reflexivity. Qed.

Lemma popcount_clear_lowest p :
  popcount (Z.land (Zpos p) (Zpos p - 1)) = pos_popcount p - 1.
Proof.
  induction p as [p IH|p IH|].
  - rewrite Pos2Z.inj_xI, land_pred_odd, popcount_double.
    cbn [popcount pos_popcount]. lia.
  - rewrite Pos2Z.inj_xO, land_pred_even, popcount_double, IH. reflexivity.
  - reflexivity.
Qed.

(** The loop of [count_set_bits] counts the set bits, provided the fuel
    covers them. *)
Lemma count_set_bits_loop_popcount fuel n count :
  0 <= n -> popcount n <= Z.of_nat fuel ->
  count_set_bits_loop fuel n count = count + popcount n.
Proof.
  revert n count. induction fuel as [|fuel IH]; intros n count Hn Hfuel.
  - pose proof (popcount_nonneg n). simpl. lia.
  - simpl count_set_bits_loop. destruct n as [|p|p]; [simpl; lia| |lia].
    unfold truthy. simpl negb. cbv iota.
    rewrite IH.
    + rewrite popcount_clear_lowest. cbn [popcount]. lia.
    + apply Z.land_nonneg. left. lia.
    + rewrite popcount_clear_lowest. cbn [popcount] in Hfuel. lia.
Qed.

(** With 64 iterations the loop has reached [n = 0] for every [u64]. *)
Lemma count_set_bits_loop_exhausts n count :
  in_u64 n ->
  count_set_bits_loop 64 n count = count + popcount n
  /\ forall extra, count_set_bits_loop (64 + extra) n count
                   = count_set_bits_loop 64 n count.
Proof.
  intros Hn. pose proof (popcount_u64_bound n Hn) as Hb.
  split.
  - apply count_set_bits_loop_popcount; [apply Hn|].
    change (Z.of_nat 64) with 64. lia.
  - intros extra. rewrite !count_set_bits_loop_popcount; try apply Hn; try reflexivity.
    + change (Z.of_nat 64) with 64. lia.
    + rewrite Nat2Z.inj_add. change (Z.of_nat 64) with 64. lia.
Qed.

Lemma count_set_bits_popcount n : in_u64 n -> count_set_bits n = popcount n.
Proof.
  intros Hn. unfold count_set_bits.
  destruct (count_set_bits_loop_exhausts n 0 Hn) as [E _]. rewrite E. lia.
Qed.

(** ** Facts about [run] *)

Section WhileFacts.
Context {St : Type} (cond : St -> bool) (body : St -> St).

Lemma iter_finished st : cond st = false -> iter cond body st = st.
  Proof. intros E. unfold iter. rewrite E. reflexivity. Qed.

Lemma steps_finished k st :
    cond st = false -> Nat.iter k (iter cond body) st = st.
  Proof.
    intros E. induction k as [|k IH]; [reflexivity|].
    simpl. rewrite IH. apply iter_finished, E.
  Qed.

Lemma run_steps d st :
    run cond body d st = Nat.iter (2 ^ d) (iter cond body) st.
  Proof.
    revert st. induction d as [|d IH]; intros st; [reflexivity|].
    cbn [run]. rewrite !IH.
    replace (2 ^ S d)%nat with (2 ^ d + 2 ^ d)%nat by (cbn [Nat.pow]; lia).
    rewrite Nat.iter_add.
    destruct (cond (Nat.iter (2 ^ d) (iter cond body) st)) eqn:E; [reflexivity|].
    symmetry. apply steps_finished, E.
  Qed.

Lemma run_reaches d k st :
    cond (Nat.iter k (iter cond body) st) = false -> (k <= 2 ^ d)%nat ->
    run cond body d st = Nat.iter k (iter cond body) st.
  Proof.
    intros E Hk. rewrite run_steps.
    replace (2 ^ d)%nat with ((2 ^ d - k) + k)%nat by lia.
    rewrite Nat.iter_add. apply steps_finished, E.
  Qed.

Lemma steps_invariant (P : St -> Prop) :
    (forall st, P st -> cond st = true -> P (body st)) ->
    forall k st, P st -> P (Nat.iter k (iter cond body) st).
  Proof.
    intros Hstep k st H0. induction k as [|k IH]; [exact H0|].
    simpl. unfold iter at 1.
    destruct (cond (Nat.iter k (iter cond body) st)) eqn:E; [|exact IH].
    apply Hstep; assumption.
  Qed.

Lemma run_invariant (P : St -> Prop) :
    (forall st, P st -> cond st = true -> P (body st)) ->
    forall d st, P st -> P (run cond body d st).
  Proof. intros Hstep d st H0. rewrite run_steps. apply steps_invariant; assumption. Qed.

  (** A non-negative measure that decreases at every turn bounds the number
      of turns. *)
Lemma steps_measure (Inv : St -> Prop) (mu : St -> Z) :
    (forall st, Inv st -> cond st = true ->
                Inv (body st) /\ 0 <= mu (body st) < mu st) ->
    forall k st, Inv st -> mu st <= Z.of_nat k ->
                 cond (Nat.iter k (iter cond body) st) = false.
  Proof.
    intros Hstep k. induction k as [|k IH]; intros st HI Hmu.
    - simpl. destruct (cond st) eqn:E; [|reflexivity].
      destruct (Hstep st HI E) as [_ H]. simpl in Hmu. lia.
    - rewrite Nat.iter_succ_r. destruct (cond st) eqn:E.
      + unfold iter at 2. rewrite E.
        destruct (Hstep st HI E) as [HI' H]. apply IH; [assumption|lia].
      + rewrite iter_finished by assumption.
        rewrite steps_finished by assumption. assumption.
  Qed.
End WhileFacts.

Lemma pow2_nat d : Z.of_nat (2 ^ d) = 2 ^ Z.of_nat d.
Proof. rewrite Nat2Z.inj_pow. reflexivity. Qed.

Lemma run_reaches_Z {St : Type} (cond : St -> bool) (body : St -> St) d k st :
  cond (Nat.iter k (iter cond body) st) = false ->
  Z.of_nat k <= 2 ^ Z.of_nat d ->
  run cond body d st = Nat.iter k (iter cond body) st.
Proof.
  intros E Hk. apply run_reaches; [assumption|].
  apply Nat2Z.inj_le. rewrite pow2_nat. assumption.
Qed.

(** ** Toggling and backtracking in [solve] *)

Lemma testbit_slot_set m s i :
  0 <= s < 64 -> Z.testbit (slot_set m s) i = (i =? slot_bit s) || Z.testbit m i.
Proof.
  intros Hs. rewrite slot_set_eq by assumption.
  apply testbit_set_bit. unfold slot_bit. lia.
Qed.

Lemma testbit_slot_unset m s i :
  in_u64 m -> 0 <= s < 64 ->
  Z.testbit (slot_unset m s) i = negb (i =? slot_bit s) && Z.testbit m i.
Proof.
  intros Hm Hs. rewrite slot_unset_eq by assumption.
  apply testbit_clear_bit; [assumption|unfold slot_bit; lia].
Qed.

Lemma truthy_slot_is_set m s :
  0 <= s < 64 -> truthy (slot_is_set m s) = Z.testbit m (slot_bit s).
Proof.
  intros Hs. rewrite slot_is_set_eq by assumption.
  apply truthy_land_bit. unfold slot_bit. lia.
Qed.

Lemma slot_unset_set m s :
  in_u64 m -> 0 <= s < 64 -> Z.testbit m (slot_bit s) = false ->
  slot_unset (slot_set m s) s = m.
Proof.
  intros Hm Hs Hbit. apply Z.bits_inj'. intros i Hi.
  rewrite testbit_slot_unset, testbit_slot_set by (try apply in_u64_slot_set; assumption).
  destruct (Z.eqb_spec i (slot_bit s)) as [->|Hne]; simpl; [|reflexivity].
  symmetry. assumption.
Qed.

Lemma clear_from_weaken sol s s' : clear_from sol s -> s <= s' -> clear_from sol s'.
Proof. intros H Hle j Hj. apply H. lia. Qed.

Lemma clear_from_set sol s :
  0 <= s < 64 -> clear_from sol s -> clear_from (slot_set sol s) (s + 1).
Proof.
  intros Hs H j Hj. rewrite testbit_slot_set by assumption.
  rewrite H by lia. unfold slot_bit.
  destruct (Z.eqb_spec (63 - j) (63 - s)); [lia|reflexivity].
Qed.

Lemma clear_from_0 s : clear_from 0 s.
Proof. intros j _. apply Z.testbit_0_l. Qed.

Lemma solve_backtrack_set sol s :
  0 <= s < 64 -> Z.testbit sol (slot_bit s) = true ->
  solve_backtrack (Z.to_nat (s + 1)) sol s = s.
Proof.
  intros Hs Hbit. replace (Z.to_nat (s + 1)) with (S (Z.to_nat s)) by lia.
  cbn [solve_backtrack]. rewrite truthy_slot_is_set, Hbit by assumption.
  rewrite andb_false_r. reflexivity.
Qed.

Lemma solve_backtrack_clear sol s :
  -1 <= s < 63 -> Z.testbit sol (slot_bit (s + 1)) = false ->
  solve_backtrack (Z.to_nat (s + 1 + 1)) sol (s + 1)
  = solve_backtrack (Z.to_nat (s + 1)) sol s.
Proof.
  intros Hs Hbit. replace (Z.to_nat (s + 1 + 1)) with (S (Z.to_nat (s + 1))) by lia.
  cbn [solve_backtrack]. rewrite truthy_slot_is_set, Hbit by lia.
  destruct (Z.geb_spec (s + 1) 0); [|lia]. cbn [andb negb].
  replace (s + 1 - 1) with s by lia. reflexivity.
Qed.

Lemma store_all_app buf i cap l1 l2 :
  store_all buf i cap (l1 ++ l2)
  = store_all (store_all buf i cap l1) (i + Z.of_nat (length l1)) cap l2.
Proof.
  revert buf i. induction l1 as [|g l1 IH]; intros buf i.
  - simpl. replace (i + 0) with i by lia. reflexivity.
  - cbn [app store_all length]. rewrite IH. f_equal. lia.
Qed.

(** ** [solve] runs the enumeration *)

Section SolveSearch.
Variable pz : Puzzle.
Variable cap : Z.

Let step := iter solve_cond (solve_body pz cap).

Let steps_bound (n : nat) : Z := 2 ^ (Z.of_nat n + 1) - 2.

Let subtree_ok (n : nat) : Prop :=
    forall s sol i buf,
      Z.of_nat n = 64 - s -> 0 <= s -> in_u64 sol -> clear_from sol s ->
      0 <= i -> i + Z.of_nat (length (dfs n pz sol s)) < 2 ^ 64 ->
      exists k,
        Z.of_nat k <= steps_bound n
        /\ Nat.iter k step (mkSolveState sol s i buf)
           = mkSolveState sol (solve_backtrack (Z.to_nat (s + 1)) sol s)
                          (i + Z.of_nat (length (dfs n pz sol s)))
                          (store_all buf i cap (dfs n pz sol s)).

Lemma steps_bound_S n : steps_bound (S n) = 2 + 2 * steps_bound n.
  Proof.
    unfold steps_bound. rewrite Nat2Z.inj_succ.
    replace (Z.succ (Z.of_nat n) + 1) with (Z.succ (Z.of_nat n + 1)) by lia.
    rewrite Z.pow_succ_r by lia. lia.
  Qed.

Lemma solve_visit n (IH : n <> O -> subtree_ok n) s sol0 sol i buf :
    Z.of_nat (S n) = 64 - s -> 0 <= s ->
    (if negb (truthy (slot_is_set sol0 s)) then slot_set sol0 s
     else slot_unset sol0 s) = sol ->
    in_u64 sol -> clear_from sol (s + 1) -> 0 <= i ->
    i + Z.of_nat (length (visit (dfs n pz) pz sol s)) < 2 ^ 64 ->
    exists k,
      Z.of_nat k <= 1 + steps_bound n
      /\ Nat.iter k step (mkSolveState sol0 s i buf)
         = mkSolveState sol (solve_backtrack (Z.to_nat (s + 1)) sol s)
                        (i + Z.of_nat (length (visit (dfs n pz) pz sol s)))
                        (store_all buf i cap (visit (dfs n pz) pz sol s)).
  Proof.
    intros Hn Hs Htoggle Hsol Hclear Hi Hlen.
    assert (Hs63 : s <= 63) by lia.
    assert (Hfirst : step (mkSolveState sol0 s i buf)
                     = solve_body pz cap (mkSolveState sol0 s i buf)).
    { unfold step, iter, solve_cond. cbn [s_slot].
      destruct (Z.leb_spec 0 s); [|lia]. destruct (Z.ltb_spec s 64); [|lia].
      reflexivity. }
    assert (Hbound : 0 <= steps_bound n).
    { unfold steps_bound.
      assert (2 ^ 1 <= 2 ^ (Z.of_nat n + 1)) by (apply Z.pow_le_mono_r; lia).
      change (2 ^ 1) with 2 in *. lia. }
    unfold solve_body in Hfirst. cbn [s_slot s_solution s_solution_i s_solutions] in Hfirst.
    rewrite Htoggle in Hfirst.
    unfold visit in *.
    destruct (check_constraints pz sol s) eqn:Echeck.
    - destruct (Z.ltb_spec s 63) as [Hlt|Hge].
      + assert (Hn0 : n <> O) by lia.
        destruct (IH Hn0 (s + 1) sol i buf) as (k & Hk & Hrun);
          try assumption; try lia.
        exists (S k). split; [lia|].
        rewrite Nat.iter_succ_r, Hfirst, Hrun.
        rewrite solve_backtrack_clear; [reflexivity|lia|].
        apply Hclear. lia.
      + exists 1%nat. split; [lia|].
        rewrite Nat.iter_succ_r, Hfirst. cbn [Nat.iter nat_rect].
        cbn [length store_all] in *. f_equal.
        unfold u64_succ. apply Z.mod_small. lia.
    - exists 1%nat. split; [lia|].
      rewrite Nat.iter_succ_r, Hfirst. cbn [Nat.iter nat_rect].
      cbn [length store_all]. f_equal. lia.
  Qed.

Lemma solve_subtree_step n : (n <> O -> subtree_ok n) -> subtree_ok (S n).
  Proof.
    intros Hsub s sol i buf Hn Hs Hsol Hclear Hi Hlen.
    assert (Hs63 : 0 <= s < 64) by lia.
    assert (Hbit : Z.testbit sol (slot_bit s) = false) by (apply Hclear; lia).
    cbn [dfs] in *. rewrite length_app, Nat2Z.inj_add in *.
    pose proof (Zle_0_nat (length (visit (dfs n pz) pz (slot_set sol s) s))).
    pose proof (Zle_0_nat (length (visit (dfs n pz) pz sol s))).
    destruct (solve_visit n Hsub s sol (slot_set sol s) i buf) as (k1 & Hk1 & Hrun1);
      try assumption; try lia.
    { rewrite truthy_slot_is_set, Hbit by assumption. reflexivity. }
    { apply in_u64_slot_set; assumption. }
    { apply clear_from_set; assumption. }
    rewrite solve_backtrack_set in Hrun1
      by (try assumption;
          rewrite testbit_slot_set, Z.eqb_refl by assumption; reflexivity).
    destruct (solve_visit n Hsub s (slot_set sol s) sol
                (i + Z.of_nat (length (visit (dfs n pz) pz (slot_set sol s) s)))
                (store_all buf i cap (visit (dfs n pz) pz (slot_set sol s) s)))
      as (k2 & Hk2 & Hrun2); try assumption; try lia.
    { rewrite truthy_slot_is_set, testbit_slot_set, Z.eqb_refl by assumption.
      cbn [orb negb]. apply slot_unset_set; assumption. }
    { apply (clear_from_weaken sol s); [assumption|lia]. }
    exists (k2 + k1)%nat. split; [rewrite steps_bound_S; lia|].
    rewrite Nat.iter_add, Hrun1, Hrun2, store_all_app.
    f_equal. lia.
  Qed.

Lemma solve_subtree n : subtree_ok (S n).
  Proof.
    induction n as [|n IHn]; apply solve_subtree_step.
    - intros Hc. exfalso. apply Hc. reflexivity.
    - intros _. exact IHn.
  Qed.
End SolveSearch.

(** ** The number of grids found fits in a [u64] *)

Lemma check_constraints_true pz g s :
  check_constraints pz g s = true <->
  check_doesnt_overlap pz g = true /\ check_row_count pz g s = true
  /\ check_col_count pz g s = true /\ check_dead_ends pz g s = true
  /\ check_monsters pz g s = true /\ check_wide_space pz g s = true
  /\ check_treasure_rooms pz g s = true.
Proof. unfold check_constraints. rewrite !andb_true_iff. tauto. Qed.

Lemma check_row_count_true pz g s :
  check_row_count pz g s = true <->
  count_walls_in_row g (row (pos_from_slot s))
  <= array_get (row_wall_counts pz) (row (pos_from_slot s))
  /\ (col (pos_from_slot s) = 7 ->
      count_walls_in_row g (row (pos_from_slot s))
      = array_get (row_wall_counts pz) (row (pos_from_slot s))).
Proof.
  unfold check_row_count. cbv zeta.
  destruct (Z.gtb_spec (count_walls_in_row g (row (pos_from_slot s)))
                       (array_get (row_wall_counts pz) (row (pos_from_slot s)))).
  - split; [discriminate|]. intros [H1 _]. lia.
  - destruct (Z.eqb_spec (col (pos_from_slot s)) 7) as [E|E];
      destruct (Z.eqb_spec (count_walls_in_row g (row (pos_from_slot s)))
                           (array_get (row_wall_counts pz) (row (pos_from_slot s))));
      cbn [andb negb]; split; try discriminate; try tauto; intros; split;
      try lia; tauto.
Qed.

Lemma check_col_count_true pz g s :
  check_col_count pz g s = true <->
  count_walls_in_col g (col (pos_from_slot s))
  <= array_get (col_wall_counts pz) (col (pos_from_slot s))
  /\ (row (pos_from_slot s) = 7 ->
      count_walls_in_col g (col (pos_from_slot s))
      = array_get (col_wall_counts pz) (col (pos_from_slot s))).
Proof.
  unfold check_col_count. cbv zeta.
  destruct (Z.gtb_spec (count_walls_in_col g (col (pos_from_slot s)))
                       (array_get (col_wall_counts pz) (col (pos_from_slot s)))).
  - split; [discriminate|]. intros [H1 _]. lia.
  - destruct (Z.eqb_spec (row (pos_from_slot s)) 7) as [E|E];
      destruct (Z.eqb_spec (count_walls_in_col g (col (pos_from_slot s)))
                           (array_get (col_wall_counts pz) (col (pos_from_slot s))));
      cbn [andb negb]; split; try discriminate; try tauto; intros; split;
      try lia; tauto.
Qed.

Lemma in_u64_land_l a b : in_u64 a -> 0 <= b -> in_u64 (Z.land a b).
Proof.
  intros Ha Hb. apply in_u64_of_bits.
  - apply Z.land_nonneg. left. apply Ha.
  - intros i Hi. rewrite Z.land_spec, (testbit_in_u64_high a i) by assumption.
    reflexivity.
Qed.

Lemma in_u64_land_r a b : 0 <= a -> in_u64 b -> in_u64 (Z.land a b).
Proof. intros Ha Hb. rewrite Z.land_comm. apply in_u64_land_l; assumption. Qed.

(** Adding a wall to the last cell adds one wall to the last row. *)
Lemma count_walls_last_row_set sol :
  in_u64 sol -> Z.testbit sol 0 = false ->
  count_walls_in_row (slot_set sol 63) 7 = count_walls_in_row sol 7 + 1.
Proof.
  intros Hsol Hbit. unfold count_walls_in_row. cbv zeta.
  rewrite slot_set_eq by lia. change (2 ^ slot_bit 63) with 1.
  change (Z.shiftr 0xff00000000000000 (7 * 8)) with 255.
  rewrite !count_set_bits_popcount.
  - rewrite Z.land_lor_distr_r. change (Z.land 255 1) with 1.
    assert (Hx : 0 <= Z.land 255 sol) by (apply Z.land_nonneg; left; lia).
    pose proof (popcount_lor_land (Z.land 255 sol) 1 Hx ltac:(lia)) as H.
    assert (E : Z.land (Z.land 255 sol) 1 = 0).
    { rewrite <- Z.land_assoc. change 1 with (2 ^ 0) at 1.
      rewrite land_bit, Hbit by lia. apply Z.land_0_r. }
    rewrite E in H. cbn [popcount pos_popcount] in H. lia.
  - apply in_u64_land_r; [lia|assumption].
  - apply in_u64_land_r; [lia|].
    change 1 with (2 ^ 0). apply in_u64_set_bit; [assumption|lia].
Qed.

Lemma last_cell_not_both pz sol :
  in_u64 sol -> Z.testbit sol 0 = false ->
  check_constraints pz (slot_set sol 63) 63 = true ->
  check_constraints pz sol 63 = true -> False.
Proof.
  intros Hsol Hbit H1 H0.
  apply check_constraints_true in H1 as (_ & H1 & _).
  apply check_constraints_true in H0 as (_ & H0 & _).
  apply check_row_count_true in H1 as [_ H1].
  apply check_row_count_true in H0 as [_ H0].
  change (pos_from_slot 63) with (mkPos 7 7) in *. cbn [row col] in *.
  specialize (H1 eq_refl). specialize (H0 eq_refl).
  rewrite count_walls_last_row_set in H1 by assumption. lia.
Qed.

Lemma dfs_length n pz sol s :
  Z.of_nat (S n) = 64 - s -> 0 <= s -> in_u64 sol -> clear_from sol s ->
  Z.of_nat (length (dfs (S n) pz sol s)) <= 2 ^ Z.of_nat n.
Proof.
  revert sol s. induction n as [|n IH]; intros sol s Hn Hs0 Hsol Hclear.
  - assert (s = 63) by lia. subst s.
    cbn [dfs]. unfold visit. change (63 <? 63) with false. cbv iota.
    destruct (check_constraints pz (slot_set sol 63) 63) eqn:E1;
      destruct (check_constraints pz sol 63) eqn:E0; cbn [length app]; try (simpl; lia).
    exfalso. apply (last_cell_not_both pz sol); try assumption.
    apply (Hclear 63). lia.
  - assert (Hs : 0 <= s < 63) by lia.
    assert (Hpow : 2 ^ Z.of_nat (S n) = 2 * 2 ^ Z.of_nat n).
    { rewrite Nat2Z.inj_succ, Z.pow_succ_r by lia. reflexivity. }
    assert (Hpos : 0 <= 2 ^ Z.of_nat n) by (apply Z.pow_nonneg; lia).
    change (dfs (S (S n)) pz sol s)
      with (visit (dfs (S n) pz) pz (slot_set sol s) s
            ++ visit (dfs (S n) pz) pz sol s).
    rewrite length_app, Nat2Z.inj_add, Hpow. unfold visit.
    destruct (Z.ltb_spec s 63); [|lia].
    assert (H1 : Z.of_nat (length (dfs (S n) pz (slot_set sol s) (s + 1)))
                 <= 2 ^ Z.of_nat n).
    { apply IH; [lia|lia|apply in_u64_slot_set; assumption
                |apply clear_from_set; [lia|assumption]]. }
    assert (H0 : Z.of_nat (length (dfs (S n) pz sol (s + 1))) <= 2 ^ Z.of_nat n).
    { apply IH; [lia|lia|assumption
                |apply (clear_from_weaken sol s); [assumption|lia]]. }
    destruct (check_constraints pz (slot_set sol s) s);
      destruct (check_constraints pz sol s); cbn [length]; lia.
Qed.

Lemma all_solutions_eq pz : all_solutions pz = dfs 64 pz 0 0.
Proof. reflexivity. Qed.

Lemma all_solutions_length pz : Z.of_nat (length (all_solutions pz)) <= 2 ^ 63.
Proof.
  rewrite all_solutions_eq.
  apply (dfs_length 63); [reflexivity|lia|apply in_u64_0|].
  apply clear_from_0.
Qed.

(** ** What [solve] returns *)

Lemma solve_run_final pz solutions max_solutions :
  run solve_cond (solve_body pz max_solutions) solve_depth (solve_init solutions)
  = mkSolveState 0 (-1) (Z.of_nat (length (all_solutions pz)))
                 (store_all solutions 0 max_solutions (all_solutions pz)).
Proof.
  pose proof (all_solutions_length pz) as Hlen.
  destruct (solve_subtree pz max_solutions 63 0 0 0 solutions) as (k & Hk & Hrun).
  { reflexivity. }
  { lia. }
  { apply in_u64_0. }
  { apply clear_from_0. }
  { lia. }
  { rewrite <- all_solutions_eq. revert Hlen.
    generalize (all_solutions pz). intros found Hlen.
    assert (2 ^ 63 < 2 ^ 64) by reflexivity. lia. }
  rewrite <- all_solutions_eq in Hrun. revert Hlen Hrun.
  generalize (all_solutions pz). intros found Hlen Hrun.
  rewrite !Z.add_0_l in Hrun.
  change (solve_backtrack (Z.to_nat 1) 0 0) with (-1) in Hrun.
  unfold solve_init. rewrite <- Hrun.
  apply run_reaches_Z.
  - rewrite Hrun. reflexivity.
  - change (Z.of_nat solve_depth) with 65.
    change (Z.of_nat 64 + 1) with 65 in Hk. lia.
Qed.

(** The loop of [solve] has exited in the state [solve] reads its result
    from. *)
Lemma solve_terminates pz solutions max_solutions :
  solve_cond (run solve_cond (solve_body pz max_solutions) solve_depth
                  (solve_init solutions)) = false.
Proof. rewrite solve_run_final. reflexivity. Qed.

Lemma solve_spec pz solutions max_solutions :
  solve pz solutions max_solutions
  = (Z.of_nat (length (all_solutions pz)),
     store_all solutions 0 max_solutions (all_solutions pz)).
Proof. unfold solve. rewrite solve_run_final. reflexivity. Qed.

(** ** The output array *)

Lemma store_length {A : Type} (a : list A) i v : length (store a i v) = length a.
Proof.
  revert i. induction a as [|x a IH]; intros [|i]; simpl; try reflexivity.
  rewrite IH. reflexivity.
Qed.

Lemma nth_store {A : Type} (a : list A) i v j d :
  nth j (store a i v) d
  = if ((j =? i) && (i <? length a))%nat then v else nth j a d.
Proof.
  revert i j. induction a as [|x a IH]; intros i j.
  - destruct i; simpl; rewrite andb_false_r; reflexivity.
  - destruct i as [|i], j as [|j]; simpl; try reflexivity.
    rewrite IH. reflexivity.
Qed.

Lemma store_all_length buf i cap gs : length (store_all buf i cap gs) = length buf.
Proof.
  revert buf i. induction gs as [|g gs IH]; intros buf i; [reflexivity|].
  cbn [store_all]. rewrite IH. destruct (i >=? cap); [reflexivity|].
  apply store_length.
Qed.

Lemma nth_store_all gs : forall buf i cap j d,
  0 <= i ->
  nth j (store_all buf i cap gs) d
  = if ((Z.to_nat i <=? j) && (j <? Z.to_nat i + length gs))%nat
       && (Z.of_nat j <? cap) && (j <? length buf)%nat
    then nth (j - Z.to_nat i) gs d
    else nth j buf d.
Proof.
  induction gs as [|g gs IH]; intros buf i cap j d Hi.
  - cbn [store_all length].
    destruct (Nat.leb_spec (Z.to_nat i) j); [|reflexivity].
    destruct (Nat.ltb_spec j (Z.to_nat i + 0)); [lia|reflexivity].
  - cbn [store_all]. rewrite IH by lia. cbn [length].
    replace (Z.to_nat (i + 1)) with (S (Z.to_nat i)) by lia.
    destruct (Z.geb_spec i cap) as [Hge|Hlt].
    + destruct (Z.ltb_spec (Z.of_nat j) cap) as [Hj|Hj].
      * destruct (Nat.leb_spec (S (Z.to_nat i)) j); [lia|].
        destruct (Nat.leb_spec (Z.to_nat i) j); [lia|]. reflexivity.
      * rewrite !andb_false_r. reflexivity.
    + rewrite store_length, nth_store.
      destruct (Nat.eqb_spec j (Z.to_nat i)) as [->|Hne].
      * destruct (Nat.leb_spec (S (Z.to_nat i)) (Z.to_nat i)); [lia|].
        destruct (Nat.leb_spec (Z.to_nat i) (Z.to_nat i)); [|lia].
        destruct (Nat.ltb_spec (Z.to_nat i) (Z.to_nat i + S (length gs))); [|lia].
        destruct (Z.ltb_spec (Z.of_nat (Z.to_nat i)) cap); [|lia].
        cbn [andb]. rewrite Nat.sub_diag.
        destruct (Z.to_nat i <? length buf)%nat; reflexivity.
      * cbn [andb].
        destruct (Nat.leb_spec (S (Z.to_nat i)) j) as [H1|H1];
          destruct (Nat.leb_spec (Z.to_nat i) j) as [H2|H2]; try lia;
          cbn [andb]; [|reflexivity].
        replace (S (Z.to_nat i) + length gs)%nat
          with (Z.to_nat i + S (length gs))%nat by lia.
        replace (j - Z.to_nat i)%nat with (S (j - S (Z.to_nat i))) by lia.
        reflexivity.
Qed.

(** The entries written by [solve] are the first grids of the enumeration,
    in order; the rest of the array keeps its contents. *)
Lemma solve_stored pz buf cap j d :
  Z.of_nat (length buf) = cap -> 0 <= j ->
  nth (Z.to_nat j) (snd (solve pz buf cap)) d
  = if (j <? Z.of_nat (length (all_solutions pz))) && (j <? cap)
    then nth (Z.to_nat j) (all_solutions pz) d
    else nth (Z.to_nat j) buf d.
Proof.
  intros Hcap Hj. rewrite solve_spec. cbn [snd].
  generalize (all_solutions pz). intros found.
  rewrite nth_store_all by lia. change (Z.to_nat 0) with 0%nat.
  rewrite Nat.sub_0_r, Nat.add_0_l, Z2Nat.id by lia. cbn [Nat.leb andb].
  destruct (Nat.ltb_spec (Z.to_nat j) (length found));
    destruct (Z.ltb_spec j (Z.of_nat (length found))); try lia; cbn [andb];
    [|reflexivity].
  destruct (Z.ltb_spec j cap); [|reflexivity].
  destruct (Nat.ltb_spec (Z.to_nat j) (length buf)); [reflexivity|lia].
Qed.

Lemma solve_count pz buf cap :
  fst (solve pz buf cap) = Z.of_nat (length (all_solutions pz)).
Proof. rewrite solve_spec. reflexivity. Qed.

(** The array contents play no part in the count. *)
Lemma solve_count_any_buffer pz buf1 cap1 buf2 cap2 :
  fst (solve pz buf1 cap1) = fst (solve pz buf2 cap2).
Proof. rewrite !solve_count. reflexivity. Qed.

(** ** Prefixes of a grid *)

Lemma testbit_prefix_mask s i :
  -1 <= s < 64 ->
  Z.testbit (prefix_mask s) i = (63 - s <=? i) && (i <? 64).
Proof.
  intros Hs. unfold prefix_mask.
  destruct (Z.ltb_spec i 0) as [Hneg|Hi].
  - rewrite Z.testbit_neg_r by assumption.
    destruct (Z.leb_spec (63 - s) i); [lia|reflexivity].
  - rewrite Z.shiftl_spec by assumption.
    destruct (Z.leb_spec (63 - s) i) as [Hle|Hgt].
    + rewrite Z.testbit_ones_nonneg by lia.
      destruct (Z.ltb_spec (i - (63 - s)) (s + 1));
        destruct (Z.ltb_spec i 64); try lia; reflexivity.
    + apply Z.testbit_neg_r. lia.
Qed.

Lemma testbit_prefix g s i :
  -1 <= s < 64 ->
  Z.testbit (prefix g s) i = Z.testbit g i && ((63 - s <=? i) && (i <? 64)).
Proof.
  intros Hs. unfold prefix. rewrite Z.land_spec, testbit_prefix_mask by assumption.
  reflexivity.
Qed.

Lemma prefix_clear g s :
  in_u64 g -> -1 <= s < 64 -> clear_from g (s + 1) -> prefix g s = g.
Proof.
  intros Hg Hs Hclear. apply Z.bits_inj'. intros i Hi.
  rewrite testbit_prefix by assumption.
  destruct (Z.ltb_spec i 64) as [Hlt|Hge].
  - destruct (Z.leb_spec (63 - s) i) as [Hle|Hgt].
    + apply andb_true_r.
    + rewrite andb_false_r. symmetry.
      specialize (Hclear (63 - i) ltac:(lia)). unfold slot_bit in Hclear.
      replace (63 - (63 - i)) with i in Hclear by lia. assumption.
  - rewrite (testbit_in_u64_high g i) by assumption. reflexivity.
Qed.

Lemma prefix_full g : in_u64 g -> prefix g 63 = g.
Proof.
  intros Hg. apply prefix_clear; [assumption|lia|].
  intros j Hj. lia.
Qed.

Lemma prefix_slot_set g s s' :
  0 <= s < 64 -> -1 <= s' < s -> prefix (slot_set g s) s' = prefix g s'.
Proof.
  intros Hs Hs'. apply Z.bits_inj'. intros i Hi.
  rewrite !testbit_prefix, testbit_slot_set by lia. unfold slot_bit.
  destruct (Z.eqb_spec i (63 - s)) as [->|Hne]; [|reflexivity].
  destruct (Z.leb_spec (63 - s') (63 - s)); [lia|].
  cbn [andb]. rewrite !andb_false_r. reflexivity.
Qed.

Lemma in_u64_prefix g s : in_u64 g -> in_u64 (prefix g s).
Proof.
  intros Hg. unfold prefix. apply in_u64_of_bits.
  - apply Z.land_nonneg. left. apply Hg.
  - intros i Hi. rewrite Z.land_spec, (testbit_in_u64_high g i) by assumption.
    reflexivity.
Qed.

Lemma land_prefix M g s :
  Z.land M (prefix_mask s) = M -> Z.land M (prefix g s) = Z.land M g.
Proof.
  intros H. unfold prefix.
  rewrite (Z.land_comm g), Z.land_assoc, H. reflexivity.
Qed.

Lemma In_visit below pz sol s g :
  In g (visit below pz sol s) ->
  check_constraints pz sol s = true
  /\ (if s <? 63 then In g (below sol (s + 1)) else g = sol).
Proof.
  unfold visit. destruct (check_constraints pz sol s); [|intros []].
  destruct (s <? 63); [tauto|]. intros [<-|[]]. tauto.
Qed.

Lemma visit_In below pz sol s g :
  check_constraints pz sol s = true ->
  (if s <? 63 then In g (below sol (s + 1)) else g = sol) ->
  In g (visit below pz sol s).
Proof.
  unfold visit. intros -> H. destruct (s <? 63); [assumption|].
  left. symmetry. assumption.
Qed.

(** Every grid of the enumeration is prefix-valid. *)
Lemma dfs_sound pz n : forall sol s g,
  Z.of_nat n = 64 - s -> 0 <= s -> in_u64 sol -> clear_from sol s ->
  (forall s', 0 <= s' < s -> check_constraints pz (prefix sol s') s' = true) ->
  In g (dfs n pz sol s) ->
  in_u64 g /\ prefix_valid pz g.
Proof.
  induction n as [|n IH]; intros sol s g Hn Hs Hsol Hclear Hbefore Hin; [destruct Hin|].
  cbn [dfs] in Hin. apply in_app_or in Hin.
  assert (Hs63 : 0 <= s < 64) by lia.
  assert (Hvisit : forall sol',
             in_u64 sol' -> clear_from sol' (s + 1) ->
             (forall s', 0 <= s' < s -> prefix sol' s' = prefix sol s') ->
             In g (visit (dfs n pz) pz sol' s) -> in_u64 g /\ prefix_valid pz g).
  { intros sol' Hsol' Hclear' Hsame Hin'.
    apply In_visit in Hin' as [Hcheck Hrest].
    assert (Hupto : forall s', 0 <= s' < s + 1 ->
                      check_constraints pz (prefix sol' s') s' = true).
    { intros s' Hs'. destruct (Z.eq_dec s' s) as [->|Hne].
      - rewrite prefix_clear by (assumption || lia). assumption.
      - rewrite Hsame by lia. apply Hbefore. lia. }
    destruct (Z.ltb_spec s 63).
    - apply (IH sol' (s + 1)); try assumption; lia.
    - subst g. split; [assumption|]. intros s' Hs'. apply Hupto. lia. }
  destruct Hin as [Hin|Hin].
  - apply (Hvisit (slot_set sol s)); try assumption.
    + apply in_u64_slot_set; assumption.
    + apply clear_from_set; assumption.
    + intros s' Hs'. apply prefix_slot_set; lia.
  - apply (Hvisit sol); try assumption.
    + apply (clear_from_weaken sol s); [assumption|lia].
    + reflexivity.
Qed.

Lemma all_solutions_sound pz g :
  In g (all_solutions pz) -> in_u64 g /\ prefix_valid pz g.
Proof.
  rewrite all_solutions_eq.
  apply (dfs_sound pz 64 0 0); try reflexivity; try lia.
  - apply in_u64_0.
  - apply clear_from_0.
Qed.

(** ** Geometry of the slot order, checked on the 64 slots *)

Lemma geom_row_ok : forallb geom_row all_slots = true.
Proof. vm_compute. reflexivity. Qed.

Lemma geom_col_ok : forallb geom_col all_slots = true.
Proof. vm_compute. reflexivity. Qed.

Lemma geom_settle_ok : forallb geom_settle all_slots = true.
Proof. vm_compute. reflexivity. Qed.

Lemma geom_wide_ok : forallb geom_wide all_slots = true.
Proof. vm_compute. reflexivity. Qed.

Lemma In_all_slots s : 0 <= s < 64 -> In s all_slots.
Proof.
  intros Hs. unfold all_slots. rewrite <- (Z2Nat.id s) by lia.
  apply in_map, in_seq. lia.
Qed.

Lemma all_slots_forall (f : Z -> bool) :
  forallb f all_slots = true -> forall s, 0 <= s < 64 -> f s = true.
Proof.
  intros H s Hs. rewrite forallb_forall in H. apply H, In_all_slots, Hs.
Qed.

Lemma covers_land M g s : covers M s = true -> Z.land M (prefix g s) = Z.land M g.
Proof. unfold covers. intros H. apply land_prefix, Z.eqb_eq, H. Qed.

Lemma pos_eqb_eq p q : pos_eqb p q = true -> p = q.
Proof.
  destruct p as [pr pc], q as [qr qc]. unfold pos_eqb. cbn [row col].
  intros H. apply andb_true_iff in H as [H1 H2].
  apply Z.eqb_eq in H1, H2. subst. reflexivity.
Qed.

Lemma pos_from_slot_index q :
  pos_in_range q -> pos_from_slot (row q * 8 + col q) = q.
Proof.
  destruct q as [r c]. unfold pos_in_range, pos_from_slot. cbn [row col].
  intros [Hr Hc].
  rewrite Z.quot_div_nonneg, Z.rem_mod_nonneg by lia.
  f_equal.
  - symmetry. apply (Z.div_unique _ _ r c); lia.
  - symmetry. apply (Z.mod_unique _ _ r c); lia.
Qed.

(** ** From the prefixes to the complete grid *)

Lemma count_walls_in_row_eq g r :
  count_walls_in_row g r
  = count_set_bits (Z.land (Z.shiftr 0xff00000000000000 (r * 8)) g).
Proof. reflexivity. Qed.

Lemma count_walls_in_col_eq g c :
  count_walls_in_col g c
  = count_set_bits (Z.land (Z.shiftr 0x8080808080808080 c) g).
Proof. reflexivity. Qed.

Section PrefixToFull.
Variable pz : Puzzle.
Variable g : Z.
Hypothesis Hg : in_u64 g.
Hypothesis Hvalid : prefix_valid pz g.

Lemma full_doesnt_overlap : check_doesnt_overlap pz g = true.
  Proof.
    specialize (Hvalid 63 ltac:(lia)). rewrite prefix_full in Hvalid by assumption.
    apply check_constraints_true in Hvalid. tauto.
  Qed.

Lemma full_row_count s : 0 <= s < 64 -> check_row_count pz g s = true.
  Proof.
    intros Hs. pose proof (all_slots_forall _ geom_row_ok s Hs) as G.
    unfold geom_row in G. cbv zeta in G.
    repeat (apply andb_true_iff in G as [G ?]).
    apply Z.leb_le in G.
    repeat match goal with
           | H : (_ <? _) = true |- _ => apply Z.ltb_lt in H
           | H : (_ =? _) = true |- _ => apply Z.eqb_eq in H
           end.
    pose proof (Hvalid (row_end s) ltac:(lia)) as Hend.
    apply check_constraints_true in Hend as (_ & Hend & _).
    apply check_row_count_true in Hend as [_ Hend].
    specialize (Hend ltac:(assumption)).
    match goal with H : row (pos_from_slot (row_end s)) = _ |- _ => rewrite H in Hend end.
    rewrite count_walls_in_row_eq, covers_land in Hend by assumption.
    apply check_row_count_true. rewrite count_walls_in_row_eq.
    split; [rewrite Hend; apply Z.le_refl|intros _; assumption].
  Qed.

Lemma full_col_count s : 0 <= s < 64 -> check_col_count pz g s = true.
  Proof.
    intros Hs. pose proof (all_slots_forall _ geom_col_ok s Hs) as G.
    unfold geom_col in G. cbv zeta in G.
    repeat (apply andb_true_iff in G as [G ?]).
    apply Z.leb_le in G.
    repeat match goal with
           | H : (_ <? _) = true |- _ => apply Z.ltb_lt in H
           | H : (_ =? _) = true |- _ => apply Z.eqb_eq in H
           end.
    pose proof (Hvalid (col_end s) ltac:(lia)) as Hend.
    apply check_constraints_true in Hend as (_ & _ & Hend & _).
    apply check_col_count_true in Hend as [_ Hend].
    specialize (Hend ltac:(assumption)).
    match goal with H : col (pos_from_slot (col_end s)) = _ |- _ => rewrite H in Hend end.
    rewrite count_walls_in_col_eq, covers_land in Hend by assumption.
    apply check_col_count_true. rewrite count_walls_in_col_eq.
    split; [rewrite Hend; apply Z.le_refl|intros _; assumption].
  Qed.

Lemma settled q :
    pos_in_range q ->
    exists s,
      0 <= s < 64
      /\ (q = mkPos (row (pos_from_slot s) - 1) (col (pos_from_slot s))
          \/ (row (pos_from_slot s) = 7
              /\ q = mkPos (row (pos_from_slot s)) (col (pos_from_slot s) - 1))
          \/ (row (pos_from_slot s) = 7 /\ col (pos_from_slot s) = 7
              /\ q = pos_from_slot s))
      /\ Z.land (pos_set 0 q) (prefix g s) = Z.land (pos_set 0 q) g
      /\ Z.land (neighbours_mask q) (prefix g s) = Z.land (neighbours_mask q) g.
  Proof.
    intros Hq. pose proof (pos_from_slot_index q Hq) as Eq.
    assert (Ht : 0 <= row q * 8 + col q < 64) by (unfold pos_in_range in Hq; lia).
    pose proof (all_slots_forall _ geom_settle_ok _ Ht) as G.
    unfold geom_settle in G. cbv zeta in G. rewrite Eq in G.
    set (s := settle_slot (row q * 8 + col q)) in *. clearbody s.
    repeat (apply andb_true_iff in G as [G ?]).
    apply Z.leb_le in G.
    exists s. split; [|split; [|split]].
    - match goal with H : (s <? 64) = true |- _ => apply Z.ltb_lt in H end. lia.
    - match goal with H : (_ || _ || _) = true |- _ => rename H into K end.
      apply orb_true_iff in K as [K|K]; [apply orb_true_iff in K as [K|K]|].
      + left. apply pos_eqb_eq, K.
      + right. left. apply andb_true_iff in K as [K1 K2].
        apply Z.eqb_eq in K1. apply pos_eqb_eq in K2. tauto.
      + right. right. apply andb_true_iff in K as [K K3].
        apply andb_true_iff in K as [K1 K2].
        apply Z.eqb_eq in K1, K2. apply pos_eqb_eq in K3. tauto.
    - apply covers_land. assumption.
    - apply covers_land. assumption.
  Qed.
End PrefixToFull.

Lemma is_dead_end_local pz g g' q :
  Z.land (pos_set 0 q) g = Z.land (pos_set 0 q) g' ->
  Z.land (neighbours_mask q) g = Z.land (neighbours_mask q) g' ->
  is_dead_end pz g q = is_dead_end pz g' q.
Proof. intros H1 H2. unfold is_dead_end. cbv zeta. rewrite H1, H2. reflexivity. Qed.

Lemma is_invalid_monster_local pz g g' q :
  Z.land (neighbours_mask q) g = Z.land (neighbours_mask q) g' ->
  is_invalid_monster pz g q = is_invalid_monster pz g' q.
Proof. intros H. unfold is_invalid_monster. cbv zeta. rewrite H. reflexivity. Qed.

Lemma check_wide_space_local pz g g' s :
  Z.land (space_mask (pos_from_slot s)) g = Z.land (space_mask (pos_from_slot s)) g' ->
  check_wide_space pz g s = check_wide_space pz g' s.
Proof. intros H. unfold check_wide_space. cbv zeta. rewrite H. reflexivity. Qed.

Lemma check_dead_ends_true pz g s :
  check_dead_ends pz g s = true <->
  is_dead_end pz g (mkPos (row (pos_from_slot s) - 1) (col (pos_from_slot s))) = false
  /\ is_dead_end pz g (mkPos (row (pos_from_slot s)) (col (pos_from_slot s) - 1)) = false
  /\ is_dead_end pz g (pos_from_slot s) = false.
Proof.
  unfold check_dead_ends. cbv zeta.
  destruct (is_dead_end pz g (mkPos (row (pos_from_slot s) - 1) (col (pos_from_slot s))));
    destruct (is_dead_end pz g (mkPos (row (pos_from_slot s)) (col (pos_from_slot s) - 1)));
    destruct (is_dead_end pz g (pos_from_slot s)); cbn [orb];
    split; try discriminate; try tauto; intros (? & ? & ?); discriminate.
Qed.

Lemma check_monsters_true pz g s :
  check_monsters pz g s = true <->
  is_invalid_monster pz g (mkPos (row (pos_from_slot s) - 1) (col (pos_from_slot s)))
  = false
  /\ (row (pos_from_slot s) = 7 ->
      is_invalid_monster pz g (mkPos (row (pos_from_slot s)) (col (pos_from_slot s) - 1))
      = false
      /\ (col (pos_from_slot s) = 7 ->
          is_invalid_monster pz g (pos_from_slot s) = false)).
Proof.
  unfold check_monsters. cbv zeta.
  destruct (is_invalid_monster pz g
              (mkPos (row (pos_from_slot s) - 1) (col (pos_from_slot s)))).
  { split; [discriminate|]. intros [? _]. discriminate. }
  destruct (Z.eqb_spec (row (pos_from_slot s)) 7) as [Er|Er].
  2:{ split; [|reflexivity]. intros _. split; [reflexivity|]. intros; contradiction. }
  destruct (is_invalid_monster pz g
              (mkPos (row (pos_from_slot s)) (col (pos_from_slot s) - 1))).
  { split; [discriminate|]. intros [_ H]. destruct (H Er). discriminate. }
  destruct (Z.eqb_spec (col (pos_from_slot s)) 7) as [Ec|Ec].
  2:{ split; [|reflexivity]. intros _. repeat split. intros; contradiction. }
  destruct (is_invalid_monster pz g (pos_from_slot s)).
  { split; [discriminate|]. intros [_ H]. destruct (H Er) as [_ H'].
    specialize (H' Ec). discriminate. }
  split; [|reflexivity]. intros _. repeat split.
Qed.

Lemma is_dead_end_out pz g q : ~ pos_in_range q -> is_dead_end pz g q = false.
Proof. intros H. unfold is_dead_end. rewrite pos_range_true by assumption. reflexivity. Qed.

Lemma is_invalid_monster_out pz g q : ~ pos_in_range q -> is_invalid_monster pz g q = false.
Proof.
  intros H. unfold is_invalid_monster. rewrite pos_range_true by assumption. reflexivity.
Qed.

(** In a prefix-valid grid no cell is a dead end and no monster is invalid:
    each cell was checked at its [settle_slot]. *)
Lemma prefix_valid_no_dead_end pz g q :
  in_u64 g -> prefix_valid pz g -> is_dead_end pz g q = false.
Proof.
  intros Hg Hvalid. destruct (pos_range_dec q) as [Hq|Hq];
    [|apply is_dead_end_out; assumption].
  destruct (settled g q Hq) as (s & Hs & Hkind & H1 & H2).
  rewrite <- (is_dead_end_local pz (prefix g s) g q H1 H2).
  specialize (Hvalid s Hs). apply check_constraints_true in Hvalid as (_ & _ & _ & H & _).
  apply check_dead_ends_true in H as (Ha & Hl & Hp).
  destruct Hkind as [->|[[_ ->]|(_ & _ & ->)]]; [exact Ha|exact Hl|exact Hp].
Qed.

Lemma prefix_valid_monsters pz g q :
  in_u64 g -> prefix_valid pz g -> is_invalid_monster pz g q = false.
Proof.
  intros Hg Hvalid. destruct (pos_range_dec q) as [Hq|Hq];
    [|apply is_invalid_monster_out; assumption].
  destruct (settled g q Hq) as (s & Hs & Hkind & _ & H2).
  rewrite <- (is_invalid_monster_local pz (prefix g s) g q H2).
  specialize (Hvalid s Hs).
  apply check_constraints_true in Hvalid as (_ & _ & _ & _ & H & _).
  apply check_monsters_true in H as (Ha & Hrest).
  destruct Hkind as [->|[[Er ->]|(Er & Ec & ->)]]; [exact Ha| |].
  - destruct (Hrest Er) as [Hl _]. exact Hl.
  - destruct (Hrest Er) as [_ Hp]. exact (Hp Ec).
Qed.

Lemma prefix_valid_wide_space pz g s :
  prefix_valid pz g -> 0 <= s < 64 -> check_wide_space pz g s = true.
Proof.
  intros Hvalid Hs. pose proof (all_slots_forall _ geom_wide_ok s Hs) as G.
  unfold geom_wide in G.
  rewrite <- (check_wide_space_local pz (prefix g s) g s (covers_land _ g s G)).
  specialize (Hvalid s Hs). apply check_constraints_true in Hvalid.
  destruct Hvalid as (_ & _ & _ & _ & _ & H & _). exact H.
Qed.

(** ** Treasure rooms: the check at the last slot is the strictest *)

Lemma strict_room_check_last center : strict_room_check center 63 = true.
Proof.
  unfold strict_room_check. change (pos_from_slot 63) with (mkPos 7 7).
  cbn [row col]. apply orb_true_r.
Qed.

Lemma is_invalid_treasure_room_last pz g treasure center s :
  is_invalid_treasure_room pz g treasure center 63 = false ->
  is_invalid_treasure_room pz g treasure center s = false.
Proof.
  unfold is_invalid_treasure_room. cbv zeta. rewrite strict_room_check_last.
  destruct (negb (count_set_bits (room_mask center) =? 9)); [discriminate|].
  destruct (truthy (Z.land (room_mask center) (monsters pz))
            || truthy (Z.land (room_mask center) (pos_unset (treasures pz) treasure)));
    [discriminate|].
  destruct (truthy (Z.land (room_mask center) g)); [discriminate|].
  destruct (truthy (Z.land (walls_mask center) (monsters pz))
            || truthy (Z.land (walls_mask center) (treasures pz)));
    [discriminate|].
  generalize (count_set_bits (Z.land (walls_mask center) g)).
  generalize (count_set_bits (walls_mask center)). intros total closed.
  destruct (Z.eqb_spec closed (total - 1)) as [E|E]; [|discriminate].
  intros _. destruct (strict_room_check center s).
  - destruct (Z.eqb_spec closed (total - 1)); [reflexivity|contradiction].
  - destruct (Z.eqb_spec closed total); [lia|reflexivity].
Qed.

Lemma fold_left_andb {A : Type} (f : A -> bool) (l : list A) (b : bool) :
  fold_left (fun result x => result && f x) l b = b && forallb f l.
Proof.
  revert b. induction l as [|x l IH]; intros b; cbn [fold_left forallb].
  - rewrite andb_true_r. reflexivity.
  - rewrite IH, andb_assoc. reflexivity.
Qed.

Lemma is_invalid_treasure_forallb pz g treasure s :
  is_invalid_treasure pz g treasure s
  = forallb (fun center => is_invalid_treasure_room pz g treasure center s)
            (room_centers treasure).
Proof. unfold is_invalid_treasure. rewrite fold_left_andb. reflexivity. Qed.

Lemma is_invalid_treasure_last pz g treasure s :
  is_invalid_treasure pz g treasure 63 = false ->
  is_invalid_treasure pz g treasure s = false.
Proof.
  rewrite !is_invalid_treasure_forallb. intros H63.
  apply not_true_is_false. intros Es.
  assert (E : forallb (fun center => is_invalid_treasure_room pz g treasure center 63)
                      (room_centers treasure) = true).
  { apply forallb_forall. intros center Hin.
    rewrite forallb_forall in Es. specialize (Es center Hin). cbv beta in Es.
    destruct (is_invalid_treasure_room pz g treasure center 63) eqn:E63; [reflexivity|].
    rewrite (is_invalid_treasure_room_last pz g treasure center s E63) in Es.
    discriminate. }
  rewrite E in H63. discriminate.
Qed.

Lemma treasure_scan_last pz g s ps :
  treasure_scan pz g 63 ps = true -> treasure_scan pz g s ps = true.
Proof.
  induction ps as [|p ps IH]; [reflexivity|]. cbn [treasure_scan].
  destruct (truthy (pos_is_set (treasures pz) p)); [|exact IH].
  destruct (is_invalid_treasure pz g p 63) eqn:E; [discriminate|].
  rewrite (is_invalid_treasure_last pz g p s E). exact IH.
Qed.

Lemma check_treasure_rooms_last pz g s :
  check_treasure_rooms pz g 63 = true -> check_treasure_rooms pz g s = true.
Proof.
  unfold check_treasure_rooms. destruct (treasures pz =? 0); [reflexivity|].
  apply treasure_scan_last.
Qed.

(** A prefix-valid grid passes the seven constraints at every slot. *)
Lemma prefix_valid_full pz g :
  in_u64 g -> prefix_valid pz g ->
  forall s, 0 <= s < 64 -> check_constraints pz g s = true.
Proof.
  intros Hg Hvalid s Hs. apply check_constraints_true.
  split; [apply full_doesnt_overlap; assumption|].
  split; [apply full_row_count; assumption|].
  split; [apply full_col_count; assumption|].
  split.
  { apply check_dead_ends_true.
    split; [|split]; apply (prefix_valid_no_dead_end pz g _ Hg Hvalid). }
  split.
  { apply check_monsters_true.
    split; [|intros _; split; [|intros _]];
      apply (prefix_valid_monsters pz g _ Hg Hvalid). }
  split; [apply prefix_valid_wide_space; assumption|].
  apply check_treasure_rooms_last.
  specialize (Hvalid 63 ltac:(lia)). rewrite prefix_full in Hvalid by assumption.
  apply check_constraints_true in Hvalid.
  destruct Hvalid as (_ & _ & _ & _ & _ & _ & H). exact H.
Qed.

(** ** The solver: what it returns *)

Lemma main_puzzle_built : puzzle main_args = Some main_puzzle.
Proof. reflexivity. Qed.

Lemma stored_in_all_solutions pz solutions max_solutions j :
  Z.of_nat (length solutions) = max_solutions ->
  0 <= j < Z.min (fst (solve pz solutions max_solutions)) max_solutions ->
  nth (Z.to_nat j) (snd (solve pz solutions max_solutions)) 0
  = nth (Z.to_nat j) (all_solutions pz) 0
  /\ In (nth (Z.to_nat j) (all_solutions pz) 0) (all_solutions pz).
Proof.
  intros Hcap Hj. rewrite solve_count in Hj. rewrite solve_stored by lia.
  revert Hj. generalize (all_solutions pz). intros found Hj.
  destruct (Z.ltb_spec j (Z.of_nat (length found))); [|lia].
  destruct (Z.ltb_spec j max_solutions); [|lia].
  split; [reflexivity|]. apply nth_In. lia.
Qed.

(** C1.  Every grid that [solve] stores in the output array (the entries
    below both the returned count and the capacity) satisfies each of the
    seven constraint predicates at every slot 0..63, evaluated on the
    completed grid.  This holds for every puzzle record, whatever its
    row and column targets. *)
Theorem solve_solutions_satisfy_constraints
    (pz : Puzzle) (solutions : list Z) (max_solutions : Z)
    (Hcap : Z.of_nat (length solutions) = max_solutions)
    (j : Z) (Hj : 0 <= j < Z.min (fst (solve pz solutions max_solutions)) max_solutions)
    (s : Z) (Hs : 0 <= s < 64) :
  let g := nth (Z.to_nat j) (snd (solve pz solutions max_solutions)) 0 in
  check_doesnt_overlap pz g = true /\ check_row_count pz g s = true
  /\ check_col_count pz g s = true /\ check_dead_ends pz g s = true
  /\ check_monsters pz g s = true /\ check_wide_space pz g s = true
  /\ check_treasure_rooms pz g s = true.
Proof.
  intros g. subst g.
  destruct (stored_in_all_solutions pz solutions max_solutions j Hcap Hj) as [-> Hin].
  apply all_solutions_sound in Hin as [Hg Hvalid].
  apply check_constraints_true, prefix_valid_full; assumption.
Qed.

Lemma solve_solutions_satisfy_constraints_witness :
  let g := nth (Z.to_nat 0) (snd (solve main_puzzle [0] 1)) 0 in
  check_doesnt_overlap main_puzzle g = true /\ check_row_count main_puzzle g 0 = true
  /\ check_col_count main_puzzle g 0 = true /\ check_dead_ends main_puzzle g 0 = true
  /\ check_monsters main_puzzle g 0 = true /\ check_wide_space main_puzzle g 0 = true
  /\ check_treasure_rooms main_puzzle g 0 = true.
Proof.
  apply (solve_solutions_satisfy_constraints main_puzzle [0] 1 eq_refl 0).
  - split; [lia|]. vm_compute. reflexivity.
  - lia.
Defined.

(** C4.  The count returned by [solve] is the same for any two output
    arrays and capacities.  Against a run whose capacity holds every
    solution, a run with capacity [max1] leaves in its array the first
    [min(count, max1)] solutions of that run, in the same order, and the
    rest of the array untouched. *)
Theorem solve_count_independent_of_capacity
    (pz : Puzzle) (solutions1 : list Z) (max1 : Z) (solutions2 : list Z) (max2 : Z) :
  fst (solve pz solutions1 max1) = fst (solve pz solutions2 max2)
  /\ (Z.of_nat (length solutions1) = max1 ->
      Z.of_nat (length solutions2) = max2 ->
      fst (solve pz solutions2 max2) <= max2 ->
      length (snd (solve pz solutions1 max1)) = length solutions1
      /\ forall j, 0 <= j < max1 ->
           nth (Z.to_nat j) (snd (solve pz solutions1 max1)) 0
           = if j <? Z.min (fst (solve pz solutions1 max1)) max1
             then nth (Z.to_nat j) (snd (solve pz solutions2 max2)) 0
             else nth (Z.to_nat j) solutions1 0).
Proof.
  split; [apply solve_count_any_buffer|].
  intros H1 H2 Hall. split.
  - rewrite solve_spec. apply store_all_length.
  - intros j Hj. rewrite !solve_count in *. rewrite !solve_stored by lia.
    revert Hall. generalize (all_solutions pz). intros found Hall.
    destruct (Z.ltb_spec j (Z.of_nat (length found)));
      destruct (Z.ltb_spec j max1); destruct (Z.ltb_spec j max2);
      destruct (Z.ltb_spec j (Z.min (Z.of_nat (length found)) max1));
      cbn [andb]; try lia; reflexivity.
Qed.

Lemma solve_count_independent_of_capacity_witness :
  length (snd (solve main_puzzle [7] 1)) = length [7]
  /\ forall j, 0 <= j < 1 ->
       nth (Z.to_nat j) (snd (solve main_puzzle [7] 1)) 0
       = if j <? Z.min (fst (solve main_puzzle [7] 1)) 1
         then nth (Z.to_nat j) (snd (solve main_puzzle [7; 7] 2)) 0
         else nth (Z.to_nat j) [7] 0.
Proof.
  apply (proj2 (solve_count_independent_of_capacity main_puzzle [7] 1 [7; 7] 2)).
  - reflexivity.
  - reflexivity.
  - vm_compute. discriminate.
Defined.

Lemma all_solutions_empty_puzzle : all_solutions empty_puzzle = [].
Proof. vm_compute. reflexivity. Qed.

(** C5, as stated, fails: for the puzzle with all targets 0 and neither
    monsters nor treasures the returned count is not 1. *)
Lemma solve_empty_puzzle_counterexample : fst (solve empty_puzzle [0] 1) <> 1.
Proof. vm_compute. discriminate. Qed.

(** C5, amended.  For that puzzle [solve] returns the count 0 and leaves
    the output array as it was: the all-open grid has an open 2x2 block
    with no treasure around it, which [check_wide_space] rejects at slot 9
    (row 1, column 1); no other grid meets the zero row targets. *)
Theorem solve_empty_puzzle_no_solution (solutions : list Z) (max_solutions : Z) :
  check_wide_space empty_puzzle 0 9 = false
  /\ solve empty_puzzle solutions max_solutions = (0, solutions).
Proof.
  split; [vm_compute; reflexivity|].
  rewrite solve_spec, all_solutions_empty_puzzle. reflexivity.
Qed.

(** ** The generator: tiles and boards *)

Lemma tile_at_store tiles s t i :
  0 <= s -> 0 <= i -> (Z.to_nat s < length tiles)%nat ->
  tile_at (store tiles (Z.to_nat s) t) i = if i =? s then t else tile_at tiles i.
Proof.
  intros Hs Hi Hlen. unfold tile_at. rewrite nth_store.
  destruct (Nat.ltb_spec (Z.to_nat s) (length tiles)); [|lia].
  rewrite andb_true_r.
  destruct (Nat.eqb_spec (Z.to_nat i) (Z.to_nat s)); destruct (Z.eqb_spec i s);
    try lia; reflexivity.
Qed.

Lemma truthy_slot_set m s i :
  0 <= s < 64 -> 0 <= i < 64 ->
  truthy (slot_is_set (slot_set m s) i) = (i =? s) || truthy (slot_is_set m i).
Proof.
  intros Hs Hi. rewrite !truthy_slot_is_set, testbit_slot_set by assumption.
  unfold slot_bit. destruct (Z.eqb_spec (63 - i) (63 - s)); destruct (Z.eqb_spec i s);
    try lia; reflexivity.
Qed.

Lemma truthy_slot_unset m s i :
  in_u64 m -> 0 <= s < 64 -> 0 <= i < 64 ->
  truthy (slot_is_set (slot_unset m s) i) = negb (i =? s) && truthy (slot_is_set m i).
Proof.
  intros Hm Hs Hi. rewrite !truthy_slot_is_set, testbit_slot_unset by assumption.
  unfold slot_bit. destruct (Z.eqb_spec (63 - i) (63 - s)); destruct (Z.eqb_spec i s);
    try lia; reflexivity.
Qed.

Lemma gen_cycle_slot st : g_slot (gen_cycle st) = g_slot st.
Proof. unfold gen_cycle. destruct (tile_at (g_tiles st) (g_slot st)); reflexivity. Qed.

Lemma gen_cycle_length st : length (g_tiles (gen_cycle st)) = length (g_tiles st).
Proof.
  unfold gen_cycle. destruct (tile_at (g_tiles st) (g_slot st)); cbn [g_tiles];
    apply store_length.
Qed.

Lemma gen_cycle_boards_ok st :
  0 <= g_slot st < 64 -> boards_ok st -> boards_ok (gen_cycle st).
Proof.
  intros Hslot (Hlen & Hsol & Hmon & Htre & Hagree).
  split; [rewrite gen_cycle_length; assumption|].
  assert (Hnat : (Z.to_nat (g_slot st) < length (g_tiles st))%nat) by lia.
  specialize (Hagree (g_slot st) Hslot) as Hcur.
  unfold gen_cycle.
  destruct (tile_at (g_tiles st) (g_slot st)) eqn:Etile;
    cbn [g_solution g_monsters g_treasures g_tiles];
    (split; [try apply in_u64_slot_set; try apply in_u64_slot_unset; assumption|]);
    (split; [try apply in_u64_slot_set; try apply in_u64_slot_unset; assumption|]);
    (split; [try apply in_u64_slot_set; try apply in_u64_slot_unset; assumption|]);
    intros i Hi; cbn [g_solution g_monsters g_treasures g_tiles];
    rewrite tile_at_store by lia;
    rewrite ?truthy_slot_set, ?truthy_slot_unset by assumption;
    destruct (Hagree i Hi) as (Ha & Hb & Hc);
    destruct (Z.eqb_spec i (g_slot st)) as [->|Hne]; cbn [negb andb orb Tile_eqb];
    try (repeat split; assumption);
    destruct Hcur as (Ha' & Hb' & Hc'); cbn [Tile_eqb] in *;
    repeat split; assumption.
Qed.

Lemma boards_agree_disjoint st : boards_ok st -> boards_disjoint st.
Proof.
  intros (Hlen & Hsol & Hmon & Htre & Hagree).
  assert (Hbits : forall a b,
             in_u64 a -> in_u64 b ->
             (forall i, 0 <= i < 64 ->
                truthy (slot_is_set a i) && truthy (slot_is_set b i) = false) ->
             Z.land a b = 0).
  { intros a b Ha Hb H. apply Z.bits_inj'. intros k Hk.
    rewrite Z.land_spec, Z.testbit_0_l.
    destruct (Z.ltb_spec k 64) as [Hlt|Hge].
    - specialize (H (63 - k) ltac:(lia)).
      rewrite !truthy_slot_is_set in H by lia. unfold slot_bit in H.
      replace (63 - (63 - k)) with k in H by lia. assumption.
    - rewrite (testbit_in_u64_high a k) by assumption. reflexivity. }
  repeat split; apply Hbits; try assumption; intros i Hi;
    destruct (Hagree i Hi) as (Ha & Hb & Hc); rewrite ?Ha, ?Hb, ?Hc;
    destruct (tile_at (g_tiles st) i); reflexivity.
Qed.

Lemma gen_body_boards max_puzzles st :
  g_tiles (gen_body max_puzzles st) = g_tiles (gen_cycle st)
  /\ g_solution (gen_body max_puzzles st) = g_solution (gen_cycle st)
  /\ g_monsters (gen_body max_puzzles st) = g_monsters (gen_cycle st)
  /\ g_treasures (gen_body max_puzzles st) = g_treasures (gen_cycle st).
Proof.
  unfold gen_body. cbv zeta.
  destruct (gen_checks _ _ _); [|repeat split].
  destruct (g_slot (gen_cycle st) <? 63); [repeat split|].
  destruct (g_puzzle_i (gen_cycle st) <? max_puzzles); repeat split.
Qed.

Lemma gen_body_boards_ok max_puzzles st :
  0 <= g_slot st < 64 -> boards_ok st -> boards_ok (gen_body max_puzzles st).
Proof.
  intros Hslot Hok. apply gen_cycle_boards_ok in Hok; [|assumption].
  destruct (gen_body_boards max_puzzles st) as (Et & Es & Em & Etr).
  unfold boards_ok, boards_agree in *. rewrite Et, Es, Em, Etr. exact Hok.
Qed.

Lemma gen_init_boards_ok puzzles : boards_ok (gen_init puzzles).
Proof.
  unfold boards_ok, gen_init. cbn [g_tiles g_solution g_monsters g_treasures].
  split; [reflexivity|]. repeat (split; [apply in_u64_0|]).
  intros i Hi. cbn [g_tiles g_solution g_monsters g_treasures].
  assert (E : tile_at (repeat EMPTY 64) i = EMPTY).
  { unfold tile_at. apply nth_repeat. }
  rewrite E, !truthy_slot_is_set, Z.testbit_0_l by assumption.
  repeat split.
Qed.

Lemma gen_cond_slot st : gen_cond st = true -> 0 <= g_slot st < 64.
Proof.
  unfold gen_cond. intros H. apply andb_true_iff in H as [H H2].
  apply andb_true_iff in H as [_ H1]. apply Z.leb_le in H1. apply Z.ltb_lt in H2. lia.
Qed.

(** C10.  In every state the generator reaches, and also right after the
    tile of the current slot has been cycled, each of the 64 slots has its
    bit set in exactly the grid that matches its tile tag (walls, monsters
    or treasures; none for an empty tile), and the three grids are pairwise
    disjoint. *)
Theorem generate_boards_agree (puzzles : list GeneratedPuzzle) (max_puzzles : Z) (k : nat) :
  let st := Nat.iter k (iter gen_cond (gen_body max_puzzles)) (gen_init puzzles) in
  (boards_agree st /\ boards_disjoint st)
  /\ (gen_cond st = true ->
      boards_agree (gen_cycle st) /\ boards_disjoint (gen_cycle st)).
Proof.
  intros st.
  assert (Hok : boards_ok st).
  { apply steps_invariant; [|apply gen_init_boards_ok].
    intros st' Hok' Hcond. apply gen_body_boards_ok; [|assumption].
    apply gen_cond_slot, Hcond. }
  split.
  - split; [apply Hok|apply boards_agree_disjoint, Hok].
  - intros Hcond. apply gen_cond_slot in Hcond.
    pose proof (gen_cycle_boards_ok st Hcond Hok) as Hok'.
    split; [apply Hok'|apply boards_agree_disjoint, Hok'].
Qed.

Lemma generate_boards_agree_witness :
  let st := Nat.iter 3 (iter gen_cond (gen_body 8)) (gen_init []) in
  boards_agree (gen_cycle st) /\ boards_disjoint (gen_cycle st).
Proof.
  apply (proj2 (generate_boards_agree [] 8 3)). vm_compute. reflexivity.
Defined.

(** ** The generator terminates *)

Lemma digit_range t : 1 <= digit t <= 4.
Proof. destruct t; cbn [digit]; lia. Qed.

Lemma next_digit_range t : 1 <= next_digit t <= 4.
Proof. destruct t; cbn [next_digit]; lia. Qed.

Lemma pow5_pos e : 0 <= e -> 0 < 5 ^ e.
Proof. intros H. apply Z.pow_pos_nonneg; lia. Qed.

Lemma pow5_succ e : 0 <= e -> 5 ^ (e + 1) = 5 * 5 ^ e.
Proof. intros H. rewrite Z.pow_add_r by lia. change (5 ^ 1) with 5. lia. Qed.

Lemma tiles_key_store tiles i t n :
  (n <= i)%nat -> tiles_key (store tiles i t) n = tiles_key tiles n.
Proof.
  intros Hn. induction n as [|n IH]; [reflexivity|].
  cbn [tiles_key]. rewrite IH by lia. rewrite nth_store.
  destruct (Nat.eqb_spec n i); [lia|]. reflexivity.
Qed.

Lemma tiles_key_bound tiles n :
  (n <= 64)%nat -> 0 <= tiles_key tiles n /\ tiles_key tiles n + 5 ^ (64 - Z.of_nat n) <= 5 ^ 64.
Proof.
  intros Hn. induction n as [|n IH].
  - cbn [tiles_key]. change (64 - Z.of_nat 0) with 64. lia.
  - specialize (IH ltac:(lia)). cbn [tiles_key].
    pose proof (digit_range (nth n tiles EMPTY)) as Hd.
    pose proof (pow5_pos (63 - Z.of_nat n) ltac:(lia)) as Hp.
    replace (64 - Z.of_nat n) with (63 - Z.of_nat n + 1) in IH by lia.
    rewrite pow5_succ in IH by lia.
    replace (64 - Z.of_nat (S n)) with (63 - Z.of_nat n) by lia.
    set (P := 5 ^ (63 - Z.of_nat n)) in *. clearbody P. nia.
Qed.

Lemma subtree_end_empty tiles s :
  0 <= s <= 63 -> tile_at tiles s = EMPTY ->
  subtree_end tiles s = subtree_end tiles (s - 1).
Proof.
  intros Hs He. unfold subtree_end.
  replace (Z.to_nat (s + 1)) with (S (Z.to_nat s)) by lia.
  replace (s - 1 + 1) with s by lia. cbn [tiles_key].
  unfold tile_at in He. rewrite He, Z2Nat.id by lia. cbn [digit].
  replace (63 - (s - 1)) with (63 - s + 1) by lia.
  rewrite pow5_succ by lia. lia.
Qed.

Lemma gen_backtrack_spec fuel : forall tiles s,
  -1 <= s <= 63 -> fuel = Z.to_nat (s + 1) ->
  -1 <= gen_backtrack fuel tiles s <= s
  /\ subtree_end tiles (gen_backtrack fuel tiles s) = subtree_end tiles s
  /\ (0 <= gen_backtrack fuel tiles s ->
      tile_at tiles (gen_backtrack fuel tiles s) <> EMPTY).
Proof.
  induction fuel as [|fuel IH]; intros tiles s Hs Hfuel.
  - assert (s = -1) by lia. subst s. cbn [gen_backtrack].
    repeat split; lia.
  - assert (Hs0 : 0 <= s) by lia. cbn [gen_backtrack].
    destruct (Z.geb_spec s 0); [|lia]. cbn [andb].
    destruct (tile_at tiles s) eqn:Et; cbn [Tile_eqb];
      try (repeat split; [lia|lia|intros _; rewrite Et; discriminate]).
    destruct (IH tiles (s - 1) ltac:(lia) ltac:(lia)) as (H1 & H2 & H3).
    split; [lia|]. split; [|assumption].
    rewrite H2. symmetry. apply subtree_end_empty; [lia|assumption].
Qed.

Lemma gen_cycle_tiles st :
  g_tiles (gen_cycle st)
  = store (g_tiles st) (Z.to_nat (g_slot st))
          (match tile_at (g_tiles st) (g_slot st) with
           | TREASURE => MONSTER | MONSTER => WALL | WALL => EMPTY | EMPTY => TREASURE
           end).
Proof. unfold gen_cycle. destruct (tile_at (g_tiles st) (g_slot st)); reflexivity. Qed.

(** After the [switch], the key of the visited node is [gen_key]. *)
Lemma gen_cycle_key st :
  0 <= g_slot st < 64 -> length (g_tiles st) = 64%nat ->
  tiles_key (g_tiles (gen_cycle st)) (Z.to_nat (g_slot st + 1)) = gen_key st.
Proof.
  intros Hs Hlen. unfold gen_key.
  replace (Z.to_nat (g_slot st + 1)) with (S (Z.to_nat (g_slot st))) by lia.
  cbn [tiles_key]. rewrite gen_cycle_tiles, tiles_key_store, nth_store by lia.
  rewrite Nat.eqb_refl. destruct (Nat.ltb_spec (Z.to_nat (g_slot st)) (length (g_tiles st)));
    [|lia]. cbn [andb]. rewrite Z2Nat.id by lia.
  destruct (tile_at (g_tiles st) (g_slot st)); reflexivity.
Qed.

Lemma gen_body_shape max_puzzles st :
  g_returned (gen_body max_puzzles st) = true
  \/ (g_slot st < 63 /\ g_slot (gen_body max_puzzles st) = g_slot st + 1)
  \/ g_slot (gen_body max_puzzles st)
     = gen_backtrack (Z.to_nat (g_slot st + 1)) (g_tiles (gen_cycle st)) (g_slot st).
Proof.
  unfold gen_body. cbv zeta. rewrite !gen_cycle_slot.
  destruct (gen_checks _ _ _); [|right; right; reflexivity].
  destruct (Z.ltb_spec (g_slot st) 63); [right; left; split; [assumption|reflexivity]|].
  destruct (g_puzzle_i (gen_cycle st) <? max_puzzles);
    [right; right; reflexivity|left; reflexivity].
Qed.

Lemma gen_key_at_backtrack tiles s st :
  g_tiles st = tiles -> g_slot st = s -> 0 <= s -> tile_at tiles s <> EMPTY ->
  gen_key st = subtree_end tiles s.
Proof.
  intros <- <- Hs Hne. unfold gen_key, subtree_end.
  replace (Z.to_nat (g_slot st + 1)) with (S (Z.to_nat (g_slot st))) by lia.
  cbn [tiles_key]. unfold tile_at in *. rewrite Z2Nat.id by lia.
  destruct (nth (Z.to_nat (g_slot st)) (g_tiles st) EMPTY);
    cbn [digit next_digit]; try lia. contradiction.
Qed.

(** Every turn moves to a later node of the traversal. *)
Lemma gen_body_key max_puzzles st :
  gen_cond st = true -> length (g_tiles st) = 64%nat ->
  gen_key st < 5 ^ 64
  /\ (gen_cond (gen_body max_puzzles st) = true ->
      gen_key st < gen_key (gen_body max_puzzles st) <= 5 ^ 64).
Proof.
  intros Hcond Hlen. pose proof (gen_cond_slot st Hcond) as Hs.
  pose proof (gen_cycle_key st Hs Hlen) as Hkey.
  assert (Hlen' : length (g_tiles (gen_cycle st)) = 64%nat)
    by (rewrite gen_cycle_length; assumption).
  pose proof (tiles_key_bound (g_tiles (gen_cycle st)) (Z.to_nat (g_slot st + 1))
                ltac:(lia)) as [Hk0 Hk1].
  rewrite Hkey, Z2Nat.id in Hk1 by lia.
  replace (64 - (g_slot st + 1)) with (63 - g_slot st) in Hk1 by lia.
  pose proof (pow5_pos (63 - g_slot st) ltac:(lia)) as Hp.
  split; [lia|]. intros Hcond'.
  pose proof (gen_cond_slot _ Hcond') as Hs'.
  destruct (gen_body_boards max_puzzles st) as (Et & _).
  destruct (gen_body_shape max_puzzles st) as [Hret|[[Hlt Hadv]|Hback]].
  - unfold gen_cond in Hcond'. rewrite Hret in Hcond'. discriminate.
  - assert (E : gen_key (gen_body max_puzzles st)
                = gen_key st
                  + next_digit (tile_at (g_tiles (gen_cycle st)) (g_slot st + 1))
                    * 5 ^ (63 - (g_slot st + 1))).
    { unfold gen_key at 1. rewrite Et, Hadv, Hkey. reflexivity. }
    rewrite E.
    pose proof (next_digit_range (tile_at (g_tiles (gen_cycle st)) (g_slot st + 1))) as Hd.
    pose proof (pow5_pos (63 - (g_slot st + 1)) ltac:(lia)) as Hq.
    replace (63 - g_slot st) with (63 - (g_slot st + 1) + 1) in Hk1 by lia.
    rewrite pow5_succ in Hk1 by lia.
    set (Q := 5 ^ (63 - (g_slot st + 1))) in *. clearbody Q. nia.
  - destruct (gen_backtrack_spec (Z.to_nat (g_slot st + 1)) (g_tiles (gen_cycle st))
                (g_slot st) ltac:(lia) eq_refl) as (Hb1 & Hb2 & Hb3).
    rewrite <- Hback in Hb1, Hb2, Hb3.
    rewrite (gen_key_at_backtrack (g_tiles (gen_cycle st))
               (g_slot (gen_body max_puzzles st)) _ Et eq_refl) by (try apply Hb3; lia).
    rewrite Hb2. unfold subtree_end. rewrite Hkey. lia.
Qed.

Lemma gen_measure_decreases max_puzzles st :
  length (g_tiles st) = 64%nat -> gen_cond st = true ->
  length (g_tiles (gen_body max_puzzles st)) = 64%nat
  /\ 0 <= gen_measure (gen_body max_puzzles st) < gen_measure st.
Proof.
  intros Hlen Hcond.
  destruct (gen_body_key max_puzzles st Hcond Hlen) as [H1 H2].
  split.
  - destruct (gen_body_boards max_puzzles st) as (-> & _).
    rewrite gen_cycle_length. assumption.
  - unfold gen_measure. rewrite Hcond.
    destruct (gen_cond (gen_body max_puzzles st)); [specialize (H2 eq_refl)|]; lia.
Qed.

(** The loop of [generate] has exited in the state [generate] reads its
    result from. *)
Lemma generate_terminates puzzles max_puzzles :
  gen_cond (run gen_cond (gen_body max_puzzles) gen_depth (gen_init puzzles)) = false.
Proof.
  assert (Hinit : gen_measure (gen_init puzzles) <= 5 ^ 64).
  { unfold gen_measure. destruct (gen_cond (gen_init puzzles)); [|lia].
    unfold gen_key, gen_init. cbn [g_tiles g_slot]. 
    change (Z.to_nat 0) with 0%nat. cbn [tiles_key].
    pose proof (next_digit_range (tile_at (repeat EMPTY 64) 0)).
    pose proof (pow5_pos (63 - 0) ltac:(lia)). nia. }
  assert (Hnonneg : 0 <= gen_measure (gen_init puzzles)).
  { unfold gen_measure. destruct (gen_cond (gen_init puzzles)) eqn:E; [|lia].
    destruct (gen_body_key max_puzzles (gen_init puzzles) E eq_refl). lia. }
  set (mu := gen_measure (gen_init puzzles)) in *.
  assert (Hdone : gen_cond (Nat.iter (Z.to_nat mu) (iter gen_cond (gen_body max_puzzles))
                                     (gen_init puzzles)) = false).
  { apply (steps_measure gen_cond (gen_body max_puzzles)
             (fun st => length (g_tiles st) = 64%nat) gen_measure).
    - intros st Hlen Hcond. apply gen_measure_decreases; assumption.
    - reflexivity.
    - fold mu. rewrite Z2Nat.id by assumption. lia. }
  rewrite (run_reaches_Z gen_cond (gen_body max_puzzles) gen_depth (Z.to_nat mu));
    [assumption|assumption|].
  rewrite Z2Nat.id by assumption. change (Z.of_nat gen_depth) with 149.
  assert (5 ^ 64 <= 2 ^ 149) by (vm_compute; discriminate). lia.
Qed.

(** ** The generator: the count stays within the capacity *)

Lemma gen_cycle_outputs st :
  g_puzzle_i (gen_cycle st) = g_puzzle_i st
  /\ g_puzzles (gen_cycle st) = g_puzzles st
  /\ g_returned (gen_cycle st) = g_returned st.
Proof.
  unfold gen_cycle. destruct (tile_at (g_tiles st) (g_slot st)); repeat split.
Qed.

Lemma u64_succ_le x : 0 <= x -> 0 <= u64_succ x <= x + 1.
Proof.
  intros Hx. unfold u64_succ.
  pose proof (Z.mod_pos_bound (x + 1) (2 ^ 64) ltac:(reflexivity)).
  pose proof (Z.mod_le (x + 1) (2 ^ 64) ltac:(lia) ltac:(reflexivity)). lia.
Qed.

Lemma gen_body_count max_puzzles st :
  0 <= g_puzzle_i st <= max_puzzles ->
  0 <= g_puzzle_i (gen_body max_puzzles st) <= max_puzzles.
Proof.
  intros Hi. destruct (gen_cycle_outputs st) as (Ei & _).
  unfold gen_body. cbv zeta.
  destruct (gen_checks _ _ _); [|cbn [g_puzzle_i]; lia].
  destruct (g_slot (gen_cycle st) <? 63); [cbn [g_puzzle_i]; lia|].
  destruct (Z.ltb_spec (g_puzzle_i (gen_cycle st)) max_puzzles);
    cbn [g_puzzle_i]; [|lia].
  pose proof (u64_succ_le (g_puzzle_i (gen_cycle st)) ltac:(lia)). lia.
Qed.

(** ** The generator: which predicates it evaluates *)

(** C3, as stated, fails.  In the state reached after 11 turns the switch
    puts a wall on slot 3; the row-count predicate fails there (one wall
    against the local record's target 0), so the conjunction of the seven
    predicates fails, and yet the branch is not pruned: the search advances
    to slot 4. *)
Lemma generate_ignores_row_count_counterexample :
  let st := Nat.iter 11 (iter gen_cond (gen_body 8)) (gen_init []) in
  let st1 := gen_cycle st in
  g_slot st = 3
  /\ tile_at (g_tiles st1) 3 = WALL
  /\ check_row_count (g_puzzle st1) (g_solution st1) (g_slot st1) = false
  /\ check_constraints (g_puzzle st1) (g_solution st1) (g_slot st1) = false
  /\ g_slot (gen_body 8 st) = 4.
Proof. vm_compute. repeat split. Qed.

(** C3, amended.  After the tile of the current slot has been cycled,
    [generate] evaluates the monster-validity check on the toggled cell and
    five predicates of the constraint engine on its local record: no
    overlap, dead ends, monsters, wide space and treasure rooms; the
    row-count and column-count predicates are not evaluated.  When one of
    the six fails the branch is pruned: the slot does not advance and
    nothing is recorded.  When all six hold the search advances to the
    next slot, or at the last slot records the puzzle (while the count is
    below the capacity) or returns. *)
Theorem generate_evaluates_six_checks
    (max_puzzles : Z) (st : GenState) (Hcond : gen_cond st = true) :
  let st1 := gen_cycle st in
  let ok :=
    negb (is_invalid_monster (g_puzzle st1) (g_solution st1) (pos_from_slot (g_slot st)))
    && check_doesnt_overlap (g_puzzle st1) (g_solution st1)
    && check_dead_ends (g_puzzle st1) (g_solution st1) (g_slot st)
    && check_monsters (g_puzzle st1) (g_solution st1) (g_slot st)
    && check_wide_space (g_puzzle st1) (g_solution st1) (g_slot st)
    && check_treasure_rooms (g_puzzle st1) (g_solution st1) (g_slot st) in
  (ok = false ->
     g_slot (gen_body max_puzzles st) <= g_slot st
     /\ g_puzzle_i (gen_body max_puzzles st) = g_puzzle_i st
     /\ g_puzzles (gen_body max_puzzles st) = g_puzzles st
     /\ g_returned (gen_body max_puzzles st) = false)
  /\ (ok = true -> g_slot st < 63 ->
      g_slot (gen_body max_puzzles st) = g_slot st + 1
      /\ g_puzzle_i (gen_body max_puzzles st) = g_puzzle_i st
      /\ g_returned (gen_body max_puzzles st) = false)
  /\ (ok = true -> g_slot st = 63 ->
      if g_puzzle_i st <? max_puzzles
      then g_puzzle_i (gen_body max_puzzles st) = u64_succ (g_puzzle_i st)
           /\ g_returned (gen_body max_puzzles st) = false
      else g_puzzle_i (gen_body max_puzzles st) = g_puzzle_i st
           /\ g_returned (gen_body max_puzzles st) = true).
Proof.
  intros st1 ok. pose proof (gen_cond_slot st Hcond) as Hs.
  destruct (gen_cycle_outputs st) as (Ei & Ep & Er).
  assert (Hret : g_returned st = false).
  { unfold gen_cond in Hcond. destruct (g_returned st); [discriminate|reflexivity]. }
  assert (Eok : gen_checks (g_puzzle st1) (g_solution st1) (g_slot st1) = ok).
  { unfold gen_checks, ok, st1. cbv zeta. rewrite !gen_cycle_slot. reflexivity. }
  destruct (gen_backtrack_spec (Z.to_nat (g_slot st + 1)) (g_tiles (gen_cycle st))
              (g_slot st) ltac:(lia) eq_refl) as (Hb & _).
  assert (Hslot1 : g_slot st1 = g_slot st) by apply gen_cycle_slot.
  unfold gen_body. cbv zeta. fold st1. rewrite Eok, !Hslot1.
  fold st1 in Ei, Ep, Er, Hb.
  clear Eok. clearbody ok.
  split; [|split].
  - intros ->. cbn [g_slot g_puzzle_i g_puzzles g_returned].
    repeat split; try assumption; lia.
  - intros -> Hlt. destruct (Z.ltb_spec (g_slot st) 63); [|lia].
    cbn [g_slot g_puzzle_i g_puzzles g_returned]. repeat split; assumption.
  - intros -> Hlast. destruct (Z.ltb_spec (g_slot st) 63); [lia|].
    rewrite Ei. destruct (g_puzzle_i st <? max_puzzles);
      cbn [g_puzzle_i g_returned]; split; reflexivity.
Qed.

Lemma generate_evaluates_six_checks_witness :
  let st := Nat.iter 11 (iter gen_cond (gen_body 8)) (gen_init []) in
  g_slot (gen_body 8 st) = g_slot st + 1
  /\ g_puzzle_i (gen_body 8 st) = g_puzzle_i st
  /\ g_returned (gen_body 8 st) = false.
Proof.
  intros st.
  assert (Hcond : gen_cond st = true) by (vm_compute; reflexivity).
  apply (proj1 (proj2 (generate_evaluates_six_checks 8 st Hcond))).
  - vm_compute. reflexivity.
  - vm_compute. reflexivity.
Defined.

(** ** Masks built from cells, and what [count_set_bits] counts on them *)

Lemma room_mask_cells center : room_mask center = fold_left pos_set (room_cells center) 0.
Proof. reflexivity. Qed.

Lemma nodupb_NoDup l : nodupb l = true -> NoDup l.
Proof.
  induction l as [|x l IH]; intros H; [constructor|].
  cbn [nodupb] in H. apply andb_true_iff in H as [H1 H2].
  constructor; [|apply IH, H2].
  intros Hin. apply negb_true_iff in H1.
  assert (existsb (Z.eqb x) l = true); [|congruence].
  apply existsb_exists. exists x. split; [assumption|apply Z.eqb_refl].
Qed.

Lemma popcount_pow2 k : 0 <= k -> popcount (2 ^ k) = 1.
Proof.
  intros Hk. rewrite <- (Z2Nat.id k) by assumption.
  induction (Z.to_nat k) as [|n IH]; [reflexivity|].
  rewrite Nat2Z.inj_succ, Z.pow_succ_r, popcount_double by lia. exact IH.
Qed.

Lemma popcount_set_bit m k :
  0 <= m -> 0 <= k -> Z.testbit m k = false ->
  popcount (Z.lor m (2 ^ k)) = popcount m + 1.
Proof.
  intros Hm Hk Hbit.
  pose proof (popcount_lor_land m (2 ^ k) Hm ltac:(apply Z.pow_nonneg; lia)) as H.
  rewrite land_bit, Hbit, popcount_pow2 in H by assumption.
  cbn [popcount] in H. lia.
Qed.

Lemma popcount_set_bit_le m k :
  0 <= m -> 0 <= k -> popcount (Z.lor m (2 ^ k)) <= popcount m + 1.
Proof.
  intros Hm Hk.
  pose proof (popcount_lor_land m (2 ^ k) Hm ltac:(apply Z.pow_nonneg; lia)) as H.
  rewrite popcount_pow2 in H by assumption.
  pose proof (popcount_nonneg (Z.land m (2 ^ k))). lia.
Qed.

Lemma pos_set_nonneg m q : 0 <= m -> 0 <= pos_set m q.
Proof.
  intros Hm. unfold pos_set. destruct (pos_out_of_range q); [assumption|].
  apply Z.lor_nonneg. split; [assumption|].
  unfold u64_shl. apply Z.land_nonneg. right. unfold u64_mask.
  change (Z.ones 64) with (2 ^ 64 - 1). lia.
Qed.

Lemma in_u64_fold_pos_set cells m : in_u64 m -> in_u64 (fold_left pos_set cells m).
Proof.
  revert m. induction cells as [|q cells IH]; intros m Hm; [assumption|].
  cbn [fold_left]. apply IH, in_u64_pos_set, Hm.
Qed.

Lemma cell_in_range_true q : cell_in_range q = true -> pos_in_range q.
Proof.
  unfold cell_in_range. intros H. apply negb_true_iff in H.
  apply pos_out_of_range_false_inv, H.
Qed.

Lemma cell_in_range_false q : cell_in_range q = false -> ~ pos_in_range q.
Proof.
  unfold cell_in_range. intros H Hin. rewrite pos_range_false in H by assumption.
  discriminate.
Qed.

(** The walls among a list of distinct cells, counted on the mask. *)
Lemma popcount_land_cells g cells : forall m,
  0 <= m -> 0 <= g ->
  NoDup (in_range_bits cells) ->
  (forall k, In k (in_range_bits cells) -> Z.testbit m k = false) ->
  popcount (Z.land (fold_left pos_set cells m) g)
  = popcount (Z.land m g) + Z.of_nat (length (filter (cell_wall g) cells)).
Proof.
  induction cells as [|q cells IH]; intros m Hm Hg Hnd Hfresh.
  - cbn [fold_left filter length]. lia.
  - cbn [fold_left filter]. unfold in_range_bits in Hnd, Hfresh.
    cbn [filter] in Hnd, Hfresh. unfold cell_wall at 1.
    destruct (cell_in_range q) eqn:Eq; cbn [andb].
    + pose proof (cell_in_range_true q Eq) as Hq.
      pose proof (pos_bit_range q Hq) as Hk.
      cbn [map] in Hnd, Hfresh. inversion Hnd as [|? ? Hnotin Hnd']; subst.
      rewrite IH; try assumption.
      * rewrite pos_set_eq, pos_is_set_eq, truthy_land_bit by (assumption || lia).
        rewrite Z.land_lor_distr_l.
        assert (Hfree : Z.testbit (Z.land m g) (pos_bit q) = false).
        { rewrite Z.land_spec, Hfresh by (left; reflexivity). reflexivity. }
        rewrite (Z.land_comm (2 ^ pos_bit q) g), land_bit by lia.
        destruct (Z.testbit g (pos_bit q)); cbn [length].
        -- rewrite popcount_set_bit; [lia| |lia|assumption].
           apply Z.land_nonneg. left. assumption.
        -- rewrite Z.lor_0_r. lia.
      * apply pos_set_nonneg, Hm.
      * intros k Hin. rewrite pos_set_eq, testbit_set_bit by (assumption || lia).
        rewrite Hfresh by (right; assumption).
        destruct (Z.eqb_spec k (pos_bit q)) as [->|]; [contradiction|reflexivity].
    + pose proof (cell_in_range_false q Eq) as Hq.
      assert (E : pos_set m q = m)
        by (unfold pos_set; rewrite pos_range_true by assumption; reflexivity).
      rewrite E. apply IH; assumption.
Qed.

Lemma popcount_cells_le cells : forall m,
  0 <= m ->
  popcount (fold_left pos_set cells m)
  <= popcount m + Z.of_nat (length (filter cell_in_range cells)).
Proof.
  induction cells as [|q cells IH]; intros m Hm.
  - cbn [fold_left filter length]. lia.
  - cbn [fold_left filter]. specialize (IH (pos_set m q) (pos_set_nonneg m q Hm)).
    destruct (cell_in_range q) eqn:Eq.
    + pose proof (cell_in_range_true q Eq) as Hq.
      pose proof (pos_bit_range q Hq) as Hk.
      rewrite pos_set_eq in IH |- * by assumption.
      pose proof (popcount_set_bit_le m (pos_bit q) Hm ltac:(lia)).
      cbn [length]. lia.
    + pose proof (cell_in_range_false q Eq) as Hq.
      assert (E : pos_set m q = m)
        by (unfold pos_set; rewrite pos_range_true by assumption; reflexivity).
      rewrite E in IH |- *. exact IH.
Qed.

Lemma filter_length_le {A : Type} (f : A -> bool) l :
  (length (filter f l) <= length l)%nat.
Proof.
  induction l as [|x l IH]; [apply Nat.le_refl|].
  cbn [filter]. destruct (f x); cbn [length]; lia.
Qed.

Lemma filter_length_lt {A : Type} (f : A -> bool) l x :
  In x l -> f x = false -> (length (filter f l) < length l)%nat.
Proof.
  induction l as [|y l IH]; intros Hin Hx; [destruct Hin|].
  cbn [filter]. destruct Hin as [->|Hin].
  - rewrite Hx. pose proof (filter_length_le f l). cbn [length]. lia.
  - specialize (IH Hin Hx). destruct (f y); cbn [length]; lia.
Qed.

Lemma filter_split_length {A : Type} (a b : A -> bool) l :
  (length (filter (fun x => a x && b x) l)
   + length (filter (fun x => a x && negb (b x)) l)
   = length (filter a l))%nat.
Proof.
  induction l as [|x l IH]; [reflexivity|].
  cbn [filter]. destruct (a x), (b x); cbn [andb negb length]; lia.
Qed.

(** ** The border rule of the treasure rooms *)

Lemma inner_centers_nodup :
  forallb (fun c => nodupb (in_range_bits (walls_cells c))) inner_centers = true.
Proof. vm_compute. reflexivity. Qed.

Lemma In_inner_centers c :
  1 <= row c <= 6 -> 1 <= col c <= 6 -> In c inner_centers.
Proof.
  destruct c as [r c]. cbn [row col]. intros Hr Hc.
  assert (Er : r = 1 \/ r = 2 \/ r = 3 \/ r = 4 \/ r = 5 \/ r = 6) by lia.
  assert (Ec : c = 1 \/ c = 2 \/ c = 3 \/ c = 4 \/ c = 5 \/ c = 6) by lia.
  clear Hr Hc. unfold inner_centers. apply in_flat_map. exists r. split.
  - cbn [In]. intuition congruence.
  - apply in_map. cbn [In]. intuition congruence.
Qed.

Lemma cell_out r c :
  r < 0 \/ 8 <= r \/ c < 0 \/ 8 <= c -> cell_in_range (mkPos r c) = false.
Proof.
  intros H. unfold cell_in_range. rewrite pos_range_true; [reflexivity|].
  unfold pos_in_range. cbn [row col]. lia.
Qed.

(** A room of nine cells has its centre in rows 1..6 and columns 1..6. *)
Lemma room_center_inner center :
  count_set_bits (room_mask center) = 9 ->
  1 <= row center <= 6 /\ 1 <= col center <= 6.
Proof.
  intros H9. rewrite count_set_bits_popcount, room_mask_cells in H9
    by (rewrite room_mask_cells; apply in_u64_fold_pos_set, in_u64_0).
  pose proof (popcount_cells_le (room_cells center) 0 ltac:(lia)) as Hle.
  cbn [popcount] in Hle.
  assert (Hall : forall q, In q (room_cells center) -> cell_in_range q = true).
  { intros q Hin. destruct (cell_in_range q) eqn:E; [reflexivity|].
    pose proof (filter_length_lt cell_in_range (room_cells center) q Hin E) as Hlt.
    cbn [room_cells length] in Hlt. lia. }
  assert (H1 : cell_in_range (mkPos (row center - 1) (col center - 1)) = true)
    by (apply Hall; cbn [room_cells In]; tauto).
  assert (H2 : cell_in_range (mkPos (row center + 1) (col center + 1)) = true)
    by (apply Hall; cbn [room_cells In]; tauto).
  apply cell_in_range_true in H1, H2. unfold pos_in_range in H1, H2.
  cbn [row col] in H1, H2. lia.
Qed.

Lemma walls_mask_in_u64 center : in_u64 (walls_mask center).
Proof. unfold walls_mask. apply in_u64_fold_pos_set, in_u64_0. Qed.

Lemma land_u64_ones m : in_u64 m -> Z.land m (Z.ones 64) = m.
Proof. intros [H0 H1]. rewrite Z.land_ones by lia. apply Z.mod_small. lia. Qed.

(** On the border of a room that lies on the grid, the two counts the
    source compares differ by the number of openings. *)
Lemma border_counts center g :
  in_u64 g -> 1 <= row center <= 6 -> 1 <= col center <= 6 ->
  count_set_bits (walls_mask center) - count_set_bits (Z.land (walls_mask center) g)
  = border_openings center g.
Proof.
  intros Hg Hr Hc.
  assert (Hnd : NoDup (in_range_bits (walls_cells center))).
  { apply nodupb_NoDup.
    pose proof inner_centers_nodup as H. rewrite forallb_forall in H.
    apply (H center), In_inner_centers; assumption. }
  pose proof (walls_mask_in_u64 center) as Hw.
  rewrite (count_set_bits_popcount (walls_mask center)) by assumption.
  rewrite (count_set_bits_popcount (Z.land (walls_mask center) g))
    by (apply in_u64_land_l; [assumption|apply Hg]).
  rewrite <- (land_u64_ones (walls_mask center) Hw) at 1.
  unfold walls_mask.
  rewrite !popcount_land_cells; try assumption; try apply Hg; try lia;
    try (intros k _; apply Z.testbit_0_l).
  2:{ change (Z.ones 64) with (2 ^ 64 - 1). lia. }
  rewrite !Z.land_0_l. cbn [popcount]. unfold border_openings.
  pose proof (filter_split_length cell_in_range
                (fun q => truthy (pos_is_set g q)) (walls_cells center)) as Hsplit.
  cbv beta in Hsplit.
  assert (Hones : filter (cell_wall (Z.ones 64)) (walls_cells center)
                  = filter cell_in_range (walls_cells center)).
  { apply filter_ext. intros q. unfold cell_wall.
    destruct (cell_in_range q) eqn:E; [|reflexivity]. cbn [andb].
    apply cell_in_range_true in E. pose proof (pos_bit_range q E).
    rewrite pos_is_set_eq, truthy_land_bit by (assumption || lia).
    apply Z.ones_spec_low. lia. }
  rewrite Hones.
  change (filter (cell_wall g) (walls_cells center))
    with (filter (fun q => cell_in_range q && truthy (pos_is_set g q))
                 (walls_cells center)).
  change (filter (cell_open g) (walls_cells center))
    with (filter (fun q => cell_in_range q && negb (truthy (pos_is_set g q)))
                 (walls_cells center)).
  lia.
Qed.

Lemma last_slot_pos slot :
  0 <= slot < 64 ->
  (row (pos_from_slot slot) =? 7) && (col (pos_from_slot slot) =? 7) = (slot =? 63).
Proof.
  intros Hs. unfold pos_from_slot. cbn [row col].
  rewrite Z.quot_div_nonneg, Z.rem_mod_nonneg by lia.
  pose proof (Z.div_mod slot 8 ltac:(lia)).
  pose proof (Z.mod_pos_bound slot 8 ltac:(lia)).
  destruct (Z.eqb_spec (slot / 8) 7); destruct (Z.eqb_spec (slot mod 8) 7);
    destruct (Z.eqb_spec slot 63); cbn [andb]; try reflexivity; lia.
Qed.

(** C7, as stated, fails.  Slot 19 (row 2, column 3) comes after the
    bottom-right corner (slot 18) of the room centred at (1, 1) in slot
    order, and with no wall placed the border of that room has six
    openings, not one; yet the room is not invalid. *)
Lemma treasure_room_slot_order_counterexample :
  (row (mkPos 1 1) + 1) * 8 + (col (mkPos 1 1) + 1) < 19
  /\ border_openings (mkPos 1 1) 0 = 6
  /\ is_invalid_treasure_room treasure_at_1_1 0 (mkPos 1 1) (mkPos 1 1) 19 = false.
Proof. vm_compute. repeat split. Qed.

(** C7, amended.  For a candidate room that passes the earlier tests (nine
    cells on the grid, no monster, other treasure or wall inside, no
    monster or treasure on its border): when the toggled cell lies at
    least two rows below and at least two columns right of the centre (so
    beyond the bottom-right corner in both coordinates), or is the last
    cell of the grid (slot 63), the room is invalid unless its border has
    exactly one cell that is not a wall; otherwise it is invalid only when
    its border has no such cell. *)
Theorem treasure_room_border_rule
    (pz : Puzzle) (g : Z) (treasure center : Pos) (slot : Z)
    (Hg : in_u64 g) (Hslot : 0 <= slot < 64)
    (Hroom : count_set_bits (room_mask center) = 9)
    (Hinside : Z.land (room_mask center) (monsters pz) = 0
               /\ Z.land (room_mask center) (pos_unset (treasures pz) treasure) = 0
               /\ Z.land (room_mask center) g = 0)
    (Hborder : Z.land (walls_mask center) (monsters pz) = 0
               /\ Z.land (walls_mask center) (treasures pz) = 0) :
  is_invalid_treasure_room pz g treasure center slot
  = if ((row center + 2 <=? row (pos_from_slot slot))
        && (col center + 2 <=? col (pos_from_slot slot)))
       || (slot =? 63)
    then negb (border_openings center g =? 1)
    else border_openings center g =? 0.
Proof.
  destruct (room_center_inner center Hroom) as [Hr Hc].
  pose proof (border_counts center g Hg Hr Hc) as Hcount.
  destruct Hinside as (Hi1 & Hi2 & Hi3). destruct Hborder as (Hb1 & Hb2).
  unfold is_invalid_treasure_room. cbv zeta.
  rewrite Hroom, Hi1, Hi2, Hi3, Hb1, Hb2. cbn [Z.eqb Pos.eqb negb truthy orb].
  unfold strict_room_check. cbv zeta.
  rewrite last_slot_pos, !Z.geb_leb by assumption.
  revert Hcount. generalize (border_openings center g).
  generalize (count_set_bits (Z.land (walls_mask center) g)).
  generalize (count_set_bits (walls_mask center)). intros total closed openings Hcount.
  destruct ((row center + 2 <=? row (pos_from_slot slot))
            && (col center + 2 <=? col (pos_from_slot slot)) || (slot =? 63)).
  - destruct (Z.eqb_spec closed (total - 1)); destruct (Z.eqb_spec openings 1);
      cbn [negb]; try reflexivity; lia.
  - destruct (Z.eqb_spec closed total); destruct (Z.eqb_spec openings 0);
      try reflexivity; lia.
Qed.

Lemma treasure_room_border_rule_witness :
  is_invalid_treasure_room treasure_at_1_1 0 (mkPos 1 1) (mkPos 1 1) 19
  = if ((row (mkPos 1 1) + 2 <=? row (pos_from_slot 19))
        && (col (mkPos 1 1) + 2 <=? col (pos_from_slot 19)))
       || (19 =? 63)
    then negb (border_openings (mkPos 1 1) 0 =? 1)
    else border_openings (mkPos 1 1) 0 =? 0.
Proof.
  apply (treasure_room_border_rule treasure_at_1_1 0 (mkPos 1 1) (mkPos 1 1) 19).
  - apply in_u64_0.
  - lia.
  - vm_compute. reflexivity.
  - vm_compute. repeat split.
  - vm_compute. repeat split.
Defined.

(** ** The enumeration is complete *)

Lemma prefix_step g s :
  0 <= s < 64 ->
  prefix g s = if Z.testbit g (slot_bit s) then slot_set (prefix g (s - 1)) s
               else prefix g (s - 1).
Proof.
  intros Hs. apply Z.bits_inj'. intros i Hi.
  destruct (Z.testbit g (slot_bit s)) eqn:Ebit;
    rewrite ?testbit_slot_set, !testbit_prefix by lia; unfold slot_bit in *;
    destruct (Z.eqb_spec i (63 - s)) as [Heq|Hne];
    destruct (Z.leb_spec (63 - s) i); destruct (Z.leb_spec (63 - (s - 1)) i);
    destruct (Z.ltb_spec i 64); try lia; cbn [andb orb];
    try (rewrite Heq); rewrite ?Ebit, ?andb_true_r, ?andb_false_r; reflexivity.
Qed.

Lemma clear_from_prefix g s : -1 <= s < 64 -> clear_from (prefix g s) (s + 1).
Proof.
  intros Hs j Hj. rewrite testbit_prefix by assumption. unfold slot_bit.
  destruct (Z.leb_spec (63 - s) (63 - j)); [lia|]. apply andb_false_r.
Qed.

(** Every prefix-valid grid is found. *)
Lemma dfs_complete pz g n : forall s,
  Z.of_nat (S n) = 64 - s -> 0 <= s -> in_u64 g -> prefix_valid pz g ->
  In g (dfs (S n) pz (prefix g (s - 1)) s).
Proof.
  induction n as [|n IH]; intros s Hn Hs Hg Hvalid.
  all: assert (Hs63 : 0 <= s < 64) by lia.
  all: pose proof (prefix_step g s Hs63) as Hstep.
  all: pose proof (Hvalid s Hs63) as Hcheck.
  all: cbn [dfs]; apply in_or_app.
  all: destruct (Z.testbit g (slot_bit s)); [left|right]; rewrite <- Hstep.
  all: apply visit_In; [exact Hcheck|].
  all: destruct (Z.ltb_spec s 63) as [Hlt|Hge]; try lia.
  1,2: assert (s = 63) by lia; subst s; symmetry; apply prefix_full, Hg.
  all: replace (prefix g s) with (prefix g (s + 1 - 1)) by (f_equal; lia).
  all: apply IH; try assumption; lia.
Qed.

Lemma all_solutions_complete pz g :
  in_u64 g -> prefix_valid pz g -> In g (all_solutions pz).
Proof.
  intros Hg Hvalid. rewrite all_solutions_eq.
  assert (E : prefix g (0 - 1) = 0).
  { apply Z.bits_inj'. intros i Hi. rewrite testbit_prefix, Z.testbit_0_l by lia.
    destruct (Z.leb_spec (63 - (0 - 1)) i); destruct (Z.ltb_spec i 64); try lia;
      rewrite ?andb_false_r; reflexivity. }
  rewrite <- E at 1. apply (dfs_complete pz g 63 0); try assumption; [reflexivity|lia].
Qed.

(** ** From the generator's checks to the solver's *)

Lemma geom_counts_ok : forallb geom_counts all_slots = true.
Proof. vm_compute. reflexivity. Qed.

Lemma geom_cells_ok : forallb geom_cells all_slots = true.
Proof. vm_compute. reflexivity. Qed.

Lemma geom_rooms_ok : geom_rooms = true.
Proof. vm_compute. reflexivity. Qed.

Lemma check_doesnt_overlap_true pz g :
  check_doesnt_overlap pz g = true <->
  Z.land g (treasures pz) = 0 /\ Z.land g (monsters pz) = 0.
Proof.
  unfold check_doesnt_overlap, truthy.
  destruct (Z.eqb_spec (Z.land g (treasures pz)) 0);
    destruct (Z.eqb_spec (Z.land g (monsters pz)) 0); cbn [negb orb];
    split; try discriminate; tauto.
Qed.

Lemma gen_checks_true pz g s :
  gen_checks pz g s = true <->
  is_invalid_monster pz g (pos_from_slot s) = false
  /\ check_doesnt_overlap pz g = true /\ check_dead_ends pz g s = true
  /\ check_monsters pz g s = true /\ check_wide_space pz g s = true
  /\ check_treasure_rooms pz g s = true.
Proof.
  unfold gen_checks. cbv zeta. rewrite !andb_true_iff, negb_true_iff. tauto.
Qed.

Lemma land_prefix_zero g X s : Z.land g X = 0 -> Z.land (prefix g s) X = 0.
Proof.
  intros H. unfold prefix.
  rewrite <- Z.land_assoc, (Z.land_comm (prefix_mask s) X), Z.land_assoc, H.
  apply Z.land_0_l.
Qed.

Lemma prefix_mask_nonneg s : -1 <= s -> 0 <= prefix_mask s.
Proof.
  intros Hs. unfold prefix_mask. apply Z.shiftl_nonneg.
  rewrite Z.ones_equiv. apply Z.lt_le_pred. apply Z.pow_pos_nonneg; lia.
Qed.

Lemma count_set_bits_prefix_le mask g s :
  0 <= mask -> in_u64 g -> -1 <= s ->
  count_set_bits (Z.land mask (prefix g s)) <= count_set_bits (Z.land mask g).
Proof.
  intros Hmask Hg Hs.
  rewrite !count_set_bits_popcount
    by (apply in_u64_land_r; [assumption|try apply in_u64_prefix; assumption]).
  unfold prefix. rewrite Z.land_assoc.
  apply popcount_land_le; [|apply prefix_mask_nonneg, Hs].
  apply Z.land_nonneg. left. assumption.
Qed.

Lemma count_set_bits_land_le mask g :
  0 <= mask -> in_u64 g ->
  0 <= count_set_bits (Z.land mask g) <= popcount mask.
Proof.
  intros Hmask Hg.
  rewrite count_set_bits_popcount by (apply in_u64_land_r; assumption).
  split; [apply popcount_nonneg|]. apply popcount_land_le; [assumption|apply Hg].
Qed.

Lemma array_get_map_range8 (f : Z -> Z) r :
  0 <= r < 8 -> array_get (map f range8) r = f r.
Proof.
  intros Hr.
  assert (E : r = 0 \/ r = 1 \/ r = 2 \/ r = 3 \/ r = 4 \/ r = 5 \/ r = 6 \/ r = 7)
    by lia.
  destruct E as [->|[->|[->|[->|[->|[->|[->| ->]]]]]]]; reflexivity.
Qed.

Lemma u8_cast_small x : 0 <= x <= 8 -> u8_cast x = x.
Proof. intros H. unfold u8_cast. apply Z.mod_small. lia. Qed.

Section GeneratedGrid.
Variables M T g : Z.
Hypothesis HM : in_u64 M.
Hypothesis HT : in_u64 T.
Hypothesis Hg : in_u64 g.
Hypothesis Hvalid : gen_prefix_valid M T g.

Lemma generated_last :
  gen_checks (mkPuzzle zero_counts zero_counts M T) g 63 = true.
Proof.
  pose proof (Hvalid 63 ltac:(lia)) as H. unfold gen_puzzle_at in H.
  rewrite !prefix_full in H by assumption. exact H.
Qed.

Lemma generated_overlap s :
  check_doesnt_overlap (valid_puzzle M T g) (prefix g s) = true.
Proof.
  pose proof generated_last as H. apply gen_checks_true in H as (_ & H & _).
  apply check_doesnt_overlap_true in H as [H1 H2]. cbn [treasures monsters] in H1, H2.
  apply check_doesnt_overlap_true. cbn [valid_puzzle treasures monsters].
  split; apply land_prefix_zero; assumption.
Qed.

Lemma generated_row_count s :
  0 <= s < 64 -> check_row_count (valid_puzzle M T g) (prefix g s) s = true.
Proof.
  intros Hs.
  pose proof (all_slots_forall _ geom_counts_ok s Hs) as G.
  pose proof (all_slots_forall _ geom_row_ok s Hs) as G'.
  unfold geom_counts in G. unfold geom_row in G'. cbv zeta in G, G'.
  repeat (apply andb_true_iff in G as [G ?]).
  repeat (apply andb_true_iff in G' as [G' ?]).
  apply Z.leb_le in G.
  repeat match goal with
         | H : (_ <? _) = true |- _ => apply Z.ltb_lt in H
         | H : (_ <=? _) = true |- _ => apply Z.leb_le in H
         end.
  set (r := row (pos_from_slot s)) in *.
  assert (Hmask : 0 <= Z.shiftr 0xff00000000000000 (r * 8))
    by (apply Z.shiftr_nonneg; lia).
  assert (Hle : count_set_bits (Z.land (Z.shiftr 0xff00000000000000 (r * 8)) g) <= 8).
  { pose proof (count_set_bits_land_le _ g Hmask Hg). lia. }
  pose proof (count_set_bits_land_le _ g Hmask Hg) as [Hcount0 _].
  pose proof (count_set_bits_prefix_le _ g s Hmask Hg ltac:(lia)) as Hpre.
  apply check_row_count_true. fold r. cbn [valid_puzzle row_wall_counts].
  rewrite array_get_map_range8 by lia.
  rewrite !count_walls_in_row_eq, u8_cast_small by lia.
  split; [exact Hpre|]. intros Hcol.
  match goal with H : implb (col (pos_from_slot s) =? 7) _ = true |- _ =>
    rewrite Hcol in H; cbn [Z.eqb Pos.eqb implb] in H; apply Z.eqb_eq in H;
    rename H into Hend end.
  match goal with H : covers _ (row_end s) = true |- _ =>
    rewrite Hend in H; rewrite (covers_land _ g s H) end.
  reflexivity.
Qed.

Lemma generated_col_count s :
  0 <= s < 64 -> check_col_count (valid_puzzle M T g) (prefix g s) s = true.
Proof.
  intros Hs.
  pose proof (all_slots_forall _ geom_counts_ok s Hs) as G.
  pose proof (all_slots_forall _ geom_col_ok s Hs) as G'.
  unfold geom_counts in G. unfold geom_col in G'. cbv zeta in G, G'.
  repeat (apply andb_true_iff in G as [G ?]).
  repeat (apply andb_true_iff in G' as [G' ?]).
  apply Z.leb_le in G.
  repeat match goal with
         | H : (_ <? _) = true |- _ => apply Z.ltb_lt in H
         | H : (_ <=? _) = true |- _ => apply Z.leb_le in H
         end.
  set (c := col (pos_from_slot s)) in *.
  assert (Hmask : 0 <= Z.shiftr 0x8080808080808080 c)
    by (apply Z.shiftr_nonneg; lia).
  assert (Hle : count_set_bits (Z.land (Z.shiftr 0x8080808080808080 c) g) <= 8).
  { pose proof (count_set_bits_land_le _ g Hmask Hg). lia. }
  pose proof (count_set_bits_land_le _ g Hmask Hg) as [Hcount0 _].
  pose proof (count_set_bits_prefix_le _ g s Hmask Hg ltac:(lia)) as Hpre.
  apply check_col_count_true. fold c. cbn [valid_puzzle col_wall_counts].
  rewrite array_get_map_range8 by lia.
  rewrite !count_walls_in_col_eq, u8_cast_small by lia.
  split; [exact Hpre|]. intros Hrow.
  match goal with H : implb (row (pos_from_slot s) =? 7) _ = true |- _ =>
    rewrite Hrow in H; cbn [Z.eqb Pos.eqb implb] in H; apply Z.eqb_eq in H;
    rename H into Hend end.
  match goal with H : covers _ (col_end s) = true |- _ =>
    rewrite Hend in H; rewrite (covers_land _ g s H) end.
  reflexivity.
Qed.
End GeneratedGrid.

Lemma is_dead_end_puzzle pz pz' g q :
  Z.land (pos_set 0 q) (treasures pz) = Z.land (pos_set 0 q) (treasures pz') ->
  Z.land (pos_set 0 q) (monsters pz) = Z.land (pos_set 0 q) (monsters pz') ->
  is_dead_end pz g q = is_dead_end pz' g q.
Proof. intros H1 H2. unfold is_dead_end. cbv zeta. rewrite H1, H2. reflexivity. Qed.

Lemma is_invalid_monster_puzzle pz pz' g q :
  Z.land (pos_set 0 q) (monsters pz) = Z.land (pos_set 0 q) (monsters pz') ->
  Z.land (neighbours_mask q) (monsters pz) = Z.land (neighbours_mask q) (monsters pz') ->
  Z.land (neighbours_mask q) (treasures pz)
  = Z.land (neighbours_mask q) (treasures pz') ->
  is_invalid_monster pz g q = is_invalid_monster pz' g q.
Proof.
  intros H1 H2 H3. unfold is_invalid_monster. cbv zeta. rewrite H1, H2, H3.
  reflexivity.
Qed.

Lemma generated_dead_ends M T g s :
  0 <= s < 64 ->
  check_dead_ends (gen_puzzle_at M T s) (prefix g s) s = true ->
  check_dead_ends (valid_puzzle M T g) (prefix g s) s = true.
Proof.
  intros Hs H. pose proof (all_slots_forall _ geom_cells_ok s Hs) as G.
  unfold geom_cells in G. cbv zeta in G.
  repeat (apply andb_true_iff in G as [G ?]).
  apply check_dead_ends_true in H as (Ha & Hl & Hp).
  apply check_dead_ends_true.
  assert (Hsame : forall q, covers (pos_set 0 q) s = true ->
            is_dead_end (valid_puzzle M T g) (prefix g s) q
            = is_dead_end (gen_puzzle_at M T s) (prefix g s) q).
  { intros q Hq. apply is_dead_end_puzzle;
      unfold valid_puzzle, gen_puzzle_at; cbn [treasures monsters];
      symmetry; apply covers_land, Hq. }
  rewrite !Hsame by assumption. auto.
Qed.

Lemma generated_monsters M T g s :
  0 <= s < 64 ->
  check_monsters (gen_puzzle_at M T s) (prefix g s) s = true ->
  check_monsters (valid_puzzle M T g) (prefix g s) s = true.
Proof.
  intros Hs H. pose proof (all_slots_forall _ geom_cells_ok s Hs) as G.
  unfold geom_cells in G. cbv zeta in G.
  repeat (apply andb_true_iff in G as [G ?]).
  apply check_monsters_true in H as (Ha & Hrest).
  apply check_monsters_true.
  assert (Hsame : forall q,
            covers (pos_set 0 q) s = true -> covers (neighbours_mask q) s = true ->
            is_invalid_monster (valid_puzzle M T g) (prefix g s) q
            = is_invalid_monster (gen_puzzle_at M T s) (prefix g s) q).
  { intros q Hq Hn. apply is_invalid_monster_puzzle;
      unfold valid_puzzle, gen_puzzle_at; cbn [treasures monsters];
      symmetry; apply covers_land; assumption. }
  split.
  - rewrite Hsame by assumption. exact Ha.
  - intros Er. destruct (Hrest Er) as [Hl Hp].
    assert (Erb : (row (pos_from_slot s) =? 7) = true) by (apply Z.eqb_eq, Er).
    match goal with K : implb (row (pos_from_slot s) =? 7) _ = true |- _ =>
      rewrite Erb in K; cbn [implb] in K; rename K into Kl end.
    split.
    + rewrite Hsame by assumption. exact Hl.
    + intros Ec.
      assert (Ecb : (col (pos_from_slot s) =? 7) = true) by (apply Z.eqb_eq, Ec).
      match goal with K : implb ((row (pos_from_slot s) =? 7) && _) _ = true |- _ =>
        rewrite Erb, Ecb in K; cbn [implb andb] in K; rename K into Kp end.
      rewrite Hsame by assumption. exact (Hp Ec).
Qed.

Lemma truthy_land_prefix A X s :
  truthy (Z.land A (prefix X s)) = true -> truthy (Z.land A X) = true.
Proof.
  unfold truthy. destruct (Z.eqb_spec (Z.land A X) 0) as [E|]; [|reflexivity].
  unfold prefix. rewrite Z.land_assoc, E, Z.land_0_l. intros H. exact H.
Qed.

Lemma generated_wide_space M T g s :
  0 <= s < 64 ->
  check_wide_space (gen_puzzle_at M T s) (prefix g s) s = true ->
  check_wide_space (valid_puzzle M T g) (prefix g s) s = true.
Proof.
  intros Hs. pose proof (all_slots_forall _ geom_wide_ok s Hs) as G.
  unfold geom_wide in G.
  unfold check_wide_space, valid_puzzle, gen_puzzle_at. cbv zeta.
  cbn [treasures monsters].
  rewrite !(covers_land _ _ s G).
  match goal with |- (if ?c then _ else _) = true -> _ => destruct c end;
    [|reflexivity].
  destruct (truthy (Z.land (space_neighbours (pos_from_slot s)) (prefix T s))) eqn:E;
    [|discriminate].
  rewrite (truthy_land_prefix _ _ _ E). reflexivity.
Qed.

Lemma treasure_scan_true pz g s ps :
  treasure_scan pz g s ps = true <->
  forall t, In t ps -> truthy (pos_is_set (treasures pz) t) = true ->
            is_invalid_treasure pz g t s = false.
Proof.
  induction ps as [|p ps IH]; cbn [treasure_scan].
  - split; [intros _ t []|reflexivity].
  - destruct (truthy (pos_is_set (treasures pz) p)) eqn:Et.
    + destruct (is_invalid_treasure pz g p s) eqn:Ei.
      * split; [discriminate|]. intros H.
        rewrite <- Ei. symmetry. apply (H p); [left; reflexivity|exact Et].
      * rewrite IH. split.
        -- intros H t [<-|Hin] Ht; [exact Ei|apply H; assumption].
        -- intros H t Hin. apply H. right. exact Hin.
    + rewrite IH. split.
      * intros H t [<-|Hin] Ht; [congruence|apply H; assumption].
      * intros H t Hin. apply H. right. exact Hin.
Qed.

Lemma forallb_false {A : Type} (f : A -> bool) l :
  forallb f l = false <-> exists x, In x l /\ f x = false.
Proof.
  induction l as [|y l IH]; cbn [forallb].
  - split; [discriminate|]. intros (x & [] & _).
  - destruct (f y) eqn:Ey; cbn [andb].
    + rewrite IH. split.
      * intros (x & Hin & Hx). exists x. split; [right; exact Hin|exact Hx].
      * intros (x & [<-|Hin] & Hx); [congruence|]. exists x. split; assumption.
    + split; [|reflexivity]. intros _. exists y. split; [left; reflexivity|exact Ey].
Qed.

Lemma is_invalid_treasure_false pz g t s :
  is_invalid_treasure pz g t s = false <->
  exists c, In c (room_centers t) /\ is_invalid_treasure_room pz g t c s = false.
Proof. rewrite is_invalid_treasure_forallb. apply forallb_false. Qed.

Lemma walls_mask_nonneg c : 0 <= walls_mask c.
Proof. apply walls_mask_in_u64. Qed.

(** A room that is valid on the complete grid is valid, with the same
    records of monsters and treasures, on every prefix. *)
Lemma room_prefix pz pz' g t c s :
  in_u64 g -> 0 <= s < 64 ->
  monsters pz' = monsters pz -> treasures pz' = treasures pz ->
  is_invalid_treasure_room pz g t c 63 = false ->
  is_invalid_treasure_room pz' (prefix g s) t c s = false.
Proof.
  intros Hg Hs Hm Ht. unfold is_invalid_treasure_room. cbv zeta.
  rewrite Hm, Ht, strict_room_check_last.
  destruct (negb (count_set_bits (room_mask c) =? 9)) eqn:E9; [discriminate|].
  destruct (truthy (Z.land (room_mask c) (monsters pz))
            || truthy (Z.land (room_mask c) (pos_unset (treasures pz) t)));
    [discriminate|].
  destruct (truthy (Z.land (room_mask c) g)) eqn:Eroom; [discriminate|].
  assert (Eroom' : truthy (Z.land (room_mask c) (prefix g s)) = false).
  { unfold truthy in *. apply negb_false_iff in Eroom. apply Z.eqb_eq in Eroom.
    unfold prefix. rewrite Z.land_assoc, Eroom, Z.land_0_l. reflexivity. }
  rewrite Eroom'.
  destruct (truthy (Z.land (walls_mask c) (monsters pz))
            || truthy (Z.land (walls_mask c) (treasures pz)));
    [discriminate|].
  pose proof (count_set_bits_prefix_le (walls_mask c) g s (walls_mask_nonneg c) Hg
                ltac:(lia)) as Hle.
  destruct (strict_room_check c s) eqn:Estrict.
  - apply negb_false_iff, Z.eqb_eq in E9.
    destruct (room_center_inner c E9) as [Hr Hc].
    pose proof geom_rooms_ok as G. unfold geom_rooms in G.
    rewrite forallb_forall in G.
    specialize (G c (In_inner_centers c Hr Hc)).
    pose proof (all_slots_forall _ G s Hs) as Gs. cbv beta in Gs.
    rewrite Estrict in Gs. cbn [implb] in Gs.
    rewrite (covers_land _ g s Gs). intros H. exact H.
  - revert Hle.
    generalize (count_set_bits (Z.land (walls_mask c) (prefix g s))).
    generalize (count_set_bits (Z.land (walls_mask c) g)).
    generalize (count_set_bits (walls_mask c)). intros total closed closed' Hle.
    destruct (Z.eqb_spec closed (total - 1)); [|discriminate].
    intros _. destruct (Z.eqb_spec closed' total); [lia|reflexivity].
Qed.

Lemma generated_treasure_rooms M T g s :
  in_u64 g -> 0 <= s < 64 ->
  check_treasure_rooms (mkPuzzle zero_counts zero_counts M T) g 63 = true ->
  check_treasure_rooms (valid_puzzle M T g) (prefix g s) s = true.
Proof.
  intros Hg Hs. unfold check_treasure_rooms. cbn [valid_puzzle treasures].
  destruct (T =? 0); [reflexivity|].
  rewrite !treasure_scan_true. intros H t Hin Ht.
  specialize (H t Hin Ht). apply is_invalid_treasure_false in H as (c & Hc & Hroom).
  apply is_invalid_treasure_false. exists c. split; [exact Hc|].
  apply (room_prefix (mkPuzzle zero_counts zero_counts M T)); try assumption;
    reflexivity.
Qed.

(** A grid accepted by the generator, slot after slot, is prefix-valid for
    the puzzle derived from it. *)
Lemma generated_prefix_valid M T g :
  in_u64 M -> in_u64 T -> in_u64 g -> gen_prefix_valid M T g ->
  prefix_valid (valid_puzzle M T g) g.
Proof.
  intros HM HT Hg Hvalid s Hs.
  pose proof (Hvalid s Hs) as H. apply gen_checks_true in H.
  destruct H as (_ & _ & Hd & Hmon & Hw & _).
  pose proof (generated_last M T g HM HT Hg Hvalid) as Hlast.
  apply gen_checks_true in Hlast. destruct Hlast as (_ & _ & _ & _ & _ & Hrooms).
  apply check_constraints_true.
  split; [apply generated_overlap; assumption|].
  split; [apply generated_row_count; assumption|].
  split; [apply generated_col_count; assumption|].
  split; [apply generated_dead_ends; assumption|].
  split; [apply generated_monsters; assumption|].
  split; [apply generated_wide_space; assumption|].
  apply generated_treasure_rooms; assumption.
Qed.

(** ** The invariant of the generator's search *)

Lemma gen_cycle_touched st :
  touched (g_slot st) (g_solution st) (g_solution (gen_cycle st))
  /\ touched (g_slot st) (g_monsters st) (g_monsters (gen_cycle st))
  /\ touched (g_slot st) (g_treasures st) (g_treasures (gen_cycle st)).
Proof.
  unfold gen_cycle, touched. destruct (tile_at (g_tiles st) (g_slot st));
    cbn [g_solution g_monsters g_treasures]; repeat split; tauto.
Qed.

Lemma prefix_slot_unset g s s' :
  in_u64 g -> 0 <= s < 64 -> -1 <= s' < s ->
  prefix (slot_unset g s) s' = prefix g s'.
Proof.
  intros Hg Hs Hs'. apply Z.bits_inj'. intros i Hi.
  rewrite !testbit_prefix, testbit_slot_unset by (assumption || lia). unfold slot_bit.
  destruct (Z.eqb_spec i (63 - s)) as [Heq|Hne]; [|reflexivity].
  destruct (Z.leb_spec (63 - s') i); [lia|].
  cbn [negb andb]. rewrite !andb_false_r. reflexivity.
Qed.

Lemma touched_prefix s X X1 s' :
  in_u64 X -> 0 <= s < 64 -> -1 <= s' < s -> touched s X X1 ->
  prefix X1 s' = prefix X s'.
Proof.
  intros HX Hs Hs' [->|[->| ->]];
    [reflexivity|apply prefix_slot_set; lia|apply prefix_slot_unset; assumption].
Qed.

Lemma touched_clear s X X1 :
  in_u64 X -> 0 <= s < 64 -> touched s X X1 ->
  clear_from X (s + 1) -> clear_from X1 (s + 1).
Proof.
  intros HX Hs [->|[->| ->]] Hclear; [assumption| |]; intros j Hj.
  - rewrite testbit_slot_set, Hclear by lia. unfold slot_bit.
    destruct (Z.eqb_spec (63 - j) (63 - s)); [lia|reflexivity].
  - rewrite testbit_slot_unset, Hclear by (assumption || lia). apply andb_false_r.
Qed.

Lemma gen_backtrack_skipped fuel : forall tiles s,
  -1 <= s <= 63 -> fuel = Z.to_nat (s + 1) ->
  forall j, gen_backtrack fuel tiles s < j <= s -> tile_at tiles j = EMPTY.
Proof.
  induction fuel as [|fuel IH]; intros tiles s Hs Hfuel j Hj.
  - cbn [gen_backtrack] in Hj. lia.
  - cbn [gen_backtrack] in Hj.
    destruct (Z.geb_spec s 0); [|lia]. cbn [andb] in Hj.
    destruct (tile_at tiles s) eqn:Et; cbn [Tile_eqb] in Hj; try lia.
    destruct (Z.eq_dec j s) as [->|Hne]; [exact Et|].
    apply (IH tiles (s - 1)); lia.
Qed.

Lemma search_ok_ext st st' slot :
  g_tiles st' = g_tiles st -> g_solution st' = g_solution st ->
  g_monsters st' = g_monsters st -> g_treasures st' = g_treasures st ->
  search_ok st slot -> search_ok st' slot.
Proof.
  intros Et Es Em Etr. unfold search_ok, boards_ok, boards_agree.
  rewrite Et, Es, Em, Etr. tauto.
Qed.

(** The state right after the [switch]. *)
Lemma search_ok_cycle st :
  0 <= g_slot st < 64 -> search_ok st (g_slot st) ->
  search_ok (gen_cycle st) (g_slot st).
Proof.
  intros Hs (Hok & _ & Hc1 & Hc2 & Hc3 & Hchecks).
  pose proof Hok as (_ & Hsol & Hmon & Htre & _).
  destruct (gen_cycle_touched st) as (T1 & T2 & T3).
  split; [apply gen_cycle_boards_ok; assumption|].
  split; [lia|].
  split; [apply (touched_clear _ _ _ Hsol Hs T1 Hc1)|].
  split; [apply (touched_clear _ _ _ Hmon Hs T2 Hc2)|].
  split; [apply (touched_clear _ _ _ Htre Hs T3 Hc3)|].
  intros s Hlt. unfold gen_puzzle_at.
  rewrite (touched_prefix _ _ _ s Hsol Hs ltac:(lia) T1).
  rewrite (touched_prefix _ _ _ s Hmon Hs ltac:(lia) T2).
  rewrite (touched_prefix _ _ _ s Htre Hs ltac:(lia) T3).
  apply Hchecks, Hlt.
Qed.

(** The check of the current slot, once passed, extends the record. *)
Lemma search_ok_advance st :
  0 <= g_slot st < 64 -> search_ok st (g_slot st) ->
  gen_checks (g_puzzle st) (g_solution st) (g_slot st) = true ->
  forall s, 0 <= s < g_slot st + 1 ->
    gen_checks (gen_puzzle_at (g_monsters st) (g_treasures st) s)
               (prefix (g_solution st) s) s = true.
Proof.
  intros Hs (Hok & _ & Hc1 & Hc2 & Hc3 & Hchecks) Hpass s Hlt.
  destruct (Z.eq_dec s (g_slot st)) as [->|Hne]; [|apply Hchecks; lia].
  pose proof Hok as (_ & Hsol & Hmon & Htre & _).
  unfold gen_puzzle_at. rewrite !prefix_clear by (assumption || lia).
  exact Hpass.
Qed.

(** Backtracking keeps the record of the slots it stays above. *)
Lemma search_ok_backtrack st :
  0 <= g_slot st < 64 -> search_ok st (g_slot st) ->
  search_ok st (gen_backtrack (Z.to_nat (g_slot st + 1)) (g_tiles st) (g_slot st)).
Proof.
  intros Hs (Hok & _ & Hc1 & Hc2 & Hc3 & Hchecks).
  destruct (gen_backtrack_spec (Z.to_nat (g_slot st + 1)) (g_tiles st) (g_slot st)
              ltac:(lia) eq_refl) as (Hb & _).
  pose proof (gen_backtrack_skipped (Z.to_nat (g_slot st + 1)) (g_tiles st) (g_slot st)
                ltac:(lia) eq_refl) as Hskip.
  set (back := gen_backtrack (Z.to_nat (g_slot st + 1)) (g_tiles st) (g_slot st)) in *.
  pose proof Hok as (_ & _ & _ & _ & Hagree).
  assert (Hclear : forall X,
             (forall j, 0 <= j < 64 ->
                tile_at (g_tiles st) j = EMPTY -> truthy (slot_is_set X j) = false) ->
             clear_from X (g_slot st + 1) -> clear_from X (back + 1)).
  { intros X Hempty Hc j Hj.
    destruct (Z_le_gt_dec j (g_slot st)) as [Hle|Hgt].
    - rewrite <- truthy_slot_is_set by lia. apply Hempty; [lia|]. apply Hskip. lia.
    - apply Hc. lia. }
  split; [exact Hok|]. split; [lia|].
  split; [apply Hclear; [|exact Hc1]|].
  { intros j Hj Ej. destruct (Hagree j Hj) as (-> & _). rewrite Ej. reflexivity. }
  split; [apply Hclear; [|exact Hc2]|].
  { intros j Hj Ej. destruct (Hagree j Hj) as (_ & -> & _). rewrite Ej. reflexivity. }
  split; [apply Hclear; [|exact Hc3]|].
  { intros j Hj Ej. destruct (Hagree j Hj) as (_ & _ & ->). rewrite Ej. reflexivity. }
  intros s Hlt. apply Hchecks. lia.
Qed.

Lemma search_ok_emit st :
  g_slot st = 63 -> search_ok st 63 ->
  gen_checks (g_puzzle st) (g_solution st) 63 = true ->
  generated_ok
    (mkGeneratedPuzzle
       (valid_puzzle (g_monsters st) (g_treasures st) (g_solution st))
       (fst (solve (valid_puzzle (g_monsters st) (g_treasures st) (g_solution st))
                   valid_puzzle_solutions 128))).
Proof.
  intros Hslot Hsearch Hpass.
  pose proof Hsearch as ((_ & Hsol & Hmon & Htre & _) & _).
  exists (g_monsters st), (g_treasures st), (g_solution st).
  split; [exact Hmon|]. split; [exact Htre|]. split; [exact Hsol|].
  cbn [gp_puzzle num_solutions].
  split; [reflexivity|]. split; [|apply solve_count].
  intros s Hs. rewrite <- Hslot in Hsearch, Hpass.
  apply (search_ok_advance st); [lia|exact Hsearch|exact Hpass|lia].
Qed.

Lemma gen_body_inv max_puzzles st :
  gen_inv max_puzzles st -> gen_cond st = true ->
  gen_inv max_puzzles (gen_body max_puzzles st).
Proof.
  intros (Hsearch & Hout) Hcond. apply gen_cond_slot in Hcond.
  pose proof (search_ok_cycle st Hcond Hsearch) as H1.
  destruct (gen_cycle_outputs st) as (Ei & Ep & _).
  unfold output_ok in Hout. rewrite <- Ei, <- Ep in Hout.
  rewrite <- (gen_cycle_slot st) in H1, Hcond.
  unfold gen_body. cbv zeta. clear Ei Ep Hsearch.
  generalize dependent (gen_cycle st). clear st. intros st Hout Hcond H1.
  destruct Hout as (Hi & Hlen & Hrec).
  destruct (gen_checks (g_puzzle st) (g_solution st) (g_slot st)) eqn:Hpass.
  - destruct (Z.ltb_spec (g_slot st) 63) as [Hlt|Hge].
    + split; [|exact (conj Hi (conj Hlen Hrec))].
      cbn [g_slot]. apply (search_ok_ext st); try reflexivity.
      pose proof (search_ok_advance st Hcond H1 Hpass) as Hadv.
      destruct H1 as (Hok & _ & Hc1 & Hc2 & Hc3 & _).
      split; [exact Hok|]. split; [lia|].
      split; [intros j Hj; apply Hc1; lia|].
      split; [intros j Hj; apply Hc2; lia|].
      split; [intros j Hj; apply Hc3; lia|].
      exact Hadv.
    + assert (Hslot : g_slot st = 63) by lia.
      destruct (Z.ltb_spec (g_puzzle_i st) max_puzzles) as [Hroom|Hfull].
      * split.
        { cbn [g_slot]. apply (search_ok_ext st); try reflexivity.
          apply search_ok_backtrack; assumption. }
        unfold output_ok. cbn [g_puzzle_i g_puzzles].
        pose proof (u64_succ_le (g_puzzle_i st) ltac:(lia)) as Hsucc.
        split; [lia|]. split; [rewrite store_length; exact Hlen|].
        intros j Hj. rewrite nth_store.
        destruct (Nat.eqb_spec (Z.to_nat j) (Z.to_nat (g_puzzle_i st))) as [Heq|Hne].
        { destruct (Nat.ltb_spec (Z.to_nat (g_puzzle_i st)) (length (g_puzzles st)));
            [|lia].
          cbn [andb]. rewrite Hslot in H1, Hpass.
          exact (search_ok_emit st Hslot H1 Hpass). }
        cbn [andb]. apply Hrec. lia.
      * split; [|exact (conj Hi (conj Hlen Hrec))].
        cbn [g_slot]. apply (search_ok_ext st); try reflexivity. exact H1.
  - split; [|exact (conj Hi (conj Hlen Hrec))].
    cbn [g_slot]. apply (search_ok_ext st); try reflexivity.
    apply search_ok_backtrack; assumption.
Qed.

Lemma clear_from_zero s : clear_from 0 s.
Proof. intros j _. apply Z.testbit_0_l. Qed.

Lemma gen_init_inv puzzles max_puzzles :
  Z.of_nat (length puzzles) = max_puzzles ->
  gen_inv max_puzzles (gen_init puzzles).
Proof.
  intros Hlen. split.
  - split; [apply gen_init_boards_ok|].
    unfold gen_init. cbn [g_slot g_solution g_monsters g_treasures].
    split; [lia|]. repeat (split; [apply clear_from_zero|]).
    intros s Hs. lia.
  - unfold output_ok, gen_init. cbn [g_puzzle_i g_puzzles].
    split; [lia|]. split; [lia|]. intros j Hj. lia.
Qed.

(** Every record [generate] has written comes from a grid that passed the
    six checks on each of its 64 slots. *)
Lemma generate_outputs puzzles max_puzzles :
  Z.of_nat (length puzzles) = max_puzzles ->
  output_ok max_puzzles
    (run gen_cond (gen_body max_puzzles) gen_depth (gen_init puzzles)).
Proof.
  intros Hlen.
  apply (run_invariant gen_cond (gen_body max_puzzles) (gen_inv max_puzzles)).
  - intros st Hinv Hcond. apply gen_body_inv; assumption.
  - apply gen_init_inv, Hlen.
Qed.

(** ** Generated puzzles are solvable *)

Lemma In_firstn_nth {A : Type} (d : A) : forall n (l : list A) x,
  In x (firstn n l) -> exists j, (j < n)%nat /\ nth j l d = x.
Proof.
  induction n as [|n IH]; intros l x Hin; [destruct Hin|].
  destruct l as [|y l]; [destruct Hin|].
  cbn [firstn] in Hin. destruct Hin as [->|Hin].
  - exists 0%nat. split; [lia|reflexivity].
  - destruct (IH l x Hin) as (j & Hj & Ej). exists (S j). split; [lia|exact Ej].
Qed.

Lemma generated_ok_solvable gp : generated_ok gp -> solvable_record gp.
Proof.
  intros (M & T & g & HM & HT & Hg & Epz & Hvalid & Enum).
  pose proof (generated_prefix_valid M T g HM HT Hg Hvalid) as Hsolver.
  rewrite <- Epz in Hsolver.
  pose proof (all_solutions_complete (gp_puzzle gp) g Hg Hsolver) as Hin.
  destruct (In_nth _ _ 0 Hin) as (k & Hk & Ek).
  assert (Hfull : check_constraints (gp_puzzle gp) g 63 = true).
  { rewrite <- (prefix_full g Hg) at 1. apply Hsolver. lia. }
  assert (Hsolve : forall solutions max_solutions,
             Z.of_nat (length solutions) = max_solutions ->
             fst (solve (gp_puzzle gp) solutions max_solutions) = num_solutions gp
             /\ (Z.of_nat k < max_solutions ->
                 nth (Z.to_nat (Z.of_nat k))
                     (snd (solve (gp_puzzle gp) solutions max_solutions)) 0 = g)).
  { intros solutions max_solutions Hcap.
    split; [rewrite solve_count; symmetry; exact Enum|].
    intros Hroom. rewrite solve_stored by lia. rewrite Nat2Z.id, Ek.
    clear Ek Hin Hsolver Hfull. revert Hk.
    generalize (all_solutions (gp_puzzle gp)). intros found Hk.
    destruct (Z.ltb_spec (Z.of_nat k) (Z.of_nat (length found))); [|lia].
    destruct (Z.ltb_spec (Z.of_nat k) max_solutions); [|lia].
    reflexivity. }
  clear Hin Ek Hsolver. revert Enum Hk.
  generalize (all_solutions (gp_puzzle gp)). intros found Enum Hk.
  split; [lia|].
  exists M, T, g, (Z.of_nat k).
  split; [exact Hg|]. split; [exact Epz|]. split; [exact Hvalid|].
  split; [exact Hfull|]. split; [lia|]. exact Hsolve.
Qed.

Lemma search_okb_ok st : search_okb st = true -> search_ok st (g_slot st).
Proof.
  unfold search_okb. cbv zeta. intros H.
  repeat (let H' := fresh "H" in apply andb_true_iff in H as [H H']).
  assert (Hu : forall X, (0 <=? X) && (X <? 2 ^ 64) = true -> in_u64 X).
  { intros X HX. apply andb_true_iff in HX as [Ha Hb].
    apply Z.leb_le in Ha. apply Z.ltb_lt in Hb. unfold in_u64. lia. }
  assert (Hc : forall X,
             forallb (fun j => implb (g_slot st + 1 <=? j)
                                     (negb (Z.testbit X (slot_bit j)))) all_slots = true ->
             clear_from X (g_slot st + 1)).
  { intros X HX j Hj.
    pose proof (all_slots_forall _ HX j ltac:(lia)) as Hb. cbv beta in Hb.
    destruct (Z.leb_spec (g_slot st + 1) j); [|lia]. cbn [implb] in Hb.
    apply negb_true_iff, Hb. }
  split.
  { split; [apply Nat.eqb_eq; assumption|].
    repeat (split; [apply Hu; assumption|]).
    intros i Hi.
    match goal with
    | K : forallb (fun _ => _ && _ && _) all_slots = true |- _ =>
        pose proof (all_slots_forall _ K i Hi) as Hb
    end.
    cbv beta in Hb. apply andb_true_iff in Hb as [Hb Hb3].
    apply andb_true_iff in Hb as [Hb1 Hb2].
    apply Bool.eqb_prop in Hb1, Hb2, Hb3. repeat split; assumption. }
  split; [split; [apply Z.leb_le|apply Z.leb_le]; assumption|].
  repeat (split; [apply Hc; assumption|]).
  intros s Hs.
  match goal with
  | K : forallb (fun _ => implb (_ <? _) _) all_slots = true |- _ =>
      pose proof (all_slots_forall _ K s ltac:(lia)) as Hb
  end.
  cbv beta in Hb. destruct (Z.ltb_spec s (g_slot st)); [|lia]. exact Hb.
Qed.

(** A turn of the loop on the last slot that passes the six checks with
    room left in the array writes a solvable record. *)
Lemma gen_body_emits max_puzzles st :
  search_okb st = true -> gen_cond st = true -> g_slot st = 63 ->
  gen_checks (g_puzzle (gen_cycle st)) (g_solution (gen_cycle st)) 63 = true ->
  0 <= g_puzzle_i st < max_puzzles ->
  Z.of_nat (length (g_puzzles st)) = max_puzzles ->
  g_puzzle_i (gen_body max_puzzles st) = u64_succ (g_puzzle_i st)
  /\ solvable_record
       (nth (Z.to_nat (g_puzzle_i st)) (g_puzzles (gen_body max_puzzles st)) no_puzzle).
Proof.
  intros Hb Hcond Hslot Hpass Hi Hlen.
  apply search_okb_ok in Hb. apply gen_cond_slot in Hcond.
  pose proof (search_ok_cycle st Hcond Hb) as H1. rewrite Hslot in H1.
  destruct (gen_cycle_outputs st) as (Ei & Ep & _).
  pose proof (search_ok_emit (gen_cycle st)
                ltac:(rewrite gen_cycle_slot; exact Hslot) H1 Hpass) as Hemit.
  unfold gen_body. cbv zeta. rewrite !gen_cycle_slot, Hslot, Hpass, Ei, Ep.
  rewrite Z.ltb_irrefl.
  destruct (Z.ltb_spec (g_puzzle_i st) max_puzzles); [|lia].
  cbn [g_puzzle_i g_puzzles]. split; [reflexivity|].
  rewrite nth_store, Nat.eqb_refl.
  destruct (Nat.ltb_spec (Z.to_nat (g_puzzle_i st)) (length (g_puzzles st))); [|lia].
  cbn [andb]. apply generated_ok_solvable. exact Hemit.
Qed.

(** C2.  Over an output array of [max_puzzles] records, every record that
    [generate] reports (the first [count] entries of the array, [count]
    being the returned value) has a solution count of at least 1, equal to
    what [solve] returns for the record, and comes from a grid accepted by
    the generator whose row and column wall counts are the record's: that
    grid satisfies all constraints of the record and is one of the
    solutions [solve] enumerates for it, stored in the solution array
    whenever its index is below the array's capacity.  The same holds for
    the record written by any single turn of the loop that completes a
    grid while the array has room. *)
Theorem generate_puzzles_solvable
    (puzzles : list GeneratedPuzzle) (max_puzzles : Z)
    (Hlen : Z.of_nat (length puzzles) = max_puzzles) :
  Forall solvable_record
         (firstn (Z.to_nat (fst (generate puzzles max_puzzles)))
                 (snd (generate puzzles max_puzzles)))
  /\ forall st,
       search_okb st = true -> gen_cond st = true -> g_slot st = 63 ->
       gen_checks (g_puzzle (gen_cycle st)) (g_solution (gen_cycle st)) 63 = true ->
       0 <= g_puzzle_i st < max_puzzles ->
       g_puzzles st = puzzles ->
       g_puzzle_i (gen_body max_puzzles st) = u64_succ (g_puzzle_i st)
       /\ solvable_record
            (nth (Z.to_nat (g_puzzle_i st)) (g_puzzles (gen_body max_puzzles st))
                 no_puzzle).
Proof.
  split.
  - pose proof (generate_outputs puzzles max_puzzles Hlen) as (Hi & _ & Hrec).
    unfold generate. cbv zeta. cbn [fst snd].
    revert Hi Hrec.
    generalize (run gen_cond (gen_body max_puzzles) gen_depth (gen_init puzzles)).
    intros st Hi Hrec.
    apply Forall_forall. intros gp Hin.
    destruct (In_firstn_nth no_puzzle _ _ _ Hin) as (j & Hj & <-).
    apply generated_ok_solvable.
    rewrite <- (Nat2Z.id j). apply Hrec. lia.
  - intros st Hb Hcond Hslot Hpass Hi Hp.
    apply gen_body_emits; try assumption. rewrite Hp. exact Hlen.
Qed.

Lemma generate_puzzles_solvable_witness :
  Forall solvable_record
         (firstn (Z.to_nat (fst (generate [no_puzzle] 1)))
                 (snd (generate [no_puzzle] 1)))
  /\ solvable_record
       (nth 0 (g_puzzles (gen_body 1 (ring_state [no_puzzle] 0))) no_puzzle).
Proof.
  split.
  - exact (proj1 (generate_puzzles_solvable [no_puzzle] 1 eq_refl)).
  - apply (proj2 (generate_puzzles_solvable [no_puzzle] 1 eq_refl)
                 (ring_state [no_puzzle] 0)).
    + vm_compute. reflexivity.
    + reflexivity.
    + reflexivity.
    + vm_compute. reflexivity.
    + cbn [ring_state g_puzzle_i]. lia.
    + reflexivity.
Defined.

(** * Further properties of the code *)

Lemma pos_from_slot_range slot :
  pos_out_of_range (pos_from_slot slot) = slot_out_of_range slot.
Proof.
  unfold pos_out_of_range, slot_out_of_range, pos_from_slot. cbn [row col].
  destruct (Z.ltb_spec slot 0); destruct (Z.geb_spec slot 64);
    destruct (Z.ltb_spec (Z.quot slot 8) 0); destruct (Z.geb_spec (Z.quot slot 8) 8);
    destruct (Z.ltb_spec (Z.rem slot 8) 0); destruct (Z.geb_spec (Z.rem slot 8) 8);
    cbn [orb]; try reflexivity; exfalso; Z.quot_rem_to_equations; lia.
Qed.

(** X1.  Slots and positions round-trip, in and out of bounds: for every
    slot, [pos_from_slot] gives a position whose index [row * 8 + col] is
    the slot and which is out of range exactly when the slot is, so that
    the three position helpers on it do what the slot helpers do on the
    slot; and every position on the grid is the position of its index. *)
Theorem slot_and_pos_helpers_agree (m slot : Z) :
  row (pos_from_slot slot) * 8 + col (pos_from_slot slot) = slot
  /\ pos_out_of_range (pos_from_slot slot) = slot_out_of_range slot
  /\ pos_set m (pos_from_slot slot) = slot_set m slot
  /\ pos_unset m (pos_from_slot slot) = slot_unset m slot
  /\ pos_is_set m (pos_from_slot slot) = slot_is_set m slot
  /\ forall pos, pos_out_of_range pos = false ->
       pos_from_slot (row pos * 8 + col pos) = pos.
Proof.
  assert (E : row (pos_from_slot slot) * 8 + col (pos_from_slot slot) = slot).
  { unfold pos_from_slot. cbn [row col]. pose proof (Z.quot_rem' slot 8). lia. }
  pose proof (pos_from_slot_range slot) as R.
  split; [exact E|]. split; [exact R|].
  unfold pos_set, pos_unset, pos_is_set, slot_set, slot_unset, slot_is_set.
  rewrite R, E. repeat split.
  intros pos Hpos. apply pos_from_slot_index, pos_out_of_range_false_inv, Hpos.
Qed.

Lemma slot_and_pos_helpers_agree_witness :
  pos_set 0 (pos_from_slot 10) = slot_set 0 10
  /\ pos_from_slot (row (mkPos 1 2) * 8 + col (mkPos 1 2)) = mkPos 1 2.
Proof.
  split.
  - exact (proj1 (proj2 (proj2 (slot_and_pos_helpers_agree 0 10)))).
  - apply (proj2 (proj2 (proj2 (proj2 (proj2 (slot_and_pos_helpers_agree 0 10)))))).
    reflexivity.
Defined.

Lemma filter_map_length {A B : Type} (f : B -> bool) (g : A -> B) l :
  length (filter f (map g l)) = length (filter (fun x => f (g x)) l).
Proof.
  induction l as [|x l IH]; [reflexivity|].
  cbn [map filter]. destruct (f (g x)); cbn [length]; rewrite IH; reflexivity.
Qed.

Lemma popcount_div2 n :
  0 <= n -> popcount n = Z.b2z (Z.testbit n 0) + popcount (Z.div2 n).
Proof. intros Hn. destruct n as [|[p|p|]|p]; try reflexivity; lia. Qed.

Lemma popcount_bits k : forall n,
  0 <= n < 2 ^ Z.of_nat k ->
  popcount n
  = Z.of_nat (length (filter (fun i => Z.testbit n (Z.of_nat i)) (seq 0 k))).
Proof.
  induction k as [|k IH]; intros n Hn.
  - assert (n = 0) by (cbn in Hn; lia). subst n. reflexivity.
  - rewrite popcount_div2 by lia.
    rewrite <- cons_seq, <- seq_shift. cbn [filter].
    assert (Hhalf : 0 <= Z.div2 n < 2 ^ Z.of_nat k).
    { rewrite Z.div2_div. rewrite Nat2Z.inj_succ, Z.pow_succ_r in Hn by lia.
      split; [apply Z.div_pos; lia|apply Z.div_lt_upper_bound; lia]. }
    rewrite (IH (Z.div2 n) Hhalf).
    assert (E : length (filter (fun i => Z.testbit n (Z.of_nat i)) (map S (seq 0 k)))
                = length (filter (fun i => Z.testbit (Z.div2 n) (Z.of_nat i))
                                 (seq 0 k))).
    { rewrite filter_map_length. f_equal. apply filter_ext. intros i.
      rewrite Z.div2_div, Z.div2_bits, Nat2Z.inj_succ by lia. reflexivity. }
    change (Z.of_nat 0) with 0.
    destruct (Z.testbit n 0); cbn [Z.b2z length]; rewrite E; lia.
Qed.

Lemma popcount_zero n : 0 <= n -> popcount n = 0 -> n = 0.
Proof.
  intros Hn H. destruct n as [|p|p]; [reflexivity| |lia].
  cbn [popcount] in H. pose proof (pos_popcount_pos p). lia.
Qed.

Lemma count_set_bits_eq n : count_set_bits n = count_set_bits_loop 64 n 0.
Proof. reflexivity. Qed.

(** X2.  For a 64-bit value, [count_set_bits] returns the number of bit
    indices 0..63 at which the value has a set bit; the result lies between
    0 and 64, is 0 only for 0, and the loop has finished within 64 turns
    (more turns change nothing). *)
Theorem count_set_bits_counts_set_bits (n : Z) (Hn : in_u64 n) :
  count_set_bits n = Z.of_nat (length (filter (Z.testbit n) u64_bits))
  /\ 0 <= count_set_bits n <= 64
  /\ (count_set_bits n = 0 <-> n = 0)
  /\ forall extra, count_set_bits_loop (64 + extra) n 0 = count_set_bits n.
Proof.
  pose proof (count_set_bits_popcount n Hn) as E.
  pose proof (popcount_u64_bound n Hn) as Hb.
  destruct (count_set_bits_loop_exhausts n 0 Hn) as [_ Hextra].
  split; [|split; [|split]].
  - rewrite E. unfold u64_bits. rewrite filter_map_length.
    apply (popcount_bits 64). exact Hn.
  - rewrite E. exact Hb.
  - rewrite E. split.
    + apply popcount_zero, Hn.
    + intros ->. reflexivity.
  - intros extra. rewrite Hextra, count_set_bits_eq. reflexivity.
Qed.

Lemma count_set_bits_counts_set_bits_witness :
  count_set_bits 0xf0 = Z.of_nat (length (filter (Z.testbit 0xf0) u64_bits)).
Proof.
  apply (count_set_bits_counts_set_bits 0xf0). unfold in_u64. lia.
Defined.

(** The walls among a list of distinct cells, counted on their mask. *)
Lemma count_cells_walls cells g :
  NoDup (in_range_bits cells) -> in_u64 g ->
  count_set_bits (Z.land (fold_left pos_set cells 0) g)
  = Z.of_nat (length (filter (cell_wall g) cells)).
Proof.
  intros Hnd Hg.
  rewrite count_set_bits_popcount
    by (apply in_u64_land_l; [apply in_u64_fold_pos_set, in_u64_0|apply Hg]).
  rewrite popcount_land_cells; try assumption; try apply Hg; try lia.
  - rewrite Z.land_0_l. reflexivity.
  - intros k _. apply Z.testbit_0_l.
Qed.

Lemma range8_cases i : 0 <= i < 8 -> In i range8.
Proof. intros Hi. unfold range8. cbn [In]. lia. Qed.

Lemma row_mask_cells :
  forallb (fun r => (Z.shiftr 0xff00000000000000 (r * 8)
                     =? fold_left pos_set (row_cells r) 0)
                    && nodupb (in_range_bits (row_cells r))) range8 = true.
Proof. vm_compute. reflexivity. Qed.

Lemma col_mask_cells :
  forallb (fun c => (Z.shiftr 0x8080808080808080 c
                     =? fold_left pos_set (col_cells c) 0)
                    && nodupb (in_range_bits (col_cells c))) range8 = true.
Proof. vm_compute. reflexivity. Qed.

Lemma filter_cell_wall_row g r :
  0 <= r < 8 ->
  length (filter (cell_wall g) (row_cells r))
  = length (filter (fun c => truthy (pos_is_set g (mkPos r c))) range8).
Proof.
  intros Hr. unfold row_cells. rewrite filter_map_length. f_equal.
  apply filter_ext_in. intros c Hc. unfold cell_wall, cell_in_range.
  rewrite pos_range_false; [reflexivity|].
  unfold pos_in_range. cbn [row col]. unfold range8 in Hc. cbn [In] in Hc. lia.
Qed.

Lemma filter_cell_wall_col g c :
  0 <= c < 8 ->
  length (filter (cell_wall g) (col_cells c))
  = length (filter (fun r => truthy (pos_is_set g (mkPos r c))) range8).
Proof.
  intros Hc. unfold col_cells. rewrite filter_map_length. f_equal.
  apply filter_ext_in. intros r Hr. unfold cell_wall, cell_in_range.
  rewrite pos_range_false; [reflexivity|].
  unfold pos_in_range. cbn [row col]. unfold range8 in Hr. cbn [In] in Hr. lia.
Qed.

Lemma count_walls_in_row_cells g r :
  in_u64 g -> 0 <= r < 8 ->
  count_walls_in_row g r = Z.of_nat (length (filter (cell_wall g) (row_cells r))).
Proof.
  intros Hg Hr. rewrite count_walls_in_row_eq.
  pose proof row_mask_cells as H. rewrite forallb_forall in H.
  specialize (H r (range8_cases r Hr)). apply andb_true_iff in H as [E Hnd].
  apply Z.eqb_eq in E. rewrite E.
  apply count_cells_walls; [apply nodupb_NoDup, Hnd|exact Hg].
Qed.

Lemma count_walls_in_col_cells g c :
  in_u64 g -> 0 <= c < 8 ->
  count_walls_in_col g c = Z.of_nat (length (filter (cell_wall g) (col_cells c))).
Proof.
  intros Hg Hc. rewrite count_walls_in_col_eq.
  pose proof col_mask_cells as H. rewrite forallb_forall in H.
  specialize (H c (range8_cases c Hc)). apply andb_true_iff in H as [E Hnd].
  apply Z.eqb_eq in E. rewrite E.
  apply count_cells_walls; [apply nodupb_NoDup, Hnd|exact Hg].
Qed.

Lemma count_walls_bounds g i :
  in_u64 g -> 0 <= i < 8 ->
  0 <= count_walls_in_row g i <= 8 /\ 0 <= count_walls_in_col g i <= 8.
Proof.
  intros Hg Hi.
  rewrite count_walls_in_row_cells, count_walls_in_col_cells by assumption.
  rewrite filter_cell_wall_row, filter_cell_wall_col by assumption.
  pose proof (filter_length_le (fun c => truthy (pos_is_set g (mkPos i c))) range8) as H1.
  pose proof (filter_length_le (fun r => truthy (pos_is_set g (mkPos r i))) range8) as H2.
  change (length range8) with 8%nat in H1, H2. lia.
Qed.

(** X3.  For a row (column) index within 0..7, [count_walls_in_row]
    ([count_walls_in_col]) returns the number of cells of that row
    (column) that are set in the grid, a number between 0 and 8. *)
Theorem count_walls_counts_row_and_column (g : Z) (Hg : in_u64 g) (i : Z) (Hi : 0 <= i < 8) :
  count_walls_in_row g i
  = Z.of_nat (length (filter (fun c => truthy (pos_is_set g (mkPos i c))) range8))
  /\ count_walls_in_col g i
     = Z.of_nat (length (filter (fun r => truthy (pos_is_set g (mkPos r i))) range8))
  /\ 0 <= count_walls_in_row g i <= 8
  /\ 0 <= count_walls_in_col g i <= 8.
Proof.
  rewrite count_walls_in_row_cells, count_walls_in_col_cells by assumption.
  rewrite filter_cell_wall_row, filter_cell_wall_col by assumption.
  pose proof (filter_length_le (fun c => truthy (pos_is_set g (mkPos i c))) range8) as H1.
  pose proof (filter_length_le (fun r => truthy (pos_is_set g (mkPos r i))) range8) as H2.
  change (length range8) with 8%nat in H1, H2.
  repeat split; lia.
Qed.

Lemma count_walls_counts_row_and_column_witness :
  count_walls_in_row ring_grid 1
  = Z.of_nat (length (filter (fun c => truthy (pos_is_set ring_grid (mkPos 1 c))) range8)).
Proof.
  apply (count_walls_counts_row_and_column ring_grid);
    [unfold in_u64; vm_compute; split; [discriminate|reflexivity]|lia].
Defined.

Lemma filter_flat_map_length {A B : Type} (f : B -> bool) (h : A -> list B) l :
  Z.of_nat (length (filter f (flat_map h l)))
  = sum_list (map (fun x => Z.of_nat (length (filter f (h x)))) l).
Proof.
  induction l as [|x l IH]; [reflexivity|].
  cbn [flat_map map sum_list fold_right].
  rewrite filter_app, length_app, Nat2Z.inj_add. unfold sum_list in IH. rewrite IH.
  reflexivity.
Qed.

Lemma sum_list_ext_in {A : Type} (f h : A -> Z) l :
  (forall x, In x l -> f x = h x) -> sum_list (map f l) = sum_list (map h l).
Proof.
  intros H. f_equal. apply map_ext_in, H.
Qed.

Lemma grid_cells :
  (fold_left pos_set (flat_map row_cells range8) 0 =? Z.ones 64)
  && nodupb (in_range_bits (flat_map row_cells range8))
  && (fold_left pos_set (flat_map col_cells range8) 0 =? Z.ones 64)
  && nodupb (in_range_bits (flat_map col_cells range8)) = true.
Proof. vm_compute. reflexivity. Qed.

Lemma land_ones_u64 g : in_u64 g -> Z.land (Z.ones 64) g = g.
Proof. intros Hg. rewrite Z.land_comm. apply land_u64_ones, Hg. Qed.

Lemma row_counts_sum g :
  in_u64 g -> sum_list (map (count_walls_in_row g) range8) = count_set_bits g.
Proof.
  intros Hg. pose proof grid_cells as H.
  apply andb_true_iff in H as [H _]. apply andb_true_iff in H as [H _].
  apply andb_true_iff in H as [Er Hnr].
  apply Z.eqb_eq in Er. apply nodupb_NoDup in Hnr.
  rewrite (sum_list_ext_in _ (fun r => Z.of_nat (length (filter (cell_wall g) (row_cells r)))))
    by (intros r Hr; apply count_walls_in_row_cells;
        [exact Hg|unfold range8 in Hr; cbn [In] in Hr; lia]).
  rewrite <- filter_flat_map_length, <- count_cells_walls by assumption.
  rewrite Er, land_ones_u64 by assumption. reflexivity.
Qed.

Lemma col_counts_sum g :
  in_u64 g -> sum_list (map (count_walls_in_col g) range8) = count_set_bits g.
Proof.
  intros Hg. pose proof grid_cells as H.
  apply andb_true_iff in H as [H Hnc]. apply andb_true_iff in H as [_ Ec].
  apply Z.eqb_eq in Ec. apply nodupb_NoDup in Hnc.
  rewrite (sum_list_ext_in _ (fun c => Z.of_nat (length (filter (cell_wall g) (col_cells c)))))
    by (intros c Hc; apply count_walls_in_col_cells;
        [exact Hg|unfold range8 in Hc; cbn [In] in Hc; lia]).
  rewrite <- filter_flat_map_length, <- count_cells_walls by assumption.
  rewrite Ec, land_ones_u64 by assumption. reflexivity.
Qed.

(** X4.  The eight row counts of a grid and its eight column counts both add
    up to the number of walls of the grid. *)
Theorem wall_counts_sum_to_total (g : Z) (Hg : in_u64 g) :
  sum_list (map (count_walls_in_row g) range8) = count_set_bits g
  /\ sum_list (map (count_walls_in_col g) range8) = count_set_bits g.
Proof. split; [apply row_counts_sum, Hg|apply col_counts_sum, Hg]. Qed.

Lemma wall_counts_sum_to_total_witness :
  sum_list (map (count_walls_in_row ring_grid) range8) = count_set_bits ring_grid.
Proof.
  apply (wall_counts_sum_to_total ring_grid). unfold in_u64, ring_grid. lia.
Defined.

(** A cell is set in the mask built from a list of positions exactly when
    it is listed. *)
Lemma set_positions_spec positions count q :
  pos_in_range q ->
  truthy (pos_is_set (set_positions positions count) q) = true
  <-> In q (firstn (Z.to_nat count) positions).
Proof.
  intros Hq. pose proof (pos_bit_range q Hq) as Hb.
  rewrite pos_is_set_eq, truthy_land_bit by (assumption || lia).
  unfold set_positions. rewrite testbit_fold_pos_set, Z.testbit_0_l. cbn [orb].
  rewrite existsb_exists. split.
  - intros (p & Hin & Hp). apply andb_true_iff in Hp as [Hr Hp].
    apply negb_true_iff, pos_out_of_range_false_inv in Hr. apply Z.eqb_eq in Hp.
    rewrite (pos_bit_inj q p Hq Hr Hp). exact Hin.
  - intros Hin. exists q. split; [exact Hin|].
    rewrite pos_range_false, Z.eqb_refl by assumption. reflexivity.
Qed.

Lemma in_u64_set_positions positions count : in_u64 (set_positions positions count).
Proof. unfold set_positions. apply in_u64_fold_pos_set, in_u64_0. Qed.

(** X5.  [puzzle] aborts (an [assert] fails) exactly when one of the two
    counts exceeds 64.  Otherwise the monster (treasure) grid of the record
    is a 64-bit value in which a cell of the grid is set exactly when its
    position is among the first [count] listed positions (positions off the
    grid are ignored), and the eight row and eight column targets are
    copied. *)
Theorem puzzle_record_from_args (args : PuzzleArgs) :
  (puzzle args = None
   <-> 64 < args_monsters_count args \/ 64 < args_treasures_count args)
  /\ forall p, puzzle args = Some p ->
       in_u64 (monsters p) /\ in_u64 (treasures p)
       /\ (forall q, pos_in_range q ->
             (truthy (pos_is_set (monsters p) q) = true
              <-> In q (firstn (Z.to_nat (args_monsters_count args))
                               (args_monsters args)))
             /\ (truthy (pos_is_set (treasures p) q) = true
                 <-> In q (firstn (Z.to_nat (args_treasures_count args))
                                  (args_treasures args))))
       /\ length (row_wall_counts p) = 8%nat
       /\ length (col_wall_counts p) = 8%nat
       /\ forall i, 0 <= i < 8 ->
            array_get (row_wall_counts p) i = array_get (args_row_wall_counts args) i
            /\ array_get (col_wall_counts p) i
               = array_get (args_col_wall_counts args) i.
Proof.
  unfold puzzle.
  destruct (Z.leb_spec (args_monsters_count args) 64) as [Hm|Hm];
    destruct (Z.leb_spec (args_treasures_count args) 64) as [Ht|Ht]; cbn [andb].
  2-4: split; [split; [intros _; lia|reflexivity]|intros p Hp; discriminate Hp].
  split; [split; [intros H; discriminate H|intros H; lia]|].
  intros p Hp. injection Hp as <-. cbn [monsters treasures row_wall_counts col_wall_counts].
  split; [apply in_u64_set_positions|]. split; [apply in_u64_set_positions|].
  split; [intros q Hq; split; apply set_positions_spec, Hq|].
  split; [reflexivity|]. split; [reflexivity|].
  intros i Hi.
  split; [exact (array_get_map_range8 (array_get (args_row_wall_counts args)) i Hi)
        |exact (array_get_map_range8 (array_get (args_col_wall_counts args)) i Hi)].
Qed.

Lemma puzzle_record_from_args_witness :
  truthy (pos_is_set (monsters main_puzzle) (mkPos 7 5)) = true
  <-> In (mkPos 7 5) (firstn (Z.to_nat (args_monsters_count main_args))
                             (args_monsters main_args)).
Proof.
  apply (proj1 (proj2 (proj2
           (proj2 (puzzle_record_from_args main_args) main_puzzle eq_refl)))
           (mkPos 7 5)).
  unfold pos_in_range. cbn [row col]. lia.
Defined.

Lemma neighbours_mask_cells p :
  neighbours_mask p = fold_left pos_set (neighbour_cells p) 0.
Proof. reflexivity. Qed.

Lemma In_all_positions p : pos_in_range p -> In p all_positions.
Proof.
  destruct p as [r c]. unfold pos_in_range. cbn [row col]. intros [Hr Hc].
  unfold all_positions. apply in_flat_map. exists r. split.
  - apply range8_cases, Hr.
  - apply in_map, range8_cases, Hc.
Qed.

Lemma neighbour_cells_nodup :
  forallb (fun p => nodupb (in_range_bits (neighbour_cells p))) all_positions = true.
Proof. vm_compute. reflexivity. Qed.

Lemma cell_wall_eq m q : cell_wall m q = truthy (pos_is_set m q).
Proof.
  unfold cell_wall, cell_in_range, pos_is_set.
  destruct (pos_out_of_range q); reflexivity.
Qed.

(** A mask built from cells meets a grid exactly when one of the cells is
    set in the grid. *)
Lemma truthy_land_cells cells m :
  truthy (Z.land (fold_left pos_set cells 0) m)
  = existsb (fun q => truthy (pos_is_set m q)) cells.
Proof.
  destruct (existsb (fun q => truthy (pos_is_set m q)) cells) eqn:E.
  - apply existsb_exists in E as (q & Hin & Hq).
    rewrite <- cell_wall_eq in Hq. unfold cell_wall in Hq.
    apply andb_true_iff in Hq as [Hr Hq]. pose proof Hr as Hr'.
    apply cell_in_range_true in Hr. pose proof (pos_bit_range q Hr) as Hb.
    rewrite pos_is_set_eq, truthy_land_bit in Hq by (assumption || lia).
    unfold truthy. apply negb_true_iff, Z.eqb_neq. intros H0.
    assert (Hbit : Z.testbit (Z.land (fold_left pos_set cells 0) m) (pos_bit q) = true).
    { rewrite Z.land_spec, testbit_fold_pos_set, Hq, Z.testbit_0_l. cbn [orb].
      rewrite andb_true_r. apply existsb_exists. exists q. split; [exact Hin|].
      unfold cell_in_range in Hr'. rewrite Hr', Z.eqb_refl. reflexivity. }
    rewrite H0, Z.testbit_0_l in Hbit. discriminate.
  - unfold truthy. apply negb_false_iff, Z.eqb_eq, Z.bits_inj'. intros i Hi.
    rewrite Z.land_spec, testbit_fold_pos_set, !Z.testbit_0_l. cbn [orb].
    destruct (existsb (fun p => negb (pos_out_of_range p) && (i =? pos_bit p)) cells)
      eqn:Ei; [|reflexivity].
    apply existsb_exists in Ei as (q & Hin & Hq). apply andb_true_iff in Hq as [Hr Hq].
    apply Z.eqb_eq in Hq. subst i.
    apply negb_true_iff, pos_out_of_range_false_inv in Hr.
    assert (Hq : truthy (pos_is_set m q) = false).
    { destruct (truthy (pos_is_set m q)) eqn:Eq; [|reflexivity].
      assert (existsb (fun q => truthy (pos_is_set m q)) cells = true); [|congruence].
      apply existsb_exists. exists q. split; assumption. }
    rewrite pos_is_set_eq, truthy_land_bit in Hq by (assumption || lia).
    rewrite Hq. reflexivity.
Qed.

Lemma truthy_land_cell p m : truthy (Z.land (pos_set 0 p) m) = truthy (pos_is_set m p).
Proof.
  pose proof (truthy_land_cells [p] m) as H. cbn [fold_left existsb] in H.
  rewrite orb_false_r in H. exact H.
Qed.

(** On distinct cells, the two counts the source compares differ by the
    number of cells that are on the grid and not walls. *)
Lemma cells_openings cells g :
  NoDup (in_range_bits cells) -> in_u64 g ->
  count_set_bits (fold_left pos_set cells 0)
  - count_set_bits (Z.land (fold_left pos_set cells 0) g)
  = Z.of_nat (length (filter (cell_open g) cells)).
Proof.
  intros Hnd Hg.
  assert (Hones : in_u64 (Z.ones 64))
    by (unfold in_u64; change (Z.ones 64) with (2 ^ 64 - 1); lia).
  pose proof (count_cells_walls cells (Z.ones 64) Hnd Hones) as Hall.
  rewrite (land_u64_ones _ (in_u64_fold_pos_set cells 0 in_u64_0)) in Hall.
  rewrite Hall, (count_cells_walls cells g Hnd Hg).
  pose proof (filter_split_length cell_in_range
                (fun q => truthy (pos_is_set g q)) cells) as Hsplit.
  cbv beta in Hsplit.
  assert (E1 : filter (cell_wall (Z.ones 64)) cells = filter cell_in_range cells).
  { apply filter_ext. intros q. unfold cell_wall.
    destruct (cell_in_range q) eqn:E; [|reflexivity]. cbn [andb].
    apply cell_in_range_true in E. pose proof (pos_bit_range q E).
    rewrite pos_is_set_eq, truthy_land_bit by (assumption || lia).
    apply Z.ones_spec_low. lia. }
  rewrite E1.
  change (filter (cell_wall g) cells)
    with (filter (fun q => cell_in_range q && truthy (pos_is_set g q)) cells).
  change (filter (cell_open g) cells)
    with (filter (fun q => cell_in_range q && negb (truthy (pos_is_set g q))) cells).
  lia.
Qed.

Lemma neighbour_openings g p :
  in_u64 g -> pos_out_of_range p = false ->
  count_set_bits (neighbours_mask p)
  - count_set_bits (Z.land (neighbours_mask p) g)
  = Z.of_nat (length (filter (cell_open g) (neighbour_cells p))).
Proof.
  intros Hg Hp. rewrite neighbours_mask_cells. apply cells_openings; [|exact Hg].
  apply nodupb_NoDup. pose proof neighbour_cells_nodup as H.
  rewrite forallb_forall in H. apply H, In_all_positions, pos_out_of_range_false_inv, Hp.
Qed.

(** X6.  [is_dead_end] holds of a position exactly when it is on the grid,
    holds no wall, treasure or monster, and at most one of its neighbours
    on the grid is not a wall. *)
Theorem dead_end_has_at_most_one_opening (pz : Puzzle) (g : Z) (p : Pos) (Hg : in_u64 g) :
  is_dead_end pz g p = true
  <-> pos_out_of_range p = false
      /\ truthy (pos_is_set g p) = false
      /\ truthy (pos_is_set (treasures pz) p) = false
      /\ truthy (pos_is_set (monsters pz) p) = false
      /\ (length (filter (cell_open g) (neighbour_cells p)) <= 1)%nat.
Proof.
  unfold is_dead_end. cbv zeta.
  destruct (pos_out_of_range p) eqn:Hp.
  { split; [discriminate|]. intros (H & _). discriminate H. }
  rewrite !truthy_land_cell.
  pose proof (neighbour_openings g p Hg Hp) as Hcount. revert Hcount.
  generalize (count_set_bits (Z.land (neighbours_mask p) g)).
  generalize (count_set_bits (neighbours_mask p)).
  generalize (length (filter (cell_open g) (neighbour_cells p))).
  intros openings total closed Hcount.
  destruct (truthy (pos_is_set g p)).
  { split; [discriminate|]. intros (_ & H & _). discriminate H. }
  destruct (truthy (pos_is_set (treasures pz) p)); cbn [orb].
  { split; [discriminate|]. intros (_ & _ & H & _). discriminate H. }
  destruct (truthy (pos_is_set (monsters pz) p)).
  { split; [discriminate|]. intros (_ & _ & _ & H & _). discriminate H. }
  destruct (Z.geb_spec closed (total - 1)) as [Hge|Hlt].
  - split; [|reflexivity]. intros _. repeat split; lia.
  - split; [discriminate|]. intros (_ & _ & _ & _ & Hopen). lia.
Qed.

Lemma dead_end_has_at_most_one_opening_witness :
  is_dead_end empty_puzzle ring_grid (mkPos 0 0) = true
  <-> pos_out_of_range (mkPos 0 0) = false
      /\ truthy (pos_is_set ring_grid (mkPos 0 0)) = false
      /\ truthy (pos_is_set (treasures empty_puzzle) (mkPos 0 0)) = false
      /\ truthy (pos_is_set (monsters empty_puzzle) (mkPos 0 0)) = false
      /\ (length (filter (cell_open ring_grid) (neighbour_cells (mkPos 0 0))) <= 1)%nat.
Proof.
  apply (dead_end_has_at_most_one_opening empty_puzzle ring_grid (mkPos 0 0)).
  unfold in_u64, ring_grid. lia.
Defined.

(** X7.  [is_invalid_monster] holds of a position exactly when a monster is
    there and either a neighbouring cell holds a monster or a treasure, or
    the number of neighbours on the grid that are not walls differs from
    one. *)
Theorem invalid_monster_meaning (pz : Puzzle) (g : Z) (p : Pos) (Hg : in_u64 g) :
  is_invalid_monster pz g p = true
  <-> truthy (pos_is_set (monsters pz) p) = true
      /\ (existsb (fun q => truthy (pos_is_set (monsters pz) q)) (neighbour_cells p) = true
          \/ existsb (fun q => truthy (pos_is_set (treasures pz) q)) (neighbour_cells p)
             = true
          \/ length (filter (cell_open g) (neighbour_cells p)) <> 1%nat).
Proof.
  unfold is_invalid_monster. cbv zeta.
  destruct (pos_out_of_range p) eqn:Hp.
  { split; [discriminate|]. intros (H & _).
    unfold pos_is_set in H. rewrite Hp in H. discriminate H. }
  rewrite truthy_land_cell.
  rewrite (neighbours_mask_cells p) at 1 2.
  rewrite !truthy_land_cells.
  pose proof (neighbour_openings g p Hg Hp) as Hcount. revert Hcount.
  generalize (count_set_bits (Z.land (neighbours_mask p) g)).
  generalize (count_set_bits (neighbours_mask p)).
  generalize (length (filter (cell_open g) (neighbour_cells p))).
  intros openings total closed Hcount.
  destruct (truthy (pos_is_set (monsters pz) p)); cbn [negb].
  2:{ split; [discriminate|]. intros (H & _). discriminate H. }
  destruct (existsb (fun q => truthy (pos_is_set (monsters pz) q)) (neighbour_cells p));
    cbn [orb]; [split; [intros _; split; [reflexivity|left; reflexivity]|reflexivity]|].
  destruct (existsb (fun q => truthy (pos_is_set (treasures pz) q)) (neighbour_cells p));
    [split; [intros _; split; [reflexivity|right; left; reflexivity]|reflexivity]|].
  destruct (Z.eqb_spec closed (total - 1)); cbn [negb].
  - split; [discriminate|]. intros (_ & [H|[H|H]]); try discriminate H. lia.
  - split; [|reflexivity]. intros _. split; [reflexivity|]. right. right. lia.
Qed.

Lemma invalid_monster_meaning_witness :
  is_invalid_monster main_puzzle 0 (mkPos 7 5) = true
  <-> truthy (pos_is_set (monsters main_puzzle) (mkPos 7 5)) = true
      /\ (existsb (fun q => truthy (pos_is_set (monsters main_puzzle) q))
                  (neighbour_cells (mkPos 7 5)) = true
          \/ existsb (fun q => truthy (pos_is_set (treasures main_puzzle) q))
                     (neighbour_cells (mkPos 7 5)) = true
          \/ length (filter (cell_open 0) (neighbour_cells (mkPos 7 5))) <> 1%nat).
Proof.
  apply (invalid_monster_meaning main_puzzle 0 (mkPos 7 5)). unfold in_u64. lia.
Defined.

Lemma space_mask_cells p : space_mask p = fold_left pos_set (block_cells p) 0.
Proof. reflexivity. Qed.

Lemma space_neighbours_cells p :
  space_neighbours p = fold_left pos_set (around_block_cells p) 0.
Proof. reflexivity. Qed.

Lemma block_on_grid :
  forallb (fun s => Bool.eqb (count_set_bits (space_mask (pos_from_slot s)) =? 4)
                             ((1 <=? row (pos_from_slot s))
                              && (1 <=? col (pos_from_slot s)))) all_slots = true.
Proof. vm_compute. reflexivity. Qed.

(** X8.  [check_wide_space] rejects a slot exactly when the 2x2 block whose
    bottom-right corner is the slot lies on the grid, holds no wall,
    monster or treasure, and none of the twelve cells around the block
    holds a treasure. *)
Theorem wide_space_meaning (pz : Puzzle) (g slot : Z) (Hslot : 0 <= slot < 64) :
  check_wide_space pz g slot = false
  <-> 1 <= row (pos_from_slot slot) /\ 1 <= col (pos_from_slot slot)
      /\ existsb (fun q => truthy (pos_is_set g q))
                 (block_cells (pos_from_slot slot)) = false
      /\ existsb (fun q => truthy (pos_is_set (monsters pz) q))
                 (block_cells (pos_from_slot slot)) = false
      /\ existsb (fun q => truthy (pos_is_set (treasures pz) q))
                 (block_cells (pos_from_slot slot)) = false
      /\ existsb (fun q => truthy (pos_is_set (treasures pz) q))
                 (around_block_cells (pos_from_slot slot)) = false.
Proof.
  pose proof (all_slots_forall _ block_on_grid slot Hslot) as Hgeo. cbv beta in Hgeo.
  apply Bool.eqb_prop in Hgeo.
  unfold check_wide_space. cbv zeta. rewrite Hgeo.
  rewrite (space_mask_cells (pos_from_slot slot)), space_neighbours_cells.
  rewrite !truthy_land_cells.
  generalize (pos_from_slot slot). intros p.
  destruct (Z.leb_spec 1 (row p)) as [Hrow|Hrow]; cbn [andb].
  2:{ split; [discriminate|]. intros (Hr & _). lia. }
  destruct (Z.leb_spec 1 (col p)) as [Hcol|Hcol]; cbn [andb].
  2:{ split; [discriminate|]. intros (_ & Hc & _). lia. }
  destruct (existsb (fun q => truthy (pos_is_set g q)) (block_cells p)); cbn [negb andb].
  { split; [discriminate|]. intros (_ & _ & H & _). discriminate H. }
  destruct (existsb (fun q => truthy (pos_is_set (monsters pz) q)) (block_cells p));
    cbn [negb andb].
  { split; [discriminate|]. intros (_ & _ & _ & H & _). discriminate H. }
  destruct (existsb (fun q => truthy (pos_is_set (treasures pz) q)) (block_cells p));
    cbn [negb andb].
  { split; [discriminate|]. intros (_ & _ & _ & _ & H & _). discriminate H. }
  destruct (existsb (fun q => truthy (pos_is_set (treasures pz) q))
                    (around_block_cells p)).
  - split; [discriminate|]. intros (_ & _ & _ & _ & _ & H). discriminate H.
  - split; [|reflexivity]. intros _. repeat split; assumption.
Qed.

Lemma wide_space_meaning_witness :
  check_wide_space empty_puzzle 0 9 = false
  <-> 1 <= row (pos_from_slot 9) /\ 1 <= col (pos_from_slot 9)
      /\ existsb (fun q => truthy (pos_is_set 0 q)) (block_cells (pos_from_slot 9)) = false
      /\ existsb (fun q => truthy (pos_is_set (monsters empty_puzzle) q))
                 (block_cells (pos_from_slot 9)) = false
      /\ existsb (fun q => truthy (pos_is_set (treasures empty_puzzle) q))
                 (block_cells (pos_from_slot 9)) = false
      /\ existsb (fun q => truthy (pos_is_set (treasures empty_puzzle) q))
                 (around_block_cells (pos_from_slot 9)) = false.
Proof. apply (wide_space_meaning empty_puzzle 0 9). lia. Defined.

(** X9.  [check_treasure_rooms] accepts exactly when every cell that holds a
    treasure has, among the nine 3x3 rooms that contain it, one that
    [is_invalid_treasure_room] does not reject (so it accepts when there is
    no treasure). *)
Theorem treasure_rooms_meaning (pz : Puzzle) (g slot : Z) :
  check_treasure_rooms pz g slot = true
  <-> forall t, truthy (pos_is_set (treasures pz) t) = true ->
        exists center,
          In center (room_centers t)
          /\ is_invalid_treasure_room pz g t center slot = false.
Proof.
  unfold check_treasure_rooms.
  destruct (Z.eqb_spec (treasures pz) 0) as [E0|Hne].
  - split; [|reflexivity]. intros _ t Ht. exfalso.
    rewrite E0 in Ht. unfold pos_is_set in Ht.
    destruct (pos_out_of_range t); [discriminate Ht|].
    rewrite Z.land_0_l in Ht. discriminate Ht.
  - rewrite treasure_scan_true. split.
    + intros H t Ht. apply is_invalid_treasure_false. apply H; [|exact Ht].
      apply In_all_positions, pos_out_of_range_false_inv.
      unfold pos_is_set in Ht. destruct (pos_out_of_range t); [discriminate Ht|reflexivity].
    + intros H t _ Ht. apply is_invalid_treasure_false, H, Ht.
Qed.

Lemma treasure_rooms_meaning_witness :
  exists center,
    In center (room_centers (mkPos 1 1))
    /\ is_invalid_treasure_room treasure_at_1_1 0 (mkPos 1 1) center 19 = false.
Proof.
  apply (proj1 (treasure_rooms_meaning treasure_at_1_1 0 19)); vm_compute; reflexivity.
Defined.

(** ** The grids [solve] finds, stated on the complete grid *)

Lemma is_dead_end_prefix pz g q s :
  in_u64 g -> -1 <= s ->
  Z.land (pos_set 0 q) (prefix g s) = Z.land (pos_set 0 q) g ->
  is_dead_end pz g q = false -> is_dead_end pz (prefix g s) q = false.
Proof.
  intros Hg Hs Hcell. unfold is_dead_end. cbv zeta. rewrite Hcell.
  destruct (pos_out_of_range q); [reflexivity|].
  destruct (truthy (Z.land (pos_set 0 q) g)); [reflexivity|].
  destruct (truthy (Z.land (pos_set 0 q) (treasures pz))
            || truthy (Z.land (pos_set 0 q) (monsters pz))); [reflexivity|].
  assert (Hmask : 0 <= neighbours_mask q).
  { rewrite neighbours_mask_cells. apply in_u64_fold_pos_set, in_u64_0. }
  pose proof (count_set_bits_prefix_le (neighbours_mask q) g s Hmask Hg Hs) as Hle.
  revert Hle.
  generalize (count_set_bits (Z.land (neighbours_mask q) (prefix g s))).
  generalize (count_set_bits (Z.land (neighbours_mask q) g)).
  generalize (count_set_bits (neighbours_mask q)). intros total closed closed' Hle.
  destruct (Z.geb_spec closed (total - 1)); [discriminate|]. intros _.
  destruct (Z.geb_spec closed' (total - 1)); [lia|reflexivity].
Qed.

Section FullToPrefix.
Variables (pz : Puzzle) (g : Z).
Hypothesis Hg : in_u64 g.
Hypothesis Hvalid : valid_solution pz g.

Lemma valid_overlap s : check_doesnt_overlap pz (prefix g s) = true.
Proof.
  pose proof (Hvalid 63 ltac:(lia)) as H. apply check_constraints_true in H as (H & _).
  apply check_doesnt_overlap_true in H as [H1 H2].
  apply check_doesnt_overlap_true. split; apply land_prefix_zero; assumption.
Qed.

Lemma valid_row_count s : 0 <= s < 64 -> check_row_count pz (prefix g s) s = true.
Proof.
  intros Hs.
  pose proof (Hvalid s Hs) as H. apply check_constraints_true in H as (_ & H & _).
  apply check_row_count_true in H as [Hle Heq].
  pose proof (all_slots_forall _ geom_counts_ok s Hs) as G.
  pose proof (all_slots_forall _ geom_row_ok s Hs) as G'.
  unfold geom_counts in G. unfold geom_row in G'. cbv zeta in G, G'.
  repeat (apply andb_true_iff in G as [G ?]).
  repeat (apply andb_true_iff in G' as [G' ?]).
  apply Z.leb_le in G.
  repeat match goal with
         | H : (_ <? _) = true |- _ => apply Z.ltb_lt in H
         | H : (_ <=? _) = true |- _ => apply Z.leb_le in H
         end.
  set (r := row (pos_from_slot s)) in *.
  assert (Hmask : 0 <= Z.shiftr 0xff00000000000000 (r * 8))
    by (apply Z.shiftr_nonneg; lia).
  pose proof (count_set_bits_prefix_le _ g s Hmask Hg ltac:(lia)) as Hpre.
  rewrite count_walls_in_row_eq in Hle, Heq.
  apply check_row_count_true. fold r. rewrite !count_walls_in_row_eq.
  split; [lia|]. intros Hcol.
  match goal with H : implb (col (pos_from_slot s) =? 7) _ = true |- _ =>
    rewrite Hcol in H; cbn [Z.eqb Pos.eqb implb] in H; apply Z.eqb_eq in H;
    rename H into Hend end.
  match goal with H : covers _ (row_end s) = true |- _ =>
    rewrite Hend in H; rewrite (covers_land _ g s H) end.
  exact (Heq Hcol).
Qed.

Lemma valid_col_count s : 0 <= s < 64 -> check_col_count pz (prefix g s) s = true.
Proof.
  intros Hs.
  pose proof (Hvalid s Hs) as H. apply check_constraints_true in H as (_ & _ & H & _).
  apply check_col_count_true in H as [Hle Heq].
  pose proof (all_slots_forall _ geom_counts_ok s Hs) as G.
  pose proof (all_slots_forall _ geom_col_ok s Hs) as G'.
  unfold geom_counts in G. unfold geom_col in G'. cbv zeta in G, G'.
  repeat (apply andb_true_iff in G as [G ?]).
  repeat (apply andb_true_iff in G' as [G' ?]).
  apply Z.leb_le in G.
  repeat match goal with
         | H : (_ <? _) = true |- _ => apply Z.ltb_lt in H
         | H : (_ <=? _) = true |- _ => apply Z.leb_le in H
         end.
  set (c := col (pos_from_slot s)) in *.
  assert (Hmask : 0 <= Z.shiftr 0x8080808080808080 c)
    by (apply Z.shiftr_nonneg; lia).
  pose proof (count_set_bits_prefix_le _ g s Hmask Hg ltac:(lia)) as Hpre.
  rewrite count_walls_in_col_eq in Hle, Heq.
  apply check_col_count_true. fold c. rewrite !count_walls_in_col_eq.
  split; [lia|]. intros Hrow.
  match goal with H : implb (row (pos_from_slot s) =? 7) _ = true |- _ =>
    rewrite Hrow in H; cbn [Z.eqb Pos.eqb implb] in H; apply Z.eqb_eq in H;
    rename H into Hend end.
  match goal with H : covers _ (col_end s) = true |- _ =>
    rewrite Hend in H; rewrite (covers_land _ g s H) end.
  exact (Heq Hrow).
Qed.

Lemma valid_dead_ends s : 0 <= s < 64 -> check_dead_ends pz (prefix g s) s = true.
Proof.
  intros Hs.
  pose proof (Hvalid s Hs) as H. apply check_constraints_true in H as (_ & _ & _ & H & _).
  apply check_dead_ends_true in H as (Ha & Hl & Hp).
  pose proof (all_slots_forall _ geom_cells_ok s Hs) as G.
  unfold geom_cells in G. cbv zeta in G.
  repeat (apply andb_true_iff in G as [G ?]).
  apply check_dead_ends_true.
  repeat split; apply is_dead_end_prefix; try assumption; try lia;
    apply covers_land; assumption.
Qed.

Lemma valid_monsters s : 0 <= s < 64 -> check_monsters pz (prefix g s) s = true.
Proof.
  intros Hs.
  pose proof (Hvalid s Hs) as H.
  apply check_constraints_true in H as (_ & _ & _ & _ & H & _).
  apply check_monsters_true in H as (Ha & Hrest).
  pose proof (all_slots_forall _ geom_cells_ok s Hs) as G.
  unfold geom_cells in G. cbv zeta in G.
  repeat (apply andb_true_iff in G as [G ?]).
  apply check_monsters_true.
  assert (Hsame : forall q, covers (neighbours_mask q) s = true ->
            is_invalid_monster pz (prefix g s) q = is_invalid_monster pz g q).
  { intros q Hq. apply is_invalid_monster_local, covers_land, Hq. }
  split.
  - rewrite Hsame by assumption. exact Ha.
  - intros Er. destruct (Hrest Er) as [Hl Hp].
    assert (Erb : (row (pos_from_slot s) =? 7) = true) by (apply Z.eqb_eq, Er).
    match goal with K : implb (row (pos_from_slot s) =? 7) _ = true |- _ =>
      rewrite Erb in K; cbn [implb] in K; rename K into Kl end.
    split.
    + rewrite Hsame by assumption. exact Hl.
    + intros Ec.
      assert (Ecb : (col (pos_from_slot s) =? 7) = true) by (apply Z.eqb_eq, Ec).
      match goal with K : implb ((row (pos_from_slot s) =? 7) && _) _ = true |- _ =>
        rewrite Erb, Ecb in K; cbn [implb andb] in K; rename K into Kp end.
      rewrite Hsame by assumption. exact (Hp Ec).
Qed.

Lemma valid_wide_space s : 0 <= s < 64 -> check_wide_space pz (prefix g s) s = true.
Proof.
  intros Hs.
  pose proof (Hvalid s Hs) as H.
  apply check_constraints_true in H as (_ & _ & _ & _ & _ & H & _).
  pose proof (all_slots_forall _ geom_wide_ok s Hs) as G. unfold geom_wide in G.
  rewrite (check_wide_space_local pz (prefix g s) g s (covers_land _ g s G)).
  exact H.
Qed.

Lemma valid_treasure_rooms s :
  0 <= s < 64 -> check_treasure_rooms pz (prefix g s) s = true.
Proof.
  intros Hs.
  pose proof (Hvalid 63 ltac:(lia)) as H.
  apply check_constraints_true in H as (_ & _ & _ & _ & _ & _ & H).
  revert H. unfold check_treasure_rooms.
  destruct (treasures pz =? 0); [reflexivity|].
  rewrite !treasure_scan_true. intros H t Hin Ht.
  specialize (H t Hin Ht). apply is_invalid_treasure_false in H as (c & Hc & Hroom).
  apply is_invalid_treasure_false. exists c. split; [exact Hc|].
  apply (room_prefix pz); try assumption; reflexivity.
Qed.

Lemma valid_prefix_valid : prefix_valid pz g.
Proof.
  intros s Hs. apply check_constraints_true.
  split; [apply valid_overlap|]. split; [apply valid_row_count, Hs|].
  split; [apply valid_col_count, Hs|]. split; [apply valid_dead_ends, Hs|].
  split; [apply valid_monsters, Hs|]. split; [apply valid_wide_space, Hs|].
  apply valid_treasure_rooms, Hs.
Qed.
End FullToPrefix.

(** ** The order of the enumeration *)

Lemma slot_set_add sol s :
  0 <= s < 64 -> Z.testbit sol (slot_bit s) = false ->
  slot_set sol s = sol + 2 ^ (63 - s).
Proof.
  intros Hs Hbit. rewrite slot_set_eq by assumption. unfold slot_bit in *.
  assert (E : Z.land sol (2 ^ (63 - s)) = 0) by (rewrite land_bit, Hbit by lia; reflexivity).
  rewrite Z.add_nocarry_lxor, Z.lxor_lor by exact E. reflexivity.
Qed.

(** The grids found below a partial grid extend it on the open slots. *)
Lemma dfs_range pz n : forall sol s g,
  Z.of_nat n = 64 - s -> 0 <= s -> clear_from sol s ->
  In g (dfs n pz sol s) -> sol <= g < sol + 2 ^ (64 - s).
Proof.
  induction n as [|n IH]; intros sol s g Hn Hs Hclear Hin; [destruct Hin|].
  assert (Hs63 : 0 <= s < 64) by lia.
  assert (Hpow : 2 ^ (64 - s) = 2 * 2 ^ (63 - s)).
  { replace (64 - s) with (Z.succ (63 - s)) by lia. apply Z.pow_succ_r. lia. }
  assert (Hpos : 0 < 2 ^ (63 - s)) by (apply Z.pow_pos_nonneg; lia).
  pose proof (slot_set_add sol s Hs63 (Hclear s ltac:(lia))) as Eset.
  cbn [dfs] in Hin. apply in_app_or in Hin. destruct Hin as [Hin|Hin];
    apply In_visit in Hin as [_ Hin]; destruct (Z.ltb_spec s 63).
  - apply IH in Hin; [|lia|lia|apply clear_from_set; assumption].
    replace (64 - (s + 1)) with (63 - s) in Hin by lia. lia.
  - subst g. lia.
  - apply IH in Hin; [|lia|lia|apply (clear_from_weaken sol s); [assumption|lia]].
    replace (64 - (s + 1)) with (63 - s) in Hin by lia. lia.
  - subst g. lia.
Qed.

Lemma StronglySorted_app {A : Type} (R : A -> A -> Prop) l1 l2 :
  StronglySorted R l1 -> StronglySorted R l2 ->
  (forall a b, In a l1 -> In b l2 -> R a b) ->
  StronglySorted R (l1 ++ l2).
Proof.
  intros H1 H2 Hcross. induction H1 as [|a l1 Hs IH Hall]; [exact H2|].
  cbn [app]. constructor.
  - apply IH. intros x y Hx Hy. apply Hcross; [right; exact Hx|exact Hy].
  - apply Forall_app. split; [exact Hall|].
    apply Forall_forall. intros y Hy. apply Hcross; [left; reflexivity|exact Hy].
Qed.

Lemma StronglySorted_gt_NoDup l : StronglySorted Z.gt l -> NoDup l.
Proof.
  intros H. induction H as [|a l Hs IH Hall]; constructor; [|exact IH].
  intros Hin. rewrite Forall_forall in Hall. specialize (Hall a Hin). lia.
Qed.

(** [solve] meets the grids in decreasing numeric order: with a wall on a
    slot before without. *)
Lemma dfs_sorted pz n : forall sol s,
  Z.of_nat n = 64 - s -> 0 <= s -> clear_from sol s ->
  StronglySorted Z.gt (dfs n pz sol s).
Proof.
  induction n as [|n IH]; intros sol s Hn Hs Hclear; [constructor|].
  assert (Hs63 : 0 <= s < 64) by lia.
  assert (Hpos : 0 < 2 ^ (63 - s)) by (apply Z.pow_pos_nonneg; lia).
  pose proof (slot_set_add sol s Hs63 (Hclear s ltac:(lia))) as Eset.
  assert (Hc1 : clear_from (slot_set sol s) (s + 1)) by (apply clear_from_set; assumption).
  assert (Hc0 : clear_from sol (s + 1)) by (apply (clear_from_weaken sol s); [assumption|lia]).
  assert (Hvisit : forall sol', clear_from sol' (s + 1) ->
             StronglySorted Z.gt (visit (dfs n pz) pz sol' s)).
  { intros sol' Hc. unfold visit. destruct (check_constraints pz sol' s); [|constructor].
    destruct (Z.ltb_spec s 63); [apply IH; [lia|lia|exact Hc]|].
    constructor; constructor. }
  cbn [dfs]. apply StronglySorted_app; [apply Hvisit, Hc1|apply Hvisit, Hc0|].
  intros a b Ha Hb.
  apply In_visit in Ha as [_ Ha]. apply In_visit in Hb as [_ Hb].
  destruct (Z.ltb_spec s 63).
  - apply dfs_range in Ha; [|lia|lia|exact Hc1].
    apply dfs_range in Hb; [|lia|lia|exact Hc0].
    replace (64 - (s + 1)) with (63 - s) in Ha, Hb by lia. lia.
  - subst a b. lia.
Qed.

Lemma all_solutions_sorted pz : StronglySorted Z.gt (all_solutions pz).
Proof.
  rewrite all_solutions_eq. apply dfs_sorted; [reflexivity|lia|apply clear_from_0].
Qed.

Lemma all_solutions_valid pz g :
  In g (all_solutions pz) <-> in_u64 g /\ valid_solution pz g.
Proof.
  split.
  - intros Hin. apply all_solutions_sound in Hin as [Hg Hvalid].
    split; [exact Hg|]. intros s Hs. apply prefix_valid_full; assumption.
  - intros [Hg Hvalid]. apply all_solutions_complete; [exact Hg|].
    apply valid_prefix_valid; assumption.
Qed.

(** X10.  [solve] is sound and complete: there is a list of grids, without
    repetition and in strictly decreasing numeric order, whose members are
    exactly the 64-bit grids that pass the seven checks at every slot;
    [solve] returns its length, and stores its first entries, in that
    order, as far as the capacity of the array goes. *)
Theorem solve_finds_the_valid_grids
    (pz : Puzzle) (solutions : list Z) (max_solutions : Z)
    (Hcap : Z.of_nat (length solutions) = max_solutions) :
  exists found,
    (forall g, In g found <-> in_u64 g /\ valid_solution pz g)
    /\ NoDup found
    /\ StronglySorted Z.gt found
    /\ fst (solve pz solutions max_solutions) = Z.of_nat (length found)
    /\ forall j, 0 <= j < Z.min (fst (solve pz solutions max_solutions)) max_solutions ->
         nth (Z.to_nat j) (snd (solve pz solutions max_solutions)) 0
         = nth (Z.to_nat j) found 0.
Proof.
  exists (all_solutions pz).
  split; [intros g; apply all_solutions_valid|].
  split; [apply StronglySorted_gt_NoDup, all_solutions_sorted|].
  split; [apply all_solutions_sorted|].
  split; [apply solve_count|].
  intros j Hj. exact (proj1 (stored_in_all_solutions pz solutions max_solutions j Hcap Hj)).
Qed.

Lemma solve_finds_the_valid_grids_witness :
  exists found,
    (forall g, In g found <-> in_u64 g /\ valid_solution main_puzzle g)
    /\ NoDup found
    /\ StronglySorted Z.gt found
    /\ fst (solve main_puzzle [0] 1) = Z.of_nat (length found)
    /\ forall j, 0 <= j < Z.min (fst (solve main_puzzle [0] 1)) 1 ->
         nth (Z.to_nat j) (snd (solve main_puzzle [0] 1)) 0 = nth (Z.to_nat j) found 0.
Proof. exact (solve_finds_the_valid_grids main_puzzle [0] 1 eq_refl). Defined.

(** ** What a valid grid is, stated on the whole grid *)

Lemma slot_of_row_end i :
  0 <= i < 8 ->
  row (pos_from_slot (i * 8 + 7)) = i /\ col (pos_from_slot (i * 8 + 7)) = 7.
Proof.
  intros Hi. unfold pos_from_slot. cbn [row col]. Z.quot_rem_to_equations. lia.
Qed.

Lemma slot_of_col_end i :
  0 <= i < 8 ->
  row (pos_from_slot (56 + i)) = 7 /\ col (pos_from_slot (56 + i)) = i.
Proof.
  intros Hi. unfold pos_from_slot. cbn [row col]. Z.quot_rem_to_equations. lia.
Qed.

Lemma pos_from_slot_in_range s :
  0 <= s < 64 -> 0 <= row (pos_from_slot s) < 8 /\ 0 <= col (pos_from_slot s) < 8.
Proof.
  intros Hs. unfold pos_from_slot. cbn [row col]. Z.quot_rem_to_equations. lia.
Qed.

(** X11.  A 64-bit grid passes the seven checks at every slot exactly when
    no wall lies on a monster or treasure, every row and column holds
    exactly its target number of walls, no position is a dead end, no
    monster is invalid, no slot closes a wide open space, and the treasure
    rooms pass the check of the last slot. *)
Theorem valid_grid_meaning (pz : Puzzle) (g : Z) (Hg : in_u64 g) :
  (forall s, 0 <= s < 64 -> check_constraints pz g s = true)
  <-> Z.land g (treasures pz) = 0 /\ Z.land g (monsters pz) = 0
      /\ (forall i, 0 <= i < 8 ->
            count_walls_in_row g i = array_get (row_wall_counts pz) i
            /\ count_walls_in_col g i = array_get (col_wall_counts pz) i)
      /\ (forall q, is_dead_end pz g q = false)
      /\ (forall q, is_invalid_monster pz g q = false)
      /\ (forall s, 0 <= s < 64 -> check_wide_space pz g s = true)
      /\ check_treasure_rooms pz g 63 = true.
Proof.
  split.
  - intros Hvalid.
    pose proof (valid_prefix_valid pz g Hg Hvalid) as Hprefix.
    pose proof (Hvalid 63 ltac:(lia)) as H63.
    apply check_constraints_true in H63 as (Ho & _ & _ & _ & _ & _ & Ht).
    apply check_doesnt_overlap_true in Ho as [Ho1 Ho2].
    split; [exact Ho1|]. split; [exact Ho2|].
    split.
    { intros i Hi. split.
      - pose proof (Hvalid (i * 8 + 7) ltac:(lia)) as H.
        apply check_constraints_true in H as (_ & H & _).
        apply check_row_count_true in H as [_ H].
        destruct (slot_of_row_end i Hi) as [Er Ec]. rewrite Er in H. exact (H Ec).
      - pose proof (Hvalid (56 + i) ltac:(lia)) as H.
        apply check_constraints_true in H as (_ & _ & H & _).
        apply check_col_count_true in H as [_ H].
        destruct (slot_of_col_end i Hi) as [Er Ec]. rewrite Ec in H. exact (H Er). }
    split; [intros q; apply prefix_valid_no_dead_end; assumption|].
    split; [intros q; apply prefix_valid_monsters; assumption|].
    split; [|exact Ht].
    intros s Hs. pose proof (Hvalid s Hs) as H.
    apply check_constraints_true in H. tauto.
  - intros (Ho1 & Ho2 & Hcounts & Hdead & Hmon & Hwide & Ht) s Hs.
    destruct (pos_from_slot_in_range s Hs) as [Hr Hc].
    apply check_constraints_true.
    split; [apply check_doesnt_overlap_true; split; assumption|].
    split.
    { apply check_row_count_true.
      destruct (Hcounts _ Hr) as [E _]. rewrite E. split; [lia|reflexivity]. }
    split.
    { apply check_col_count_true.
      destruct (Hcounts _ Hc) as [_ E]. rewrite E. split; [lia|reflexivity]. }
    split; [apply check_dead_ends_true; repeat split; apply Hdead|].
    split; [apply check_monsters_true; repeat split; intros; apply Hmon|].
    split; [apply Hwide, Hs|]. apply check_treasure_rooms_last, Ht.
Qed.

Lemma valid_grid_meaning_witness :
  (forall s, 0 <= s < 64 -> check_constraints empty_puzzle 0 s = true)
  <-> Z.land 0 (treasures empty_puzzle) = 0 /\ Z.land 0 (monsters empty_puzzle) = 0
      /\ (forall i, 0 <= i < 8 ->
            count_walls_in_row 0 i = array_get (row_wall_counts empty_puzzle) i
            /\ count_walls_in_col 0 i = array_get (col_wall_counts empty_puzzle) i)
      /\ (forall q, is_dead_end empty_puzzle 0 q = false)
      /\ (forall q, is_invalid_monster empty_puzzle 0 q = false)
      /\ (forall s, 0 <= s < 64 -> check_wide_space empty_puzzle 0 s = true)
      /\ check_treasure_rooms empty_puzzle 0 63 = true.
Proof. apply (valid_grid_meaning empty_puzzle 0). unfold in_u64. lia. Defined.

(** ** The record derived from a generated grid *)

Lemma map_map_range8 (f h : Z -> Z) :
  (forall i, 0 <= i < 8 -> f i = h i) -> map f range8 = map h range8.
Proof.
  intros H. apply map_ext_in. intros i Hi. apply H.
  unfold range8 in Hi. cbn [In] in Hi. lia.
Qed.

(** X12.  The record [generate] derives from a complete 64-bit grid: the
    casts to [u8] lose nothing, so that its eight row (column) targets are
    the wall counts of the grid; the two sums of targets agree; and the
    grid meets the row and column checks of its record at every slot. *)
Theorem derived_counts_fit (M T g : Z) (Hg : in_u64 g) :
  (forall i, 0 <= i < 8 ->
     array_get (row_wall_counts (valid_puzzle M T g)) i = count_walls_in_row g i
     /\ array_get (col_wall_counts (valid_puzzle M T g)) i = count_walls_in_col g i)
  /\ sum_list (row_wall_counts (valid_puzzle M T g)) = count_set_bits g
  /\ sum_list (col_wall_counts (valid_puzzle M T g)) = count_set_bits g
  /\ forall s, 0 <= s < 64 ->
       check_row_count (valid_puzzle M T g) g s = true
       /\ check_col_count (valid_puzzle M T g) g s = true.
Proof.
  assert (Hget : forall i, 0 <= i < 8 ->
     array_get (row_wall_counts (valid_puzzle M T g)) i = count_walls_in_row g i
     /\ array_get (col_wall_counts (valid_puzzle M T g)) i = count_walls_in_col g i).
  { intros i Hi. unfold valid_puzzle. cbn [row_wall_counts col_wall_counts].
    rewrite !array_get_map_range8 by assumption.
    destruct (count_walls_bounds g i Hg Hi) as [Hr Hc].
    rewrite !u8_cast_small by assumption. split; reflexivity. }
  split; [exact Hget|].
  split; [|split].
  - unfold valid_puzzle. cbn [row_wall_counts].
    rewrite (map_map_range8 _ (count_walls_in_row g)); [apply row_counts_sum, Hg|].
    intros i Hi. apply u8_cast_small, (count_walls_bounds g i Hg Hi).
  - unfold valid_puzzle. cbn [col_wall_counts].
    rewrite (map_map_range8 _ (count_walls_in_col g)); [apply col_counts_sum, Hg|].
    intros i Hi. apply u8_cast_small, (count_walls_bounds g i Hg Hi).
  - intros s Hs. destruct (pos_from_slot_in_range s Hs) as [Hr Hc].
    split.
    + apply check_row_count_true. destruct (Hget _ Hr) as [E _]. rewrite E.
      split; [lia|reflexivity].
    + apply check_col_count_true. destruct (Hget _ Hc) as [_ E]. rewrite E.
      split; [lia|reflexivity].
Qed.

Lemma derived_counts_fit_witness :
  sum_list (row_wall_counts (valid_puzzle 0 0 ring_grid)) = count_set_bits ring_grid.
Proof.
  apply (derived_counts_fit 0 0 ring_grid). unfold in_u64, ring_grid. lia.
Defined.

(** ** The output array of [generate] *)

Lemma u64_succ_small x : 0 <= x -> x + 1 < 2 ^ 64 -> u64_succ x = x + 1.
Proof. intros H0 H1. unfold u64_succ. apply Z.mod_small. lia. Qed.

Lemma gen_body_rest_untouched puzzles max_puzzles st :
  max_puzzles < 2 ^ 64 ->
  rest_untouched puzzles max_puzzles st ->
  rest_untouched puzzles max_puzzles (gen_body max_puzzles st).
Proof.
  intros Hmax (Hi & Hlen & Hrest).
  destruct (gen_cycle_outputs st) as (Ei & Ep & _).
  unfold gen_body. cbv zeta. rewrite Ei, Ep.
  destruct (gen_checks _ _ _); [|exact (conj Hi (conj Hlen Hrest))].
  destruct (g_slot (gen_cycle st) <? 63); [exact (conj Hi (conj Hlen Hrest))|].
  destruct (Z.ltb_spec (g_puzzle_i st) max_puzzles) as [Hroom|Hfull];
    [|exact (conj Hi (conj Hlen Hrest))].
  unfold rest_untouched. cbn [g_puzzle_i g_puzzles].
  rewrite u64_succ_small by lia.
  split; [lia|]. split; [rewrite store_length; exact Hlen|].
  intros j d Hj. rewrite nth_store.
  destruct (Nat.eqb_spec j (Z.to_nat (g_puzzle_i st))) as [Heq|Hne]; [lia|].
  cbn [andb]. apply Hrest. lia.
Qed.

(** X13.  [generate] leaves the length of the output array unchanged and
    writes only the entries below the count it returns: every entry from
    that index on is what it was before the call. *)
Theorem generate_writes_below_count
    (puzzles : list GeneratedPuzzle) (max_puzzles : Z)
    (Hmax : 0 <= max_puzzles < 2 ^ 64) :
  length (snd (generate puzzles max_puzzles)) = length puzzles
  /\ forall j d, fst (generate puzzles max_puzzles) <= Z.of_nat j ->
       nth j (snd (generate puzzles max_puzzles)) d = nth j puzzles d.
Proof.
  assert (H : rest_untouched puzzles max_puzzles
                (run gen_cond (gen_body max_puzzles) gen_depth (gen_init puzzles))).
  { apply (run_invariant gen_cond (gen_body max_puzzles)
             (rest_untouched puzzles max_puzzles)).
    - intros st Hst _. apply gen_body_rest_untouched; [lia|exact Hst].
    - unfold rest_untouched, gen_init. cbn [g_puzzle_i g_puzzles].
      split; [lia|]. split; reflexivity. }
  destruct H as (Hi & Hlen & Hrest).
  unfold generate. cbv zeta. cbn [fst snd].
  split; [exact Hlen|]. intros j d Hj. apply Hrest. lia.
Qed.

Lemma generate_writes_below_count_witness :
  length (snd (generate [no_puzzle] 1)) = length [no_puzzle].
Proof.
  apply (generate_writes_below_count [no_puzzle] 1). lia.
Defined.

Lemma steps_related {St : Type} (cond : St -> bool) (body : St -> St)
    (R : St -> St -> Prop) :
  (forall a b, R a b -> cond a = cond b) ->
  (forall a b, R a b -> cond a = true -> R (body a) (body b)) ->
  forall k a b, R a b ->
    R (Nat.iter k (iter cond body) a) (Nat.iter k (iter cond body) b).
Proof.
  intros Hcond Hbody k a b Hab. induction k as [|k IH]; [exact Hab|].
  simpl.
  set (x := Nat.iter k (iter cond body) a) in *.
  set (y := Nat.iter k (iter cond body) b) in *.
  unfold iter. rewrite <- (Hcond x y IH).
  destruct (cond x) eqn:E; [|exact IH].
  apply Hbody; assumption.
Qed.

Lemma gen_cycle_same max_puzzles a b :
  same_search max_puzzles a b -> same_search max_puzzles (gen_cycle a) (gen_cycle b).
Proof.
  intros (Et & Em & Etr & Es & Esl & Ei & Er & Hi & Hcap & El & Ep).
  unfold gen_cycle. rewrite Et, Em, Etr, Es, Esl.
  destruct (tile_at (g_tiles b) (g_slot b));
    unfold same_search;
    cbn [g_tiles g_monsters g_treasures g_solution g_slot g_puzzle_i g_returned g_puzzles];
    repeat split; try assumption; apply Hi.
Qed.

Lemma gen_body_same max_puzzles a b :
  max_puzzles < 2 ^ 64 ->
  same_search max_puzzles a b ->
  same_search max_puzzles (gen_body max_puzzles a) (gen_body max_puzzles b).
Proof.
  intros Hmax Hab. apply gen_cycle_same in Hab. revert Hab.
  unfold gen_body. cbv zeta.
  generalize (gen_cycle a) (gen_cycle b). clear a b.
  intros a b (Et & Em & Etr & Es & Esl & Ei & Er & Hi & Hcap & El & Ep).
  unfold g_puzzle. rewrite Et, Em, Etr, Es, Esl, <- Ei.
  destruct (gen_checks _ _ _).
  2:{ unfold same_search.
      cbn [g_tiles g_monsters g_treasures g_solution g_slot g_puzzle_i g_returned g_puzzles].
      repeat split; try assumption; apply Hi. }
  destruct (g_slot b <? 63).
  { unfold same_search.
    cbn [g_tiles g_monsters g_treasures g_solution g_slot g_puzzle_i g_returned g_puzzles].
    repeat split; try assumption; apply Hi. }
  destruct (Z.ltb_spec (g_puzzle_i a) max_puzzles) as [Hroom|Hfull].
  2:{ unfold same_search.
      cbn [g_tiles g_monsters g_treasures g_solution g_slot g_puzzle_i g_returned g_puzzles].
      repeat split; try assumption; apply Hi. }
  unfold same_search.
  cbn [g_tiles g_monsters g_treasures g_solution g_slot g_puzzle_i g_returned g_puzzles].
  rewrite (u64_succ_small (g_puzzle_i a)) by lia. rewrite !store_length.
  repeat split; try assumption; try reflexivity; try lia.
  intros j d Hj. rewrite !nth_store, <- El.
  destruct (Nat.eqb_spec j (Z.to_nat (g_puzzle_i a))) as [Heq|Hne]; cbn [andb].
  - destruct (Nat.ltb_spec (Z.to_nat (g_puzzle_i a)) (length (g_puzzles a)));
      [reflexivity|lia].
  - apply Ep. lia.
Qed.

(** X14.  [generate] does not depend on what the output array holds when
    it is called: over two arrays of the same length, at least
    [max_puzzles], it returns the same count and writes the same entries
    below that count. *)
Theorem generate_ignores_array_contents
    (puzzles1 puzzles2 : list GeneratedPuzzle) (max_puzzles : Z)
    (Hmax : 0 <= max_puzzles < 2 ^ 64)
    (Hlen : length puzzles1 = length puzzles2)
    (Hcap : max_puzzles <= Z.of_nat (length puzzles1)) :
  fst (generate puzzles1 max_puzzles) = fst (generate puzzles2 max_puzzles)
  /\ forall j d, Z.of_nat j < fst (generate puzzles1 max_puzzles) ->
       nth j (snd (generate puzzles1 max_puzzles)) d
       = nth j (snd (generate puzzles2 max_puzzles)) d.
Proof.
  assert (H : same_search max_puzzles
                (run gen_cond (gen_body max_puzzles) gen_depth (gen_init puzzles1))
                (run gen_cond (gen_body max_puzzles) gen_depth (gen_init puzzles2))).
  { rewrite !run_steps. apply steps_related.
    - intros a b (_ & _ & _ & _ & Esl & _ & Er & _). unfold gen_cond.
      rewrite Esl, Er. reflexivity.
    - intros a b Hab _. apply gen_body_same; [lia|exact Hab].
    - unfold same_search, gen_init.
      cbn [g_tiles g_monsters g_treasures g_solution g_slot g_puzzle_i g_returned g_puzzles].
      repeat split; try assumption; try lia;
        try (intros j d Hj; change (Z.to_nat 0) with 0%nat in Hj; lia). }
  destruct H as (_ & _ & _ & _ & _ & Ei & _ & Hi & _ & _ & Ep).
  unfold generate. cbv zeta. cbn [fst snd].
  split; [exact Ei|]. intros j d Hj. apply Ep. lia.
Qed.

Lemma generate_ignores_array_contents_witness :
  fst (generate [no_puzzle] 1)
  = fst (generate [mkGeneratedPuzzle main_puzzle 7] 1).
Proof.
  apply (generate_ignores_array_contents [no_puzzle] [mkGeneratedPuzzle main_puzzle 7] 1);
    [lia|reflexivity|cbn [length]; lia].
Defined.

(** ** What the printing functions show *)

Lemma picture_of_slots (h : Pos -> ascii) :
  flat_map (fun i => [h (pos_from_slot i)] ++ (if i mod 8 =? 7 then [newline] else []))
           print_range
  = grid_picture h.
Proof. reflexivity. Qed.

Lemma flat_map_ext_in {A B : Type} (f h : A -> list B) l :
  (forall x, In x l -> f x = h x) -> flat_map f l = flat_map h l.
Proof.
  intros H. induction l as [|x l IH]; [reflexivity|].
  cbn [flat_map]. rewrite (H x (or_introl eq_refl)), IH; [reflexivity|].
  intros y Hy. apply H. right. exact Hy.
Qed.

Lemma In_print_range i : In i print_range -> 0 <= i < 64.
Proof.
  unfold print_range. intros H. apply in_map_iff in H as (n & <- & Hn).
  apply in_seq in Hn. lia.
Qed.

Lemma truthy_bit_at x i : 0 <= i < 64 -> truthy (bit_at x i) = Z.testbit x (63 - i).
Proof.
  intros Hi. unfold bit_at.
  change 1 with (2 ^ 0). rewrite truthy_land_bit by lia.
  rewrite Z.shiftr_spec by lia. reflexivity.
Qed.

Lemma truthy_pos_from_slot x i :
  0 <= i < 64 -> truthy (pos_is_set x (pos_from_slot i)) = Z.testbit x (63 - i).
Proof.
  intros Hi.
  assert (Hin : pos_in_range (pos_from_slot i)).
  { unfold pos_in_range, pos_from_slot. cbn [row col]. Z.quot_rem_to_equations. lia. }
  rewrite pos_is_set_eq, truthy_land_bit by (exact Hin || apply pos_bit_range, Hin).
  f_equal. unfold pos_bit, pos_from_slot. cbn [row col]. Z.quot_rem_to_equations. lia.
Qed.

Lemma bit_at_cases x i : 0 <= i < 64 -> bit_at x i = Z.b2z (Z.testbit x (63 - i)).
Proof.
  intros Hi. unfold bit_at. change 1 with (2 ^ 0).
  rewrite land_bit by lia. rewrite Z.shiftr_spec by lia.
  replace (0 + (63 - i)) with (63 - i) by lia.
  destruct (Z.testbit x (63 - i)); reflexivity.
Qed.

Lemma print_puzzle_picture_eq pz g :
  print_puzzle pz g
  = grid_picture (fun p => cell_symbol (truthy (pos_is_set (monsters pz) p))
                                       (truthy (pos_is_set (treasures pz) p))
                                       (truthy (pos_is_set g p))).
Proof.
  rewrite <- picture_of_slots. unfold print_puzzle.
  apply flat_map_ext_in. intros i Hi. apply In_print_range in Hi. cbv zeta.
  rewrite !truthy_bit_at, !truthy_pos_from_slot by assumption.
  f_equal. unfold cell_symbol.
  destruct (Z.testbit (monsters pz) (63 - i)), (Z.testbit (treasures pz) (63 - i)),
    (Z.testbit g (63 - i)); reflexivity.
Qed.

Lemma pos_bit_helper m p :
  pos_in_range p ->
  Z.land m (2 ^ pos_bit p) = Z.land m (u64_shl 1 (63 - (row p * 8 + col p))).
Proof.
  intros Hp. pose proof (pos_is_set_eq m p Hp) as E. unfold pos_is_set in E.
  rewrite pos_range_false in E by exact Hp. symmetry. exact E.
Qed.

(** X15.  [print_puzzle] writes eight lines of eight symbols, row after
    row (72 characters): the symbol of a cell is [M], [T] or [X] when the
    cell is set in the monster grid, the treasure grid or the wall grid
    only, [.] when it is set in none, and [?] when it is set in two or
    three of them. *)
Theorem print_puzzle_picture (pz : Puzzle) (g : Z) :
  print_puzzle pz g
  = grid_picture (fun p => cell_symbol (truthy (pos_is_set (monsters pz) p))
                                       (truthy (pos_is_set (treasures pz) p))
                                       (truthy (pos_is_set g p)))
  /\ length (print_puzzle pz g) = 72%nat.
Proof.
  pose proof (print_puzzle_picture_eq pz g) as E.
  split; [exact E|]. rewrite E. reflexivity.
Qed.

Lemma picture_cell (h : Pos -> ascii) r c d :
  0 <= r < 8 -> 0 <= c < 8 ->
  nth (Z.to_nat (9 * r + c)) (grid_picture h) d = h (mkPos r c).
Proof.
  intros Hr Hc.
  assert (Er : r = 0 \/ r = 1 \/ r = 2 \/ r = 3 \/ r = 4 \/ r = 5 \/ r = 6 \/ r = 7)
    by lia.
  assert (Ec : c = 0 \/ c = 1 \/ c = 2 \/ c = 3 \/ c = 4 \/ c = 5 \/ c = 6 \/ c = 7)
    by lia.
  destruct Er as [->|[->|[->|[->|[->|[->|[->| ->]]]]]]];
    destruct Ec as [->|[->|[->|[->|[->|[->|[->| ->]]]]]]]; reflexivity.
Qed.

Lemma cell_symbol_inj m1 t1 w1 m2 t2 w2 :
  m1 && t1 = false -> m1 && w1 = false -> t1 && w1 = false ->
  m2 && t2 = false -> m2 && w2 = false -> t2 && w2 = false ->
  cell_symbol m1 t1 w1 = cell_symbol m2 t2 w2 ->
  m1 = m2 /\ t1 = t2 /\ w1 = w2.
Proof.
  destruct m1, t1, w1, m2, t2, w2; cbn; intros; try discriminate; repeat split.
Qed.

Lemma land_zero_bits a b k : Z.land a b = 0 -> Z.testbit a k && Z.testbit b k = false.
Proof. intros H. rewrite <- Z.land_spec, H. apply Z.testbit_0_l. Qed.

Lemma u64_eq_of_cells a b :
  in_u64 a -> in_u64 b ->
  (forall r c, 0 <= r < 8 -> 0 <= c < 8 ->
     truthy (pos_is_set a (mkPos r c)) = truthy (pos_is_set b (mkPos r c))) ->
  a = b.
Proof.
  intros Ha Hb H. apply Z.bits_inj'. intros k Hk.
  destruct (Z_lt_le_dec k 64) as [Hlt|Hge].
  - specialize (H ((63 - k) / 8) ((63 - k) mod 8)
                  ltac:(Z.div_mod_to_equations; lia) ltac:(Z.div_mod_to_equations; lia)).
    assert (Hin : pos_in_range (mkPos ((63 - k) / 8) ((63 - k) mod 8))).
    { unfold pos_in_range. cbn [row col]. Z.div_mod_to_equations. lia. }
    rewrite !pos_is_set_eq, !truthy_land_bit in H
      by (exact Hin || apply pos_bit_range, Hin).
    replace (pos_bit (mkPos ((63 - k) / 8) ((63 - k) mod 8))) with k in H; [exact H|].
    unfold pos_bit. cbn [row col]. Z.div_mod_to_equations. lia.
  - rewrite !testbit_in_u64_high by assumption. reflexivity.
Qed.

(** X16.  On records and grids in which no cell is set twice (no wall on a
    monster or treasure, no monster on a treasure), [print_puzzle] never
    writes [?] and its output determines the three grids: two such inputs
    that print alike have the same monsters, treasures and walls. *)
Theorem print_puzzle_determines_grids (pz1 pz2 : Puzzle) (g1 g2 : Z)
    (H1 : in_u64 (monsters pz1) /\ in_u64 (treasures pz1) /\ in_u64 g1)
    (H2 : in_u64 (monsters pz2) /\ in_u64 (treasures pz2) /\ in_u64 g2)
    (D1 : Z.land (monsters pz1) (treasures pz1) = 0
          /\ Z.land (monsters pz1) g1 = 0 /\ Z.land (treasures pz1) g1 = 0)
    (D2 : Z.land (monsters pz2) (treasures pz2) = 0
          /\ Z.land (monsters pz2) g2 = 0 /\ Z.land (treasures pz2) g2 = 0) :
  ~ In "?"%char (print_puzzle pz1 g1)
  /\ (print_puzzle pz1 g1 = print_puzzle pz2 g2 ->
      monsters pz1 = monsters pz2 /\ treasures pz1 = treasures pz2 /\ g1 = g2).
Proof.
  destruct H1 as (HM1 & HT1 & Hg1). destruct H2 as (HM2 & HT2 & Hg2).
  destruct D1 as (Dmt1 & Dmw1 & Dtw1). destruct D2 as (Dmt2 & Dmw2 & Dtw2).
  assert (Hdisj : forall M T g p,
            Z.land M T = 0 -> Z.land M g = 0 -> Z.land T g = 0 ->
            truthy (pos_is_set M p) && truthy (pos_is_set T p) = false
            /\ truthy (pos_is_set M p) && truthy (pos_is_set g p) = false
            /\ truthy (pos_is_set T p) && truthy (pos_is_set g p) = false).
  { intros M T g p Dmt Dmw Dtw. unfold pos_is_set.
    destruct (pos_out_of_range p) eqn:E; [repeat split; reflexivity|].
    apply pos_out_of_range_false_inv in E. pose proof (pos_bit_range p E) as Hb.
    rewrite <- !pos_bit_helper by exact E.
    rewrite !truthy_land_bit by lia.
    repeat split; apply land_zero_bits; assumption. }
  split.
  - rewrite (print_puzzle_picture_eq pz1 g1).
    unfold grid_picture. intros Hin. apply in_flat_map in Hin as (r & _ & Hin).
    apply in_app_or in Hin as [Hin|[Hin|[]]]; [|discriminate Hin].
    apply in_map_iff in Hin as (c & Hc & _). revert Hc.
    destruct (Hdisj (monsters pz1) (treasures pz1) g1 (mkPos r c) Dmt1 Dmw1 Dtw1)
      as (A & B & C).
    unfold cell_symbol.
    destruct (truthy (pos_is_set (monsters pz1) (mkPos r c))),
      (truthy (pos_is_set (treasures pz1) (mkPos r c))),
      (truthy (pos_is_set g1 (mkPos r c))); cbn in A, B, C |- *;
      try discriminate; intros Hc; discriminate Hc.
  - intros Heq.
    rewrite (print_puzzle_picture_eq pz1 g1), (print_puzzle_picture_eq pz2 g2) in Heq.
    assert (Hcell : forall r c, 0 <= r < 8 -> 0 <= c < 8 ->
              truthy (pos_is_set (monsters pz1) (mkPos r c))
              = truthy (pos_is_set (monsters pz2) (mkPos r c))
              /\ truthy (pos_is_set (treasures pz1) (mkPos r c))
                 = truthy (pos_is_set (treasures pz2) (mkPos r c))
              /\ truthy (pos_is_set g1 (mkPos r c))
                 = truthy (pos_is_set g2 (mkPos r c))).
    { intros r c Hr Hc.
      pose proof (f_equal (fun l => nth (Z.to_nat (9 * r + c)) l newline) Heq) as E.
      cbv beta in E. rewrite !picture_cell in E by assumption.
      destruct (Hdisj (monsters pz1) (treasures pz1) g1 (mkPos r c) Dmt1 Dmw1 Dtw1)
        as (A1 & B1 & C1).
      destruct (Hdisj (monsters pz2) (treasures pz2) g2 (mkPos r c) Dmt2 Dmw2 Dtw2)
        as (A2 & B2 & C2).
      apply cell_symbol_inj; assumption. }
    repeat split; apply u64_eq_of_cells; try assumption;
      intros r c Hr Hc; apply (Hcell r c Hr Hc).
Qed.

Lemma print_puzzle_determines_grids_witness :
  ~ In "?"%char (print_puzzle main_puzzle 0).
Proof.
  apply (fun H1 H2 D1 D2 =>
           proj1 (print_puzzle_determines_grids main_puzzle main_puzzle 0 0 H1 H2 D1 D2));
    repeat split; first [reflexivity | vm_compute; intro; discriminate].
Defined.

Lemma decimal_bit x i :
  0 <= i < 64 ->
  decimal (bit_at x i) = [if Z.testbit x (63 - i) then "1"%char else "0"%char].
Proof.
  intros Hi. rewrite bit_at_cases by assumption.
  destruct (Z.testbit x (63 - i)); reflexivity.
Qed.

Lemma read_decimal_decimal x : 0 <= x -> read_decimal (decimal x) = Some x.
Proof.
  intros Hx. unfold read_decimal, decimal, chars.
  rewrite string_of_list_ascii_of_string, NilZero.usu.
  - cbn [option_map]. rewrite DecimalN.Unsigned.of_to, Z2N.id by assumption. reflexivity.
  - destruct (Z.to_N x) as [|p]; [discriminate|].
    apply DecimalPos.Unsigned.to_uint_nonnil.
Qed.

(** X17.  [print_grid] writes the line [grid: ] followed by the value in
    decimal (which reads back as the value), then the 64 bits of the value
    as eight lines of eight digits, the most significant bit first: the
    digit of a cell is 1 exactly when the cell is set in the value. *)
Theorem print_grid_picture (result : Z) (Hresult : 0 <= result) :
  print_grid result
  = chars "grid: " ++ decimal result ++ [newline]
    ++ grid_picture (fun p => if truthy (pos_is_set result p) then "1"%char
                              else "0"%char)
  /\ read_decimal (decimal result) = Some result.
Proof.
  split; [|apply read_decimal_decimal, Hresult].
  unfold print_grid. do 3 f_equal.
  rewrite <- picture_of_slots. apply flat_map_ext_in. intros i Hi.
  apply In_print_range in Hi.
  rewrite decimal_bit, truthy_pos_from_slot by assumption. reflexivity.
Qed.

Lemma print_grid_picture_witness :
  read_decimal (decimal 606343967414771979) = Some 606343967414771979.
Proof. apply (proj2 (print_grid_picture 606343967414771979 ltac:(lia))). Defined.

(** ** What [solve] prints *)

Section SolveOutput.
Variable pz : Puzzle.
Variable cap : Z.

Let io_step := iter (fun sto : SolveState * list ascii => solve_cond (fst sto))
                    (solve_body_io pz cap).

Let io_bound (n : nat) : Z := 2 ^ (Z.of_nat n + 1) - 2.

(** The text printed while the count goes from [i] to [i + len]. *)
Let hit (i len : Z) : list ascii :=
  if (i <=? cap) && (cap <? i + len) then hit_max_message else [].

Let subtree_io (n : nat) : Prop :=
  forall s sol i buf out,
    Z.of_nat n = 64 - s -> 0 <= s -> in_u64 sol -> clear_from sol s ->
    0 <= i -> i + Z.of_nat (length (dfs n pz sol s)) < 2 ^ 64 ->
    exists k,
      Z.of_nat k <= io_bound n
      /\ Nat.iter k io_step (mkSolveState sol s i buf, out)
         = (mkSolveState sol (solve_backtrack (Z.to_nat (s + 1)) sol s)
                         (i + Z.of_nat (length (dfs n pz sol s)))
                         (store_all buf i cap (dfs n pz sol s)),
            out ++ hit i (Z.of_nat (length (dfs n pz sol s)))).

Lemma io_bound_S n : io_bound (S n) = 2 + 2 * io_bound n.
Proof.
  unfold io_bound. rewrite Nat2Z.inj_succ.
  replace (Z.succ (Z.of_nat n) + 1) with (Z.succ (Z.of_nat n + 1)) by lia.
  rewrite Z.pow_succ_r by lia. lia.
Qed.

Lemma hit_add i l1 l2 :
  0 <= l1 -> 0 <= l2 -> hit i (l1 + l2) = hit i l1 ++ hit (i + l1) l2.
Proof.
  intros H1 H2. unfold hit.
  destruct (Z.leb_spec i cap); destruct (Z.ltb_spec cap (i + (l1 + l2)));
    destruct (Z.ltb_spec cap (i + l1)); destruct (Z.leb_spec (i + l1) cap);
    destruct (Z.ltb_spec cap (i + l1 + l2)); cbn [andb app]; try lia;
    rewrite ?app_nil_r; reflexivity.
Qed.

Lemma io_visit n (IH : n <> O -> subtree_io n) s sol0 sol i buf out :
  Z.of_nat (S n) = 64 - s -> 0 <= s ->
  (if negb (truthy (slot_is_set sol0 s)) then slot_set sol0 s
   else slot_unset sol0 s) = sol ->
  in_u64 sol -> clear_from sol (s + 1) -> 0 <= i ->
  i + Z.of_nat (length (visit (dfs n pz) pz sol s)) < 2 ^ 64 ->
  exists k,
    Z.of_nat k <= 1 + io_bound n
    /\ Nat.iter k io_step (mkSolveState sol0 s i buf, out)
       = (mkSolveState sol (solve_backtrack (Z.to_nat (s + 1)) sol s)
                       (i + Z.of_nat (length (visit (dfs n pz) pz sol s)))
                       (store_all buf i cap (visit (dfs n pz) pz sol s)),
          out ++ hit i (Z.of_nat (length (visit (dfs n pz) pz sol s)))).
Proof.
  intros Hn Hs Htoggle Hsol Hclear Hi Hlen.
  assert (Hs63 : s <= 63) by lia.
  assert (Hfirst : io_step (mkSolveState sol0 s i buf, out)
                   = solve_body_io pz cap (mkSolveState sol0 s i buf, out)).
  { unfold io_step, iter, solve_cond. cbn [fst s_slot].
    destruct (Z.leb_spec 0 s); [|lia]. destruct (Z.ltb_spec s 64); [|lia].
    reflexivity. }
  assert (Hbound : 0 <= io_bound n).
  { unfold io_bound.
    assert (2 ^ 1 <= 2 ^ (Z.of_nat n + 1)) by (apply Z.pow_le_mono_r; lia).
    change (2 ^ 1) with 2 in *. lia. }
  unfold solve_body_io in Hfirst.
  cbn [fst snd s_slot s_solution s_solution_i s_solutions] in Hfirst.
  rewrite Htoggle in Hfirst.
  unfold visit in *.
  destruct (check_constraints pz sol s) eqn:Echeck.
  - destruct (Z.ltb_spec s 63) as [Hlt|Hge].
    + assert (Hn0 : n <> O) by lia.
      destruct (IH Hn0 (s + 1) sol i buf out) as (k & Hk & Hrun);
        try assumption; try lia.
      exists (S k). split; [lia|].
      rewrite Nat.iter_succ_r, Hfirst, Hrun.
      rewrite solve_backtrack_clear; [reflexivity|lia|].
      apply Hclear. lia.
    + exists 1%nat. split; [lia|].
      rewrite Nat.iter_succ_r, Hfirst. cbn [Nat.iter nat_rect].
      cbn [length store_all] in *.
      assert (Esucc : u64_succ i = i + Z.of_nat 1)
        by (unfold u64_succ; apply Z.mod_small; lia).
      rewrite Esucc. f_equal. unfold hit. change (Z.of_nat 1) with 1.
      destruct (Z.geb_spec i cap); destruct (Z.eqb_spec i cap);
        destruct (Z.leb_spec i cap); destruct (Z.ltb_spec cap (i + 1));
        cbn [andb]; try lia; rewrite ?app_nil_r; reflexivity.
  - exists 1%nat. split; [lia|].
    rewrite Nat.iter_succ_r, Hfirst. cbn [Nat.iter nat_rect].
    cbn [length store_all]. unfold hit. change (Z.of_nat 0) with 0.
    replace (i + 0) with i by lia.
    destruct (Z.leb_spec i cap); destruct (Z.ltb_spec cap i); cbn [andb]; try lia;
      rewrite app_nil_r; reflexivity.
Qed.

Lemma io_subtree_step n : (n <> O -> subtree_io n) -> subtree_io (S n).
Proof.
  intros Hsub s sol i buf out Hn Hs Hsol Hclear Hi Hlen.
  assert (Hs63 : 0 <= s < 64) by lia.
  assert (Hbit : Z.testbit sol (slot_bit s) = false) by (apply Hclear; lia).
  cbn [dfs] in *. rewrite length_app, Nat2Z.inj_add in *.
  pose proof (Zle_0_nat (length (visit (dfs n pz) pz (slot_set sol s) s))).
  pose proof (Zle_0_nat (length (visit (dfs n pz) pz sol s))).
  destruct (io_visit n Hsub s sol (slot_set sol s) i buf out) as (k1 & Hk1 & Hrun1);
    try assumption; try lia.
  { rewrite truthy_slot_is_set, Hbit by assumption. reflexivity. }
  { apply in_u64_slot_set; assumption. }
  { apply clear_from_set; assumption. }
  rewrite solve_backtrack_set in Hrun1
    by (try assumption;
        rewrite testbit_slot_set, Z.eqb_refl by assumption; reflexivity).
  destruct (io_visit n Hsub s (slot_set sol s) sol
              (i + Z.of_nat (length (visit (dfs n pz) pz (slot_set sol s) s)))
              (store_all buf i cap (visit (dfs n pz) pz (slot_set sol s) s))
              (out ++ hit i (Z.of_nat (length (visit (dfs n pz) pz (slot_set sol s) s)))))
    as (k2 & Hk2 & Hrun2); try assumption; try lia.
  { rewrite truthy_slot_is_set, testbit_slot_set, Z.eqb_refl by assumption.
    cbn [orb negb]. apply slot_unset_set; assumption. }
  { apply (clear_from_weaken sol s); [assumption|lia]. }
  exists (k2 + k1)%nat. split; [rewrite io_bound_S; lia|].
  rewrite Nat.iter_add, Hrun1, Hrun2, store_all_app, hit_add, app_assoc by lia.
  f_equal. f_equal. lia.
Qed.

Lemma io_subtree n : subtree_io (S n).
Proof.
  induction n as [|n IHn]; apply io_subtree_step.
  - intros Hc. exfalso. apply Hc. reflexivity.
  - intros _. exact IHn.
Qed.

Lemma solve_io_run solutions :
  0 <= cap ->
  run (fun sto : SolveState * list ascii => solve_cond (fst sto))
      (solve_body_io pz cap) solve_depth (solve_init solutions, [])
  = (mkSolveState 0 (-1) (Z.of_nat (length (all_solutions pz)))
                  (store_all solutions 0 cap (all_solutions pz)),
     if cap <? Z.of_nat (length (all_solutions pz)) then hit_max_message else []).
Proof.
  intros Hcap.
  pose proof (all_solutions_length pz) as Hlen.
  destruct (io_subtree 63 0 0 0 solutions []) as (k & Hk & Hrun).
  { reflexivity. }
  { lia. }
  { apply in_u64_0. }
  { apply clear_from_0. }
  { lia. }
  { rewrite <- all_solutions_eq. revert Hlen.
    generalize (all_solutions pz). intros found Hlen.
    assert (2 ^ 63 < 2 ^ 64) by reflexivity. lia. }
  rewrite <- all_solutions_eq in Hrun. revert Hlen Hrun.
  generalize (all_solutions pz). intros found Hlen Hrun.
  rewrite !Z.add_0_l in Hrun.
  change (solve_backtrack (Z.to_nat 1) 0 0) with (-1) in Hrun.
  unfold hit in Hrun. rewrite Z.add_0_l in Hrun.
  destruct (Z.leb_spec 0 cap); [|lia]. cbn [andb app] in Hrun.
  unfold solve_init. rewrite <- Hrun.
  apply run_reaches_Z.
  - unfold io_step in Hrun. rewrite Hrun. reflexivity.
  - change (Z.of_nat solve_depth) with 65.
    unfold io_bound in Hk. change (Z.of_nat 64 + 1) with 65 in Hk. lia.
Qed.
End SolveOutput.

(** X18.  [solve] with its output: for a capacity that is not negative it
    returns what [solve] returns; it prints nothing when the number of
    solutions found is at most the capacity of the array, and the line
    [Hit max solutions, no longer recording them.] exactly once when that
    number exceeds the capacity. *)
Theorem solve_prints_hit_max_once
    (pz : Puzzle) (solutions : list Z) (max_solutions : Z)
    (Hmax : 0 <= max_solutions) :
  solve_io pz solutions max_solutions
  = (fst (solve pz solutions max_solutions), snd (solve pz solutions max_solutions),
     if max_solutions <? fst (solve pz solutions max_solutions)
     then hit_max_message else []).
Proof.
  unfold solve_io. cbv zeta. rewrite solve_io_run by exact Hmax.
  rewrite solve_spec. generalize (all_solutions pz). intros found.
  cbn [fst snd s_solution_i s_solutions]. reflexivity.
Qed.

Lemma solve_prints_hit_max_once_witness :
  solve_io main_puzzle [] 0
  = (fst (solve main_puzzle [] 0), snd (solve main_puzzle [] 0),
     if 0 <? fst (solve main_puzzle [] 0) then hit_max_message else []).
Proof. apply (solve_prints_hit_max_once main_puzzle [] 0). lia. Defined.

(** ** The search of [generate] as a recursive enumeration *)

Lemma store_store {A : Type} (l : list A) i a b : store (store l i a) i b = store l i b.
Proof.
  revert i. induction l as [|x l IH]; intros [|i]; cbn [store]; try reflexivity.
  rewrite IH. reflexivity.
Qed.

Lemma store_same {A : Type} (l : list A) i d : store l i (nth i l d) = l.
Proof.
  revert i. induction l as [|x l IH]; intros [|i]; cbn [store nth]; try reflexivity.
  rewrite IH. reflexivity.
Qed.

Lemma gen_cycle_board b s i buf r :
  tile_at (b_tiles b) s = EMPTY ->
  gen_cycle (board_state b s i buf r) = board_state (candidate b s TREASURE) s i buf r.
Proof.
  intros Et. unfold gen_cycle, board_state.
  cbn [g_tiles g_monsters g_treasures g_solution g_slot g_puzzle_i g_puzzles g_returned].
  rewrite Et. reflexivity.
Qed.

Lemma gen_cycle_candidates b s i buf r :
  0 <= s < 64 -> board_ok b s ->
  gen_cycle (board_state (candidate b s TREASURE) s i buf r)
  = board_state (candidate b s MONSTER) s i buf r
  /\ gen_cycle (board_state (candidate b s MONSTER) s i buf r)
     = board_state (candidate b s WALL) s i buf r
  /\ gen_cycle (board_state (candidate b s WALL) s i buf r)
     = board_state (candidate b s EMPTY) s i buf r.
Proof.
  intros Hs (Hlen & HM & HT & Hsol & Hopen).
  destruct (Hopen s ltac:(lia)) as (Et & Em & Etr & Eso).
  assert (Htile : forall t, tile_at (store (b_tiles b) (Z.to_nat s) t) s = t).
  { intros t. rewrite tile_at_store by lia. rewrite Z.eqb_refl. reflexivity. }
  unfold gen_cycle, board_state, candidate.
  cbn [g_tiles g_monsters g_treasures g_solution g_slot g_puzzle_i g_puzzles g_returned
       b_tiles b_monsters b_treasures b_solution].
  rewrite !Htile, !store_store.
  rewrite !slot_unset_set by assumption.
  repeat split.
  destruct b as [tiles M T sol]. cbn [b_tiles b_monsters b_treasures b_solution] in *.
  f_equal. unfold tile_at in Et. rewrite <- Et at 1. apply store_same.
Qed.

Lemma candidate_ok b s t :
  0 <= s < 64 -> board_ok b s ->
  board_ok (candidate b s t) (s + 1) /\ tile_at (b_tiles (candidate b s t)) s = t.
Proof.
  intros Hs (Hlen & HM & HT & Hsol & Hopen).
  assert (Hset : forall X j, s + 1 <= j < 64 ->
            Z.testbit X (slot_bit j) = false ->
            Z.testbit (slot_set X s) (slot_bit j) = false).
  { intros X j Hj HX. rewrite testbit_slot_set, HX by lia. unfold slot_bit.
    destruct (Z.eqb_spec (63 - j) (63 - s)); [lia|reflexivity]. }
  destruct t; unfold board_ok;
    cbn [candidate b_tiles b_monsters b_treasures b_solution].
  - split; [|apply Hopen; lia].
    split; [exact Hlen|]. split; [exact HM|]. split; [exact HT|]. split; [exact Hsol|].
    intros j Hj. apply Hopen. lia.
  - split; [|rewrite tile_at_store, Z.eqb_refl by lia; reflexivity].
    split; [rewrite store_length; exact Hlen|].
    split; [exact HM|]. split; [exact HT|]. split; [apply in_u64_slot_set; assumption|].
    intros j Hj. destruct (Hopen j ltac:(lia)) as (A & B & C & D).
    rewrite tile_at_store by lia. destruct (Z.eqb_spec j s); [lia|].
    repeat split; try assumption. apply Hset; assumption.
  - split; [|rewrite tile_at_store, Z.eqb_refl by lia; reflexivity].
    split; [rewrite store_length; exact Hlen|].
    split; [apply in_u64_slot_set; assumption|]. split; [exact HT|]. split; [exact Hsol|].
    intros j Hj. destruct (Hopen j ltac:(lia)) as (A & B & C & D).
    rewrite tile_at_store by lia. destruct (Z.eqb_spec j s); [lia|].
    repeat split; try assumption. apply Hset; assumption.
  - split; [|rewrite tile_at_store, Z.eqb_refl by lia; reflexivity].
    split; [rewrite store_length; exact Hlen|].
    split; [exact HM|]. split; [apply in_u64_slot_set; assumption|]. split; [exact Hsol|].
    intros j Hj. destruct (Hopen j ltac:(lia)) as (A & B & C & D).
    rewrite tile_at_store by lia. destruct (Z.eqb_spec j s); [lia|].
    repeat split; try assumption. apply Hset; assumption.
Qed.

Lemma gen_backtrack_stay tiles s :
  0 <= s -> tile_at tiles s <> EMPTY -> gen_backtrack (Z.to_nat (s + 1)) tiles s = s.
Proof.
  intros Hs Ht. replace (Z.to_nat (s + 1)) with (S (Z.to_nat s)) by lia.
  cbn [gen_backtrack]. destruct (tile_at tiles s); try reflexivity;
    [contradiction|..]; cbn [Tile_eqb]; rewrite andb_false_r; reflexivity.
Qed.

Lemma gen_backtrack_skip tiles s :
  0 <= s -> tile_at tiles s = EMPTY ->
  gen_backtrack (Z.to_nat (s + 1)) tiles s = gen_backtrack (Z.to_nat s) tiles (s - 1).
Proof.
  intros Hs Ht. replace (Z.to_nat (s + 1)) with (S (Z.to_nat s)) by lia.
  cbn [gen_backtrack]. rewrite Ht. cbn [Tile_eqb].
  destruct (Z.geb_spec s 0); [reflexivity|lia].
Qed.

Lemma store_from_app {A : Type} (l1 l2 : list A) : forall buf i,
  store_from buf i (l1 ++ l2) = store_from (store_from buf i l1) (i + length l1) l2.
Proof.
  induction l1 as [|r l1 IH]; intros buf i.
  - cbn [app store_from length]. rewrite Nat.add_0_r. reflexivity.
  - cbn [app store_from length]. rewrite IH. f_equal. lia.
Qed.

Section GenSearch.
Variable max_puzzles : Z.
Hypothesis Hmax : 0 <= max_puzzles < 2 ^ 64.

Let gstep := iter gen_cond (gen_body max_puzzles).

(** Where the search is after it has dealt with the records [rs], starting
    with count [i] and array [buf]: back on slot [back] of board [b] with
    all of them written, or returned because the array was full. *)
Let outcome (st : GenState) (b : Board) (back i : Z) (buf rs : list GeneratedPuzzle)
  : Prop :=
  (i + Z.of_nat (length rs) <= max_puzzles
   /\ st = board_state b back (i + Z.of_nat (length rs))
                       (store_from buf (Z.to_nat i) rs) false)
  \/ (max_puzzles < i + Z.of_nat (length rs)
      /\ g_returned st = true /\ g_puzzle_i st = max_puzzles
      /\ g_puzzles st = store_from buf (Z.to_nat i)
                                   (firstn (Z.to_nat (max_puzzles - i)) rs)).

Let gsub (n : nat) : Prop :=
  forall s b i buf,
    Z.of_nat n = 64 - s -> 0 <= s -> board_ok b s -> 0 <= i <= max_puzzles ->
    exists k,
      outcome (Nat.iter k gstep (board_state b s i buf false)) b
              (gen_backtrack (Z.to_nat (s + 1)) (b_tiles b) s) i buf (gen_dfs n b s).

Lemma returned_stuck st k : g_returned st = true -> Nat.iter k gstep st = st.
Proof.
  intros Hr. apply steps_finished. unfold gen_cond. rewrite Hr. reflexivity.
Qed.

Lemma gen_body_board bp bc s i buf :
  gen_cycle (board_state bp s i buf false) = board_state bc s i buf false ->
  gen_body max_puzzles (board_state bp s i buf false)
  = if board_checks bc s then
      if s <? 63 then board_state bc (s + 1) i buf false
      else if i <? max_puzzles then
             board_state bc (gen_backtrack (Z.to_nat (s + 1)) (b_tiles bc) s)
                         (u64_succ i) (store buf (Z.to_nat i) (board_record bc)) false
           else board_state bc s i buf true
    else board_state bc (gen_backtrack (Z.to_nat (s + 1)) (b_tiles bc) s) i buf false.
Proof.
  intros Hcycle. unfold gen_body. cbv zeta. rewrite Hcycle.
  unfold board_state, board_checks, board_record, g_puzzle. cbv zeta.
  cbn [g_tiles g_monsters g_treasures g_solution g_slot g_puzzle_i g_puzzles g_returned].
  reflexivity.
Qed.

Lemma outcome_seq st b1 back1 i buf rs1 b2 back2 rs2 :
  0 <= i <= max_puzzles ->
  (exists k1, outcome (Nat.iter k1 gstep st) b1 back1 i buf rs1) ->
  (i + Z.of_nat (length rs1) <= max_puzzles ->
   exists k2,
     outcome (Nat.iter k2 gstep
                (board_state b1 back1 (i + Z.of_nat (length rs1))
                             (store_from buf (Z.to_nat i) rs1) false))
             b2 back2 (i + Z.of_nat (length rs1)) (store_from buf (Z.to_nat i) rs1) rs2) ->
  exists k, outcome (Nat.iter k gstep st) b2 back2 i buf (rs1 ++ rs2).
Proof.
  intros Hi (k1 & [(Hle1 & E1)|(Hgt1 & Hr1 & Hi1 & Hp1)]) H2.
  - destruct (H2 Hle1) as (k2 & O2). exists (k2 + k1)%nat.
    rewrite Nat.iter_add, E1.
    assert (Eidx : Z.to_nat (i + Z.of_nat (length rs1)) = (Z.to_nat i + length rs1)%nat)
      by lia.
    destruct O2 as [(Hle2 & E2)|(Hgt2 & Hr2 & Hi2 & Hp2)]; [left|right].
    + rewrite length_app, Nat2Z.inj_add. split; [lia|].
      rewrite E2, store_from_app, Eidx. f_equal. lia.
    + rewrite length_app, Nat2Z.inj_add. split; [lia|].
      split; [exact Hr2|]. split; [exact Hi2|].
      rewrite Hp2, firstn_app, store_from_app, Eidx.
      rewrite (firstn_all2 rs1) by lia.
      do 2 f_equal. lia.
  - exists k1. right. rewrite length_app, Nat2Z.inj_add.
    split; [lia|]. split; [exact Hr1|]. split; [exact Hi1|].
    rewrite Hp1, firstn_app.
    replace (Z.to_nat (max_puzzles - i) - length rs1)%nat with 0%nat by lia.
    cbn [firstn]. rewrite app_nil_r. reflexivity.
Qed.

Lemma gen_visit_run n (IH : n <> O -> gsub n) s bp bc i buf :
  Z.of_nat (S n) = 64 - s -> 0 <= s ->
  gen_cycle (board_state bp s i buf false) = board_state bc s i buf false ->
  board_ok bc (s + 1) -> 0 <= i <= max_puzzles ->
  exists k,
    outcome (Nat.iter k gstep (board_state bp s i buf false)) bc
            (gen_backtrack (Z.to_nat (s + 1)) (b_tiles bc) s) i buf
            (gen_visit (gen_dfs n) bc s).
Proof.
  intros Hn Hs Hcycle Hok Hi.
  assert (Hs63 : s <= 63) by lia.
  assert (Hfirst : gstep (board_state bp s i buf false)
                   = gen_body max_puzzles (board_state bp s i buf false)).
  { unfold gstep, iter, gen_cond, board_state. cbn [g_returned g_slot].
    destruct (Z.leb_spec 0 s); [|lia]. destruct (Z.ltb_spec s 64); [|lia].
    reflexivity. }
  rewrite (gen_body_board bp bc s i buf Hcycle) in Hfirst.
  unfold gen_visit.
  destruct (board_checks bc s) eqn:Echeck.
  - destruct (Z.ltb_spec s 63) as [Hlt|Hge].
    + assert (Hn0 : n <> O) by lia.
      destruct (IH Hn0 (s + 1) bc i buf) as (k & Hk); try assumption; try lia.
      exists (S k). rewrite Nat.iter_succ_r, Hfirst.
      rewrite gen_backtrack_skip in Hk by (try lia; apply Hok; lia).
      replace (s + 1 - 1) with s in Hk by lia. exact Hk.
    + exists 1%nat. rewrite Nat.iter_succ_r, Hfirst. cbn [Nat.iter nat_rect].
      destruct (Z.ltb_spec i max_puzzles) as [Hroom|Hfull].
      * left. cbn [length store_from]. split; [lia|].
        rewrite u64_succ_small by lia. reflexivity.
      * right. cbn [length]. split; [lia|].
        unfold board_state. cbn [g_returned g_puzzle_i g_puzzles].
        split; [reflexivity|]. split; [lia|].
        replace (Z.to_nat (max_puzzles - i)) with 0%nat by lia. reflexivity.
  - exists 1%nat. rewrite Nat.iter_succ_r, Hfirst. cbn [Nat.iter nat_rect].
    left. cbn [length store_from]. split; [lia|]. f_equal. lia.
Qed.

Lemma gen_subtree_step n : (n <> O -> gsub n) -> gsub (S n).
Proof.
  intros IH s b i buf Hn Hs Hok Hi.
  assert (Hs63 : 0 <= s < 64) by lia.
  pose proof Hok as (_ & _ & _ & _ & Hopen).
  destruct (Hopen s ltac:(lia)) as (Et & _).
  assert (Hback : forall t, t <> EMPTY ->
            gen_backtrack (Z.to_nat (s + 1)) (b_tiles (candidate b s t)) s = s).
  { intros t Ht. apply gen_backtrack_stay; [lia|].
    rewrite (proj2 (candidate_ok b s t Hs63 Hok)). exact Ht. }
  assert (Hvisit : forall bp t i' buf',
            gen_cycle (board_state bp s i' buf' false)
            = board_state (candidate b s t) s i' buf' false ->
            0 <= i' <= max_puzzles ->
            exists k,
              outcome (Nat.iter k gstep (board_state bp s i' buf' false))
                      (candidate b s t)
                      (gen_backtrack (Z.to_nat (s + 1)) (b_tiles (candidate b s t)) s)
                      i' buf' (gen_visit (gen_dfs n) (candidate b s t) s)).
  { intros bp t i' buf' Hcycle Hi'.
    apply (gen_visit_run n IH s bp); try assumption.
    apply candidate_ok; assumption. }
  cbn [gen_dfs].
  apply (outcome_seq _ (candidate b s TREASURE) s); [exact Hi| |].
  { destruct (Hvisit b TREASURE i buf (gen_cycle_board b s i buf false Et) Hi) as (k & Hk).
    rewrite Hback in Hk by discriminate. exists k. exact Hk. }
  intros Hle1.
  apply (outcome_seq _ (candidate b s MONSTER) s); [lia| |].
  { match goal with
    | |- exists _, outcome (Nat.iter _ _ (board_state _ _ ?i' ?buf' false)) _ _ _ _ _ =>
        destruct (Hvisit (candidate b s TREASURE) MONSTER i' buf'
                    (proj1 (gen_cycle_candidates b s i' buf' false Hs63 Hok))
                    ltac:(lia)) as (k & Hk)
    end.
    rewrite Hback in Hk by discriminate. exists k. exact Hk. }
  intros Hle2.
  apply (outcome_seq _ (candidate b s WALL) s); [lia| |].
  { match goal with
    | |- exists _, outcome (Nat.iter _ _ (board_state _ _ ?i' ?buf' false)) _ _ _ _ _ =>
        destruct (Hvisit (candidate b s MONSTER) WALL i' buf'
                    (proj1 (proj2 (gen_cycle_candidates b s i' buf' false Hs63 Hok)))
                    ltac:(lia)) as (k & Hk)
    end.
    rewrite Hback in Hk by discriminate. exists k. exact Hk. }
  intros Hle3.
  match goal with
  | |- exists _, outcome (Nat.iter _ _ (board_state _ _ ?i' ?buf' false)) _ _ _ _ _ =>
      exact (Hvisit (candidate b s WALL) EMPTY i' buf'
               (proj2 (proj2 (gen_cycle_candidates b s i' buf' false Hs63 Hok)))
               ltac:(lia))
  end.
Qed.

Lemma gen_subtree n : gsub (S n).
Proof.
  induction n as [|n IHn]; apply gen_subtree_step.
  - intros Hc. exfalso. apply Hc. reflexivity.
  - intros _. exact IHn.
Qed.
End GenSearch.

Lemma all_generated_eq : all_generated = gen_dfs 64 empty_board 0.
Proof. reflexivity. Qed.

Lemma empty_board_ok : board_ok empty_board 0.
Proof.
  unfold board_ok, empty_board. cbn [b_tiles b_monsters b_treasures b_solution].
  split; [reflexivity|]. repeat (split; [apply in_u64_0|]).
  intros j Hj. rewrite !Z.testbit_0_l. repeat split.
  unfold tile_at. apply nth_repeat.
Qed.

Lemma steps_stable {St : Type} (cond : St -> bool) (body : St -> St) st k m :
  cond (Nat.iter k (iter cond body) st) = false ->
  cond (Nat.iter m (iter cond body) st) = false ->
  Nat.iter m (iter cond body) st = Nat.iter k (iter cond body) st.
Proof.
  intros Hk Hm. destruct (Nat.le_ge_cases k m) as [Hle|Hge].
  - replace m with ((m - k) + k)%nat by lia. rewrite Nat.iter_add.
    apply steps_finished, Hk.
  - replace k with ((k - m) + m)%nat by lia. rewrite Nat.iter_add.
    symmetry. apply steps_finished, Hm.
Qed.

Lemma gen_cond_returned st : g_returned st = true -> gen_cond st = false.
Proof. intros Hr. unfold gen_cond. rewrite Hr. reflexivity. Qed.

(** [generate] runs the enumeration until the array is full. *)
Lemma generate_spec puzzles max_puzzles :
  0 <= max_puzzles < 2 ^ 64 ->
  generate puzzles max_puzzles
  = (Z.min max_puzzles (Z.of_nat (length all_generated)),
     store_from puzzles 0 (firstn (Z.to_nat max_puzzles) all_generated)).
Proof.
  intros Hmax.
  destruct (gen_subtree max_puzzles Hmax 63 0 empty_board 0 puzzles)
    as (k & Hk); [reflexivity|lia|apply empty_board_ok|lia|].
  rewrite <- all_generated_eq in Hk. revert Hk.
  generalize all_generated. intros found Hk.
  change (board_state empty_board 0 0 puzzles false) with (gen_init puzzles) in Hk.
  change (gen_backtrack (Z.to_nat (0 + 1)) (b_tiles empty_board) 0) with (-1) in Hk.
  pose proof (generate_terminates puzzles max_puzzles) as Hend.
  rewrite run_steps in Hend.
  assert (Hstop : gen_cond (Nat.iter k (iter gen_cond (gen_body max_puzzles))
                                    (gen_init puzzles)) = false).
  { destruct Hk as [(_ & ->)|(_ & Hr & _)]; [reflexivity|].
    apply gen_cond_returned, Hr. }
  unfold generate. cbv zeta. rewrite run_steps.
  rewrite (steps_stable gen_cond (gen_body max_puzzles) _ k _ Hstop Hend).
  destruct Hk as [(Hle & ->)|(Hgt & Hr & Hi & Hp)].
  - unfold board_state. cbn [g_puzzle_i g_puzzles].
    rewrite Z.add_0_l in *. rewrite Z.min_r by lia.
    rewrite firstn_all2 by lia. reflexivity.
  - rewrite Hi, Hp. rewrite Z.add_0_l in Hgt. rewrite Z.min_l by lia.
    rewrite Z.sub_0_r. reflexivity.
Qed.

Lemma nth_store_from {A : Type} (rs : list A) : forall buf i j d,
  nth j (store_from buf i rs) d
  = if ((i <=? j) && (j <? i + length rs) && (j <? length buf))%nat
    then nth (j - i) rs d else nth j buf d.
Proof.
  induction rs as [|r rs IH]; intros buf i j d.
  - cbn [store_from length]. rewrite Nat.add_0_r.
    destruct (Nat.leb_spec i j); destruct (Nat.ltb_spec j i); cbn [andb];
      try reflexivity; lia.
  - cbn [store_from length]. rewrite IH, store_length, nth_store.
    destruct (Nat.leb_spec (S i) j); destruct (Nat.leb_spec i j);
      destruct (Nat.ltb_spec j (S i + length rs));
      destruct (Nat.ltb_spec j (i + S (length rs)));
      destruct (Nat.ltb_spec j (length buf));
      destruct (Nat.eqb_spec j i); destruct (Nat.ltb_spec i (length buf));
      cbn [andb]; try lia; try reflexivity.
    + replace (j - i)%nat with (S (j - S i)) by lia. reflexivity.
    + subst j. rewrite Nat.sub_diag. reflexivity.
Qed.

(** ** Which records the enumeration holds *)

Lemma land_slot_set_zero X Y s :
  0 <= s < 64 -> Z.land X Y = 0 -> Z.testbit Y (slot_bit s) = false ->
  Z.land (slot_set X s) Y = 0.
Proof.
  intros Hs H0 Hbit. apply Z.bits_inj'. intros k Hk.
  rewrite Z.land_spec, testbit_slot_set, Z.testbit_0_l by assumption.
  pose proof (f_equal (fun z => Z.testbit z k) H0) as Hk0. cbv beta in Hk0.
  rewrite Z.land_spec, Z.testbit_0_l in Hk0.
  destruct (Z.eqb_spec k (slot_bit s)) as [->|Hne]; cbn [orb].
  - rewrite Hbit. apply andb_false_r.
  - exact Hk0.
Qed.

Lemma board_ok_clear b s :
  board_ok b s ->
  clear_from (b_monsters b) s /\ clear_from (b_treasures b) s
  /\ clear_from (b_solution b) s.
Proof.
  intros (_ & _ & _ & _ & Hopen).
  repeat split; intros j Hj; apply (Hopen j Hj).
Qed.

(** A candidate leaves the earlier slots as they are. *)
Lemma candidate_prefix b s t s' :
  0 <= s < 64 -> -1 <= s' < s ->
  prefix (b_monsters (candidate b s t)) s' = prefix (b_monsters b) s'
  /\ prefix (b_treasures (candidate b s t)) s' = prefix (b_treasures b) s'
  /\ prefix (b_solution (candidate b s t)) s' = prefix (b_solution b) s'.
Proof.
  intros Hs Hs'.
  destruct t; cbn [candidate b_monsters b_treasures b_solution];
    rewrite ?prefix_slot_set by lia; repeat split.
Qed.

Lemma candidate_disjoint b s t :
  0 <= s < 64 -> board_ok b s ->
  disjoint3 (b_monsters b) (b_treasures b) (b_solution b) ->
  disjoint3 (b_monsters (candidate b s t)) (b_treasures (candidate b s t))
            (b_solution (candidate b s t)).
Proof.
  intros Hs (_ & _ & _ & _ & Hopen) (Hmt & Hmg & Htg).
  destruct (Hopen s ltac:(lia)) as (_ & Em & Et & Eg).
  destruct t; cbn [candidate b_monsters b_treasures b_solution]; unfold disjoint3.
  - repeat split; assumption.
  - split; [exact Hmt|]. split.
    + rewrite Z.land_comm. apply land_slot_set_zero; [lia| |exact Em].
      rewrite Z.land_comm. exact Hmg.
    + rewrite Z.land_comm. apply land_slot_set_zero; [lia| |exact Et].
      rewrite Z.land_comm. exact Htg.
  - split; [apply land_slot_set_zero; assumption|].
    split; [apply land_slot_set_zero; assumption|exact Htg].
  - split.
    + rewrite Z.land_comm. apply land_slot_set_zero; [lia| |exact Em].
      rewrite Z.land_comm. exact Hmt.
    + split; [exact Hmg|apply land_slot_set_zero; assumption].
Qed.

(** Every record of the enumeration comes from an assignment that passes
    the six checks slot after slot. *)
Lemma gen_dfs_sound n : forall b s r,
  Z.of_nat n = 64 - s -> 0 <= s -> board_ok b s ->
  disjoint3 (b_monsters b) (b_treasures b) (b_solution b) ->
  (forall s', 0 <= s' < s ->
     gen_checks (gen_puzzle_at (b_monsters b) (b_treasures b) s')
                (prefix (b_solution b) s') s' = true) ->
  In r (gen_dfs n b s) ->
  exists M T g,
    in_u64 M /\ in_u64 T /\ in_u64 g /\ disjoint3 M T g
    /\ gen_prefix_valid M T g /\ r = record_of M T g.
Proof.
  induction n as [|n IH]; intros b s r Hn Hs Hok Hdisj Hbefore Hin; [destruct Hin|].
  assert (Hs63 : 0 <= s < 64) by lia.
  assert (Hvisit : forall t,
            In r (gen_visit (gen_dfs n) (candidate b s t) s) ->
            exists M T g,
              in_u64 M /\ in_u64 T /\ in_u64 g /\ disjoint3 M T g
              /\ gen_prefix_valid M T g /\ r = record_of M T g).
  { intros t Hin'.
    destruct (candidate_ok b s t Hs63 Hok) as [Hok' _].
    pose proof (candidate_disjoint b s t Hs63 Hok Hdisj) as Hdisj'.
    destruct (board_ok_clear _ _ Hok') as (Cm & Ct & Cg).
    pose proof Hok' as (_ & HM & HT & Hg & _).
    unfold gen_visit in Hin'.
    destruct (board_checks (candidate b s t) s) eqn:Echeck; [|destruct Hin'].
    assert (Hupto : forall s', 0 <= s' < s + 1 ->
              gen_checks (gen_puzzle_at (b_monsters (candidate b s t))
                                        (b_treasures (candidate b s t)) s')
                         (prefix (b_solution (candidate b s t)) s') s' = true).
    { intros s' Hs'. unfold gen_puzzle_at.
      destruct (Z.eq_dec s' s) as [->|Hne].
      - rewrite !prefix_clear by (assumption || lia). exact Echeck.
      - destruct (candidate_prefix b s t s' Hs63 ltac:(lia)) as (E1 & E2 & E3).
        rewrite E1, E2, E3. apply Hbefore. lia. }
    destruct (Z.ltb_spec s 63).
    - apply (IH (candidate b s t) (s + 1)); try assumption; lia.
    - destruct Hin' as [<-|[]].
      exists (b_monsters (candidate b s t)), (b_treasures (candidate b s t)),
        (b_solution (candidate b s t)).
      repeat (split; [assumption|]). split; [|reflexivity].
      intros s' Hs'. apply Hupto. lia. }
  cbn [gen_dfs] in Hin.
  apply in_app_or in Hin as [Hin|Hin]; [exact (Hvisit TREASURE Hin)|].
  apply in_app_or in Hin as [Hin|Hin]; [exact (Hvisit MONSTER Hin)|].
  apply in_app_or in Hin as [Hin|Hin]; [exact (Hvisit WALL Hin)|].
  exact (Hvisit EMPTY Hin).
Qed.

Lemma store_map_seq {A : Type} (g : nat -> A) v n : forall a i,
  store (map g (seq a n)) i v
  = map (fun k => if (k =? a + i)%nat then v else g k) (seq a n).
Proof.
  induction n as [|n IH]; intros a i; [destruct i; reflexivity|].
  cbn [seq map]. destruct i as [|i]; cbn [store].
  - rewrite Nat.add_0_r, Nat.eqb_refl. f_equal.
    apply map_ext_in. intros k Hk. apply in_seq in Hk.
    destruct (Nat.eqb_spec k a); [lia|reflexivity].
  - destruct (Nat.eqb_spec a (a + S i)); [lia|]. f_equal.
    rewrite IH. apply map_ext. intros k.
    replace (S a + i)%nat with (a + S i)%nat by lia. reflexivity.
Qed.

Lemma store_map_slots (f : Z -> Tile) s v :
  0 <= s ->
  store (map f all_slots) (Z.to_nat s) v
  = map (fun j => if j =? s then v else f j) all_slots.
Proof.
  intros Hs. unfold all_slots. rewrite !map_map, store_map_seq.
  apply map_ext. intros k. cbn [Nat.add].
  destruct (Nat.eqb_spec k (Z.to_nat s)); destruct (Z.eqb_spec (Z.of_nat k) s);
    try reflexivity; lia.
Qed.

Lemma prefix_none X : prefix X (-1) = 0.
Proof.
  apply Z.bits_inj'. intros i Hi. rewrite testbit_prefix, Z.testbit_0_l by lia.
  destruct (Z.leb_spec (63 - -1) i); destruct (Z.ltb_spec i 64); try lia;
    rewrite ?andb_false_r; reflexivity.
Qed.

Lemma board_at_start M T g : board_at M T g (-1) = empty_board.
Proof.
  unfold board_at, empty_board. rewrite !prefix_none. reflexivity.
Qed.

(** Putting the tile of slot [s] on the board of slots [0 .. s - 1] gives
    the board of slots [0 .. s]. *)
Lemma board_at_step M T g s :
  0 <= s < 64 -> disjoint3 M T g ->
  candidate (board_at M T g (s - 1)) s (tile_of M T g s) = board_at M T g s.
Proof.
  intros Hs (Hmt & Hmg & Htg).
  pose proof (land_zero_bits M T (slot_bit s) Hmt) as Bmt.
  pose proof (land_zero_bits M g (slot_bit s) Hmg) as Bmg.
  pose proof (land_zero_bits T g (slot_bit s) Htg) as Btg.
  pose proof (prefix_step M s Hs) as EM. pose proof (prefix_step T s Hs) as ET.
  pose proof (prefix_step g s Hs) as Eg.
  assert (Hbits : match tile_of M T g s with
                  | TREASURE => Z.testbit T (slot_bit s) = true
                                /\ Z.testbit M (slot_bit s) = false
                                /\ Z.testbit g (slot_bit s) = false
                  | MONSTER => Z.testbit T (slot_bit s) = false
                               /\ Z.testbit M (slot_bit s) = true
                               /\ Z.testbit g (slot_bit s) = false
                  | WALL => Z.testbit T (slot_bit s) = false
                            /\ Z.testbit M (slot_bit s) = false
                            /\ Z.testbit g (slot_bit s) = true
                  | EMPTY => Z.testbit T (slot_bit s) = false
                             /\ Z.testbit M (slot_bit s) = false
                             /\ Z.testbit g (slot_bit s) = false
                  end).
  { unfold tile_of.
    destruct (Z.testbit T (slot_bit s)), (Z.testbit M (slot_bit s)),
      (Z.testbit g (slot_bit s)); cbn [andb] in Bmt, Bmg, Btg;
      try discriminate; repeat split. }
  assert (Htiles : forall t, tile_of M T g s = t ->
            map (fun j => if j =? s then t
                          else if j <=? s - 1 then tile_of M T g j else EMPTY) all_slots
            = map (fun j => if j <=? s then tile_of M T g j else EMPTY) all_slots).
  { intros t Et. apply map_ext. intros j.
    destruct (Z.eqb_spec j s) as [->|Hne].
    - destruct (Z.leb_spec s s); [|lia]. symmetry. exact Et.
    - destruct (Z.leb_spec j (s - 1)); destruct (Z.leb_spec j s); try reflexivity; lia. }
  unfold board_at.
  destruct (tile_of M T g s) eqn:Et; destruct Hbits as (Bt & Bm & Bg);
    rewrite Bm in EM; rewrite Bt in ET; rewrite Bg in Eg;
    cbn [candidate b_tiles b_monsters b_treasures b_solution];
    rewrite ?store_map_slots by lia; cbv beta;
    rewrite ?(Htiles _ eq_refl), EM, ET, Eg; try reflexivity.
  f_equal. apply map_ext. intros j.
  destruct (Z.leb_spec j (s - 1)); destruct (Z.leb_spec j s); try reflexivity; try lia.
  assert (j = s) by lia. subst j. symmetry. exact Et.
Qed.

Lemma gen_dfs_complete_step M T g n s :
  0 <= s < 64 -> in_u64 M -> in_u64 T -> in_u64 g ->
  disjoint3 M T g -> gen_prefix_valid M T g ->
  (s < 63 -> In (record_of M T g) (gen_dfs n (board_at M T g s) (s + 1))) ->
  In (record_of M T g) (gen_dfs (S n) (board_at M T g (s - 1)) s).
Proof.
  intros Hs HM HT Hg Hdisj Hvalid Hbelow.
  pose proof (board_at_step M T g s Hs Hdisj) as Hstep.
  pose proof (Hvalid s Hs) as Hcheck.
  assert (Hvisit : In (record_of M T g) (gen_visit (gen_dfs n) (board_at M T g s) s)).
  { unfold gen_visit, board_checks.
    unfold gen_puzzle_at in Hcheck. unfold board_at at 1 2 3.
    cbn [b_monsters b_treasures b_solution]. rewrite Hcheck.
    destruct (Z.ltb_spec s 63) as [Hlt|Hge]; [exact (Hbelow Hlt)|].
    left. assert (s = 63) by lia. subst s.
    unfold board_record, record_of, board_at. cbv zeta.
    cbn [b_monsters b_treasures b_solution].
    rewrite !prefix_full by assumption. reflexivity. }
  cbn [gen_dfs]. rewrite <- Hstep in Hvisit. revert Hvisit.
  generalize (gen_dfs n). intros below.
  destruct (tile_of M T g s); intros Hvisit; apply in_or_app.
  - right. apply in_or_app. right. apply in_or_app. right. exact Hvisit.
  - right. apply in_or_app. right. apply in_or_app. left. exact Hvisit.
  - right. apply in_or_app. left. exact Hvisit.
  - left. exact Hvisit.
Qed.

(** Every assignment that passes the six checks slot after slot is found. *)
Lemma gen_dfs_complete M T g n : forall s,
  Z.of_nat (S n) = 64 - s -> 0 <= s ->
  in_u64 M -> in_u64 T -> in_u64 g -> disjoint3 M T g -> gen_prefix_valid M T g ->
  In (record_of M T g) (gen_dfs (S n) (board_at M T g (s - 1)) s).
Proof.
  induction n as [|n IH]; intros s Hn Hs HM HT Hg Hdisj Hvalid;
    apply gen_dfs_complete_step; try assumption; try lia.
  intros Hlt.
  replace (board_at M T g s) with (board_at M T g (s + 1 - 1)) by (f_equal; lia).
  apply IH; try assumption; lia.
Qed.

Lemma disjoint3_zero : disjoint3 0 0 0.
Proof. repeat split. Qed.

Lemma all_generated_spec r :
  In r all_generated <->
  exists M T g,
    in_u64 M /\ in_u64 T /\ in_u64 g /\ disjoint3 M T g
    /\ gen_prefix_valid M T g /\ r = record_of M T g.
Proof.
  rewrite all_generated_eq. split.
  - apply (gen_dfs_sound 64 empty_board 0 r); [reflexivity|lia|apply empty_board_ok| |].
    + apply disjoint3_zero.
    + intros s' Hs'. lia.
  - intros (M & T & g & HM & HT & Hg & Hdisj & Hvalid & ->).
    rewrite <- (board_at_start M T g).
    apply (gen_dfs_complete M T g 63 0); try assumption; [reflexivity|lia].
Qed.

(** X19.  There is one sequence of records, the same for every capacity
    and every array, that [generate] hands out from its start: with a
    capacity that fits in 64 bits and an array that long, it returns the
    smaller of the capacity and the length of the sequence, and the entries
    below the returned count are the first entries of the sequence, in
    order.  The sequence holds exactly the records of the assignments of
    monsters, treasures and walls to the 64 cells (no cell holding two
    things) that pass the six checks of the generator slot after slot. *)
Theorem generate_finds_the_valid_assignments :
  exists found : list GeneratedPuzzle,
    (forall r, In r found <->
       exists M T g,
         in_u64 M /\ in_u64 T /\ in_u64 g /\ disjoint3 M T g
         /\ gen_prefix_valid M T g /\ r = record_of M T g)
    /\ forall (puzzles : list GeneratedPuzzle) (max_puzzles : Z),
         0 <= max_puzzles < 2 ^ 64 ->
         max_puzzles <= Z.of_nat (length puzzles) ->
         fst (generate puzzles max_puzzles)
         = Z.min max_puzzles (Z.of_nat (length found))
         /\ forall j d, Z.of_nat j < fst (generate puzzles max_puzzles) ->
              nth j (snd (generate puzzles max_puzzles)) d = nth j found d.
Proof.
  exists all_generated. split.
  - exact all_generated_spec.
  - intros puzzles max_puzzles Hmax Hcap.
    rewrite generate_spec by exact Hmax. cbn [fst snd].
    generalize all_generated. intros found.
    split; [reflexivity|]. intros j d Hj.
    rewrite nth_store_from, length_firstn, Nat.sub_0_r, nth_firstn.
    destruct (Nat.ltb_spec j (Z.to_nat max_puzzles)); [|lia].
    destruct (Nat.leb_spec 0 j); [|lia].
    destruct (Nat.ltb_spec j (0 + Nat.min (Z.to_nat max_puzzles) (length found))); [|lia].
    destruct (Nat.ltb_spec j (length puzzles)); [|lia].
    reflexivity.
Qed.

Lemma ring_grid_valid : gen_prefix_valid 0 0 ring_grid.
Proof.
  intros s Hs.
  apply (all_slots_forall
           (fun s => gen_checks (gen_puzzle_at 0 0 s) (prefix ring_grid s) s));
    [vm_compute; reflexivity|exact Hs].
Qed.

Lemma generate_finds_the_valid_assignments_witness :
  exists found : list GeneratedPuzzle,
    In (record_of 0 0 ring_grid) found
    /\ fst (generate [no_puzzle] 1) = Z.min 1 (Z.of_nat (length found)).
Proof.
  destruct generate_finds_the_valid_assignments as (found & Hmem & Hgen).
  exists found. split.
  - apply Hmem. exists 0, 0, ring_grid.
    split; [apply in_u64_0|]. split; [apply in_u64_0|].
    split; [unfold in_u64, ring_grid; lia|].
    split; [repeat split|]. split; [exact ring_grid_valid|exact eq_refl].
  - apply (Hgen [no_puzzle] 1); [lia|cbn [length]; lia].
Defined.

Lemma disjoint3_zero_l : disjoint3 0 0 ring_grid.
Proof. repeat split. Qed.

Lemma ring_record_generated : In (record_of 0 0 ring_grid) all_generated.
Proof.
  refine (proj2 (all_generated_spec (record_of 0 0 ring_grid)) _).
  exists 0, 0, ring_grid.
  split; [apply in_u64_0|]. split; [apply in_u64_0|].
  split; [unfold in_u64, ring_grid; lia|].
  split; [exact disjoint3_zero_l|]. split; [exact ring_grid_valid|exact eq_refl].
Qed.

(** X20.  [generate] finds something: with room for at least one record
    (and a capacity that fits in 64 bits, over an array that long) it
    returns a count of at least 1. *)
Theorem generate_finds_a_puzzle
    (puzzles : list GeneratedPuzzle) (max_puzzles : Z)
    (Hmax : 1 <= max_puzzles < 2 ^ 64)
    (Hcap : max_puzzles <= Z.of_nat (length puzzles)) :
  1 <= fst (generate puzzles max_puzzles).
Proof.
  rewrite generate_spec by lia. cbn [fst].
  pose proof ring_record_generated as Hin. revert Hin.
  generalize all_generated. intros found Hin.
  destruct found as [|r found]; [destruct Hin|].
  cbn [length]. lia.
Qed.

Lemma generate_finds_a_puzzle_witness : 1 <= fst (generate [no_puzzle] 1).
Proof. apply (generate_finds_a_puzzle [no_puzzle] 1); [lia|cbn [length]; lia]. Defined.

(** ** What a valid treasure room is *)

Lemma inner_rooms_complete :
  forallb (fun c => count_set_bits (room_mask c) =? 9) inner_centers = true.
Proof. vm_compute. reflexivity. Qed.

Lemma room_on_grid c :
  count_set_bits (room_mask c) = 9 <-> 1 <= row c <= 6 /\ 1 <= col c <= 6.
Proof.
  split; [apply room_center_inner|]. intros [Hr Hc].
  pose proof inner_rooms_complete as H. rewrite forallb_forall in H.
  apply Z.eqb_eq, H, In_inner_centers; assumption.
Qed.

(** X21.  [is_invalid_treasure_room] accepts a 3x3 room for a treasure
    exactly when the room lies on the grid, holds no monster, no treasure
    other than the one given and no wall, its border of twelve cells holds
    no monster or treasure, and the border has exactly one cell that is not
    a wall when the slot checked lies at least two rows below and two
    columns right of the centre or is the last slot, at least one such cell
    otherwise.  Cells are read with [pos_is_set], as the source builds both
    masks with [pos_set]. *)
Theorem treasure_room_meaning
    (pz : Puzzle) (g : Z) (treasure center : Pos) (slot : Z)
    (Hg : in_u64 g) (Hslot : 0 <= slot < 64) :
  is_invalid_treasure_room pz g treasure center slot = false
  <-> (1 <= row center <= 6 /\ 1 <= col center <= 6)
      /\ existsb (fun q => truthy (pos_is_set (monsters pz) q)) (room_cells center) = false
      /\ existsb (fun q => truthy (pos_is_set (pos_unset (treasures pz) treasure) q))
                 (room_cells center) = false
      /\ existsb (fun q => truthy (pos_is_set g q)) (room_cells center) = false
      /\ existsb (fun q => truthy (pos_is_set (monsters pz) q)) (walls_cells center) = false
      /\ existsb (fun q => truthy (pos_is_set (treasures pz) q)) (walls_cells center)
         = false
      /\ (if ((row center + 2 <=? row (pos_from_slot slot))
              && (col center + 2 <=? col (pos_from_slot slot)))
             || (slot =? 63)
          then border_openings center g = 1
          else 1 <= border_openings center g).
Proof.
  unfold is_invalid_treasure_room. cbv zeta.
  destruct (Z.eqb_spec (count_set_bits (room_mask center)) 9) as [H9|H9]; cbn [negb].
  2:{ split; [discriminate|]. intros (Hin & _). exfalso. apply H9, room_on_grid, Hin. }
  pose proof (proj1 (room_on_grid center) H9) as Hin. destruct Hin as [Hr Hc].
  pose proof (border_counts center g Hg Hr Hc) as Hcount.
  assert (Hopen : 0 <= border_openings center g)
    by (unfold border_openings; lia).
  rewrite (room_mask_cells center). unfold walls_mask at 1 2.
  rewrite !truthy_land_cells.
  unfold strict_room_check. cbv zeta.
  rewrite last_slot_pos, !Z.geb_leb by assumption.
  revert Hcount Hopen. generalize (border_openings center g).
  generalize (count_set_bits (Z.land (walls_mask center) g)).
  generalize (count_set_bits (walls_mask center)). intros total closed openings Hcount Hopen.
  destruct (existsb (fun q => truthy (pos_is_set (monsters pz) q)) (room_cells center));
    cbn [orb].
  { split; [discriminate|]. intros (_ & H & _). discriminate H. }
  destruct (existsb (fun q => truthy (pos_is_set (pos_unset (treasures pz) treasure) q))
                    (room_cells center)).
  { split; [discriminate|]. intros (_ & _ & H & _). discriminate H. }
  destruct (existsb (fun q => truthy (pos_is_set g q)) (room_cells center)).
  { split; [discriminate|]. intros (_ & _ & _ & H & _). discriminate H. }
  destruct (existsb (fun q => truthy (pos_is_set (monsters pz) q)) (walls_cells center));
    cbn [orb].
  { split; [discriminate|]. intros (_ & _ & _ & _ & H & _). discriminate H. }
  destruct (existsb (fun q => truthy (pos_is_set (treasures pz) q)) (walls_cells center)).
  { split; [discriminate|]. intros (_ & _ & _ & _ & _ & H & _). discriminate H. }
  destruct ((row center + 2 <=? row (pos_from_slot slot))
            && (col center + 2 <=? col (pos_from_slot slot)) || (slot =? 63)).
  - destruct (Z.eqb_spec closed (total - 1)) as [E|E]; cbn [negb].
    + split; [|reflexivity]. intros _. repeat split; try assumption; lia.
    + split; [discriminate|]. intros (_ & _ & _ & _ & _ & _ & H). lia.
  - destruct (Z.eqb_spec closed total) as [E|E].
    + split; [discriminate|]. intros (_ & _ & _ & _ & _ & _ & H). lia.
    + split; [|reflexivity]. intros _. repeat split; try assumption; lia.
Qed.

Lemma treasure_room_meaning_witness :
  is_invalid_treasure_room treasure_at_1_1 0 (mkPos 1 1) (mkPos 1 1) 19 = false
  <-> (1 <= row (mkPos 1 1) <= 6 /\ 1 <= col (mkPos 1 1) <= 6)
      /\ existsb (fun q => truthy (pos_is_set (monsters treasure_at_1_1) q))
                 (room_cells (mkPos 1 1)) = false
      /\ existsb (fun q => truthy (pos_is_set (pos_unset (treasures treasure_at_1_1)
                                                         (mkPos 1 1)) q))
                 (room_cells (mkPos 1 1)) = false
      /\ existsb (fun q => truthy (pos_is_set 0 q)) (room_cells (mkPos 1 1)) = false
      /\ existsb (fun q => truthy (pos_is_set (monsters treasure_at_1_1) q))
                 (walls_cells (mkPos 1 1)) = false
      /\ existsb (fun q => truthy (pos_is_set (treasures treasure_at_1_1) q))
                 (walls_cells (mkPos 1 1)) = false
      /\ (if ((row (mkPos 1 1) + 2 <=? row (pos_from_slot 19))
              && (col (mkPos 1 1) + 2 <=? col (pos_from_slot 19)))
             || (19 =? 63)
          then border_openings (mkPos 1 1) 0 = 1
          else 1 <= border_openings (mkPos 1 1) 0).
Proof.
  apply (treasure_room_meaning treasure_at_1_1 0 (mkPos 1 1) (mkPos 1 1) 19);
    [unfold in_u64; lia|lia].
Defined.

(** ** The generator: when it stops *)

(** The grid all of whose cells are walls passes the six checks on every
    prefix, so the generator accepts a second assignment. *)
Lemma wall_grid_valid : gen_prefix_valid 0 0 (Z.ones 64).
Proof.
  intros s Hs.
  apply (all_slots_forall
           (fun s => gen_checks (gen_puzzle_at 0 0 s) (prefix (Z.ones 64) s) s));
    [vm_compute; reflexivity|exact Hs].
Qed.

Lemma wall_record_generated : In (record_of 0 0 (Z.ones 64)) all_generated.
Proof.
  refine (proj2 (all_generated_spec (record_of 0 0 (Z.ones 64))) _).
  exists 0, 0, (Z.ones 64).
  split; [apply in_u64_0|]. split; [apply in_u64_0|].
  split; [unfold in_u64; cbn; lia|].
  split; [repeat split|]. split; [exact wall_grid_valid|exact eq_refl].
Qed.

Lemma ring_wall_records_differ : record_of 0 0 ring_grid <> record_of 0 0 (Z.ones 64).
Proof.
  intros E.
  assert (H : row_wall_counts (gp_puzzle (record_of 0 0 ring_grid))
              = row_wall_counts (gp_puzzle (record_of 0 0 (Z.ones 64))))
    by (rewrite E; reflexivity).
  cbn [record_of gp_puzzle valid_puzzle row_wall_counts] in H.
  vm_compute in H. discriminate H.
Qed.

Lemma two_records_generated : 1 < Z.of_nat (length all_generated).
Proof.
  pose proof ring_record_generated as H1. pose proof wall_record_generated as H2.
  pose proof ring_wall_records_differ as Hne.
  revert H1 H2 Hne. generalize (record_of 0 0 ring_grid) (record_of 0 0 (Z.ones 64)).
  generalize all_generated. intros found r1 r2 H1 H2 Hne.
  destruct found as [|a [|b found]].
  - destruct H1.
  - destruct H1 as [H1|[]]. destruct H2 as [H2|[]]. congruence.
  - cbn [length]. lia.
Qed.

Lemma steps_first {St : Type} (step : St -> St) (P : St -> bool) st : forall k,
  P st = true -> P (Nat.iter k step st) = false ->
  exists j, P (Nat.iter j step st) = true /\ P (Nat.iter (S j) step st) = false.
Proof.
  induction k as [|k IH]; intros H0 Hk.
  - simpl in Hk. congruence.
  - destruct (P (Nat.iter k step st)) eqn:E.
    + exists k. split; assumption.
    + apply IH; [assumption|reflexivity].
Qed.

(** A turn either leaves the count and the array alone, or stores a record
    below the capacity and goes on. *)
Lemma gen_body_count_cases max_puzzles st :
  (g_puzzle_i (gen_body max_puzzles st) = g_puzzle_i st
   /\ g_puzzles (gen_body max_puzzles st) = g_puzzles st)
  \/ (g_puzzle_i st < max_puzzles
      /\ g_puzzle_i (gen_body max_puzzles st) = u64_succ (g_puzzle_i st)
      /\ g_returned (gen_body max_puzzles st) = false).
Proof.
  destruct (gen_cycle_outputs st) as (Ei & Ep & _).
  unfold gen_body. cbv zeta.
  destruct (gen_checks _ _ _); [|left; cbn [g_puzzle_i g_puzzles]; auto].
  destruct (g_slot (gen_cycle st) <? 63); [left; cbn [g_puzzle_i g_puzzles]; auto|].
  destruct (Z.ltb_spec (g_puzzle_i (gen_cycle st)) max_puzzles) as [Hlt|Hge].
  - right. cbn [g_puzzle_i g_returned]. rewrite Ei in *. auto.
  - left. cbn [g_puzzle_i g_puzzles]. auto.
Qed.

(** A turn takes the [return] exactly when it completes a grid that passes
    the six checks while the count is not below the capacity. *)
Lemma gen_body_returns max_puzzles st :
  gen_cond st = true ->
  g_returned (gen_body max_puzzles st) = true
  <-> g_slot st = 63
      /\ gen_checks (g_puzzle (gen_cycle st)) (g_solution (gen_cycle st)) 63 = true
      /\ max_puzzles <= g_puzzle_i st.
Proof.
  intros Hcond. destruct (gen_cycle_outputs st) as (Ei & _).
  unfold gen_body. cbv zeta. rewrite !gen_cycle_slot, Ei.
  destruct (Z.eq_dec (g_slot st) 63) as [E63|N63].
  - rewrite E63. change (63 <? 63) with false. cbv iota.
    destruct (gen_checks _ _ 63).
    + destruct (Z.ltb_spec (g_puzzle_i st) max_puzzles) as [Hi|Hi]; cbn [g_returned].
      * split; [discriminate|]. intros (_ & _ & H). lia.
      * split; [auto|reflexivity].
    + cbn [g_returned]. split; [discriminate|]. intros (_ & H & _). discriminate H.
  - assert (Hlt : (g_slot st <? 63) = true).
    { unfold gen_cond in Hcond. apply andb_prop in Hcond. destruct Hcond as [_ H].
      apply Z.ltb_lt in H. apply Z.ltb_lt. lia. }
    rewrite Hlt. destruct (gen_checks _ _ _); cbn [g_returned];
      (split; [discriminate|]); intros (H & _); contradiction.
Qed.

(** How the loop of [generate] ends: on the [return], with the count at the
    capacity, when the enumeration holds more records than the array, and
    otherwise with the slot below 0, every assignment tried. *)
Lemma generate_run puzzles max_puzzles :
  0 <= max_puzzles < 2 ^ 64 ->
  exists k,
    run gen_cond (gen_body max_puzzles) gen_depth (gen_init puzzles)
    = Nat.iter k (iter gen_cond (gen_body max_puzzles)) (gen_init puzzles)
    /\ ((Z.of_nat (length all_generated) <= max_puzzles
         /\ g_returned (Nat.iter k (iter gen_cond (gen_body max_puzzles))
                                 (gen_init puzzles)) = false
         /\ g_slot (Nat.iter k (iter gen_cond (gen_body max_puzzles))
                             (gen_init puzzles)) = -1)
        \/ (max_puzzles < Z.of_nat (length all_generated)
            /\ g_returned (Nat.iter k (iter gen_cond (gen_body max_puzzles))
                                    (gen_init puzzles)) = true
            /\ g_puzzle_i (Nat.iter k (iter gen_cond (gen_body max_puzzles))
                                    (gen_init puzzles)) = max_puzzles)).
Proof.
  intros Hmax.
  destruct (gen_subtree max_puzzles Hmax 63 0 empty_board 0 puzzles)
    as (k & Hk); [reflexivity|lia|apply empty_board_ok|lia|].
  rewrite <- all_generated_eq in Hk. revert Hk.
  generalize all_generated. intros found Hk.
  change (board_state empty_board 0 0 puzzles false) with (gen_init puzzles) in Hk.
  change (gen_backtrack (Z.to_nat (0 + 1)) (b_tiles empty_board) 0) with (-1) in Hk.
  pose proof (generate_terminates puzzles max_puzzles) as Hend.
  rewrite run_steps in Hend.
  assert (Hstop : gen_cond (Nat.iter k (iter gen_cond (gen_body max_puzzles))
                                    (gen_init puzzles)) = false).
  { destruct Hk as [(_ & ->)|(_ & Hr & _)]; [reflexivity|].
    apply gen_cond_returned, Hr. }
  exists k. split.
  { rewrite run_steps.
    apply (steps_stable gen_cond (gen_body max_puzzles) _ k _ Hstop Hend). }
  rewrite Z.add_0_l in Hk.
  destruct Hk as [(Hle & ->)|(Hgt & Hr & Hi & _)].
  - left. split; [exact Hle|]. split; reflexivity.
  - right. split; [exact Hgt|]. split; assumption.
Qed.

(** C8, as stated, fails: reaching the capacity does not stop the search.
    With capacity 0 the capacity is reached from the start, and after 1000
    turns the loop is still running, the count still 0.  With capacity 1,
    the turn that completes the ring grid on an empty array stores the
    record, which brings the count to the capacity, and the loop goes on
    from slot 54. *)
Lemma generate_searches_on_at_capacity_counterexample :
  (let st := Nat.iter 1000 (iter gen_cond (gen_body 0)) (gen_init []) in
   g_puzzle_i st = 0 /\ g_returned st = false /\ gen_cond st = true)
  /\ (let st := gen_body 1 (ring_state [no_puzzle] 0) in
      gen_cond (ring_state [no_puzzle] 0) = true
      /\ g_puzzle_i st = 1 /\ g_returned st = false /\ gen_cond st = true
      /\ g_slot st = 54).
Proof. vm_compute. repeat split. Qed.

(** C8, amended.  For every capacity, [generate] returns (its loop ends)
    with a count of at most the capacity, and valid puzzles past the
    capacity are not counted.  It does not stop when the capacity is
    reached: a turn takes the [return] exactly when it completes a grid
    that passes the six checks while the count is not below the capacity,
    and then the count and the array are left as they were.  So the run
    ends on the [return], with the count at the capacity, exactly when the
    search finds one valid assignment more than the array holds, and
    otherwise when every assignment has been tried (the slot is -1); and
    after the turn that stores the last record the array has room for, the
    loop is still running. *)
Theorem generate_returns_on_find_past_capacity
    (puzzles : list GeneratedPuzzle) (max_puzzles : Z) (Hmax : 0 <= max_puzzles) :
  let state k := Nat.iter k (iter gen_cond (gen_body max_puzzles)) (gen_init puzzles) in
  let final := run gen_cond (gen_body max_puzzles) gen_depth (gen_init puzzles) in
  gen_cond final = false
  /\ 0 <= fst (generate puzzles max_puzzles) <= max_puzzles
  /\ (forall st, gen_cond st = true ->
        (g_returned (gen_body max_puzzles st) = true
         <-> g_slot st = 63
             /\ gen_checks (g_puzzle (gen_cycle st)) (g_solution (gen_cycle st)) 63 = true
             /\ max_puzzles <= g_puzzle_i st)
        /\ (g_returned (gen_body max_puzzles st) = true ->
            g_puzzle_i (gen_body max_puzzles st) = g_puzzle_i st
            /\ g_puzzles (gen_body max_puzzles st) = g_puzzles st))
  /\ (max_puzzles < 2 ^ 64 ->
      (g_returned final = true <-> max_puzzles < Z.of_nat (length all_generated))
      /\ (g_returned final = true -> g_puzzle_i final = max_puzzles)
      /\ (g_returned final = false -> g_slot final = -1)
      /\ (1 <= max_puzzles -> max_puzzles < Z.of_nat (length all_generated) ->
          exists k,
            g_puzzle_i (state k) = max_puzzles - 1
            /\ g_puzzle_i (state (S k)) = max_puzzles
            /\ g_returned (state (S k)) = false
            /\ gen_cond (state (S k)) = true)).
Proof.
  intros state final.
  assert (Hcount : forall k, 0 <= g_puzzle_i (state k) <= max_puzzles).
  { intros k. unfold state.
    apply (steps_invariant gen_cond (gen_body max_puzzles)
             (fun st => 0 <= g_puzzle_i st <= max_puzzles)).
    - intros st Hi _. apply gen_body_count, Hi.
    - cbn [gen_init g_puzzle_i]. lia. }
  split; [apply generate_terminates|]. split.
  { unfold generate. cbn [fst]. rewrite run_steps. apply Hcount. }
  split.
  { intros st Hcond. split; [apply gen_body_returns, Hcond|].
    intros Hr.
    destruct (gen_body_count_cases max_puzzles st) as [Hsame|(_ & _ & Hf)];
      [exact Hsame|congruence]. }
  intros Hlt.
  destruct (generate_run puzzles max_puzzles ltac:(lia)) as (k & Hfinal & Hk).
  unfold final. rewrite Hfinal. clear Hfinal final. fold (state k) in Hk |- *.
  revert Hk. generalize (Z.of_nat (length all_generated)). intros found Hk.
  split; [|split; [|split]].
  - destruct Hk as [(Hle & Hr & _)|(Hgt & Hr & _)]; rewrite Hr.
    + split; [intros H; discriminate H|intros H; lia].
    + split; [intros _; exact Hgt|reflexivity].
  - destruct Hk as [(_ & Hr & _)|(_ & _ & Hi)]; [congruence|intros _; exact Hi].
  - destruct Hk as [(_ & _ & Hs)|(_ & Hr & _)]; [intros _; exact Hs|congruence].
  - intros H1 Hmany.
    destruct Hk as [(Hle & _)|(_ & Hr & Hi)]; [lia|].
    destruct (steps_first (iter gen_cond (gen_body max_puzzles))
                (fun st => g_puzzle_i st <? max_puzzles) (gen_init puzzles) k)
      as (j & Hj & HSj).
    { cbn [gen_init g_puzzle_i]. apply Z.ltb_lt. lia. }
    { fold (state k). rewrite Hi. apply Z.ltb_irrefl. }
    fold (state j) in Hj. fold (state (S j)) in HSj.
    apply Z.ltb_lt in Hj. apply Z.ltb_ge in HSj.
    assert (Hstep : state (S j) = iter gen_cond (gen_body max_puzzles) (state j))
      by reflexivity.
    unfold iter in Hstep.
    destruct (gen_cond (state j)) eqn:Ec; [|rewrite Hstep in HSj; lia].
    destruct (gen_body_count_cases max_puzzles (state j))
      as [(Hsame & _)|(_ & Hsucc & Hret)].
    { rewrite Hstep, Hsame in HSj. lia. }
    rewrite <- Hstep in Hsucc, Hret.
    pose proof (Hcount j) as Hj0.
    unfold u64_succ in Hsucc. rewrite Z.mod_small in Hsucc by lia.
    exists j. split; [lia|]. split; [lia|]. split; [exact Hret|].
    destruct (gen_cond (state (S j))) eqn:EcS; [reflexivity|].
    exfalso.
    assert (Heq : state k = state (S j)).
    { apply (steps_stable gen_cond (gen_body max_puzzles) _ (S j) k EcS).
      apply gen_cond_returned, Hr. }
    rewrite Heq in Hr. congruence.
Qed.

Lemma generate_returns_on_find_past_capacity_witness :
  (exists k,
     g_puzzle_i (Nat.iter k (iter gen_cond (gen_body 1)) (gen_init [no_puzzle])) = 1 - 1
     /\ g_puzzle_i (Nat.iter (S k) (iter gen_cond (gen_body 1)) (gen_init [no_puzzle])) = 1
     /\ g_returned (Nat.iter (S k) (iter gen_cond (gen_body 1)) (gen_init [no_puzzle]))
        = false
     /\ gen_cond (Nat.iter (S k) (iter gen_cond (gen_body 1)) (gen_init [no_puzzle]))
        = true)
  /\ g_returned (gen_body 1 (ring_state [no_puzzle] 1)) = true.
Proof.
  pose proof (generate_returns_on_find_past_capacity [no_puzzle] 1 ltac:(lia)) as H.
  cbv zeta in H. destruct H as (_ & _ & Hturn & Hrun).
  split.
  - apply (proj2 (proj2 (proj2 (Hrun ltac:(lia)))));
      [lia|exact two_records_generated].
  - apply (proj1 (Hturn (ring_state [no_puzzle] 1) eq_refl)).
    split; [reflexivity|]. split; [vm_compute; reflexivity|].
    cbn [ring_state g_puzzle_i]. lia.
Defined.
